(** * CTF Sentinel: the entity correlation and scoring engine

    A shallow embedding of [CorrelationEngine] (correlation_report.py) and of
    [AIParser.score_entity_importance] (ai_parser.py), with the properties of
    the engine that the design document states; and, for the further
    properties of Part IV, of the rest of [AIParser] (ai_parser.py), of
    [ReportGenerator] (correlation_report.py), of [CollectionEngine]
    (collection_engine.py) and of the analysis [main] runs (main.py).

    Modelling conventions.
    - A Python [str] is a [string] whose characters are the code points
      0..255 (Latin-1); [str.lower] and [str.isspace] are written out on that
      range. Normalization is also written out on strings of arbitrary code
      points (module [UStr]), of which the Latin-1 functions are the
      restriction.
    - A Python [float] is a binary64 primitive float; [min] and [max] are
      Python's (the first argument wins unless the second is strictly
      smaller, resp. greater).
    - A Python [set] of strings is a [gset string].
    - A Python [dict] whose iteration order the code relies on is an
      association list in insertion order.
    - A method of the engine is a function from the engine's state to an
      outcome (a value or a raised exception) and the state it leaves.
    - spaCy, [re], the operating system and the network are not modelled:
      the code that calls them is a function of what they answer. Printing
      is not modelled either: a method of the report generator is the
      function from its arguments to the rows it prints. *)

From Stdlib Require Import ZArith NArith Ascii String Floats Uint63 Lia.
From stdpp Require Import base option list strings gmap.

Local Open Scope string_scope.
Set Warnings "-inexact-float,-clear-no-such-hyp".

(* ===================================================================== *)
(** * Part I: the program                                                 *)
(* ===================================================================== *)

(** ** Strings: [str.lower] and [str.strip] on Latin-1 code points *)

Module Str.

(** Code points with an uppercase mapping below 256: A-Z, and the
    letters U+00C0..U+00DE without the multiplication sign U+00D7. *)
Definition isupper (c : ascii) : bool :=
  let n := N_of_ascii c in
  ((65 <=? n) && (n <=? 90) || (192 <=? n) && (n <=? 222) && negb (n =? 215))%N.

Definition lower_char (c : ascii) : ascii :=
  if isupper c then ascii_of_N (N_of_ascii c + 32) else c.

(** [str.isspace] on one code point: TAB, LF, VT, FF, CR, the separators
    U+001C..U+001F, SPACE, NEL (U+0085) and NBSP (U+00A0). *)
Definition isspace (c : ascii) : bool :=
  let n := N_of_ascii c in
  ((9 <=? n) && (n <=? 13) || (28 <=? n) && (n <=? 32)
   || (n =? 133) || (n =? 160))%N.

(** [s.lower()] *)
Fixpoint lower (s : string) : string :=
  match s with
  | EmptyString => EmptyString
  | String c r => String (lower_char c) (lower r)
  end.

(** [s.lstrip()] *)
Fixpoint lstrip (s : string) : string :=
  match s with
  | EmptyString => EmptyString
  | String c r => if isspace c then lstrip r else s
  end.

(** [s.rstrip()] *)
Fixpoint rstrip (s : string) : string :=
  match s with
  | EmptyString => EmptyString
  | String c r =>
      match rstrip r with
      | EmptyString => if isspace c then EmptyString else String c EmptyString
      | r' => String c r'
      end
  end.

(** [s.strip()] *)
Definition strip (s : string) : string := rstrip (lstrip s).

(** Every character of [s] is whitespace ([s] may be empty). *)
Fixpoint all_space (s : string) : bool :=
  match s with
  | EmptyString => true
  | String c r => isspace c && all_space r
  end.

End Str.

(** [CorrelationEngine._normalize_key]: [value.lower().strip()] *)
Definition _normalize_key (value : string) : string := Str.strip (Str.lower value).

(** ** Strings of any code points: [str.lower] and [str.strip] in full

    [_normalize_key] takes any [str]. Here [value.lower().strip()] is
    written out on strings of arbitrary code points, as CPython 3.11 computes
    it with the tables of Unicode 14.0.0: [do_lower], [lower_ucs4],
    [handle_capital_sigma] and [do_strip] of unicodeobject.c over
    [_PyUnicode_ToLowerFull], [_PyUnicode_IsCased],
    [_PyUnicode_IsCaseIgnorable] and [_PyUnicode_IsWhitespace] of
    unicodectype.c. On the code points 0..255 these are the functions of
    [Str]. *)

Module UStr.
Local Open Scope N_scope.

(** A string as the list of its code points. *)
Definition str : Type := list N.

Definition in_ranges (c : N) (ranges : list (N * N)) : bool :=
  existsb (fun '(first, last) => (first <=? c) && (c <=? last)) ranges.

(** The code points for which [str.isspace] holds, in ranges
    [(first, last)]. *)
Definition whitespace : list (N * N) :=
  [(0x9, 0xD); (0x1C, 0x20); (0x85, 0x85); (0xA0, 0xA0); (0x1680, 0x1680);
   (0x2000, 0x200A); (0x2028, 0x2029); (0x202F, 0x202F); (0x205F, 0x205F);
   (0x3000, 0x3000)].

(** The code points with the property Cased. *)
Definition cased : list (N * N) :=
  [(0x41, 0x5A); (0x61, 0x7A); (0xAA, 0xAA); (0xB5, 0xB5); (0xBA, 0xBA);
   (0xC0, 0xD6); (0xD8, 0xF6); (0xF8, 0x1BA); (0x1BC, 0x1BF); (0x1C4, 0x293);
   (0x295, 0x2B8); (0x2C0, 0x2C1); (0x2E0, 0x2E4); (0x345, 0x345);
   (0x370, 0x373); (0x376, 0x377); (0x37A, 0x37D); (0x37F, 0x37F);
   (0x386, 0x386); (0x388, 0x38A); (0x38C, 0x38C); (0x38E, 0x3A1);
   (0x3A3, 0x3F5); (0x3F7, 0x481); (0x48A, 0x52F); (0x531, 0x556);
   (0x560, 0x588); (0x10A0, 0x10C5); (0x10C7, 0x10C7); (0x10CD, 0x10CD);
   (0x10D0, 0x10FA); (0x10FD, 0x10FF); (0x13A0, 0x13F5); (0x13F8, 0x13FD);
   (0x1C80, 0x1C88); (0x1C90, 0x1CBA); (0x1CBD, 0x1CBF); (0x1D00, 0x1DBF);
   (0x1E00, 0x1F15); (0x1F18, 0x1F1D); (0x1F20, 0x1F45); (0x1F48, 0x1F4D);
   (0x1F50, 0x1F57); (0x1F59, 0x1F59); (0x1F5B, 0x1F5B); (0x1F5D, 0x1F5D);
   (0x1F5F, 0x1F7D); (0x1F80, 0x1FB4); (0x1FB6, 0x1FBC); (0x1FBE, 0x1FBE);
   (0x1FC2, 0x1FC4); (0x1FC6, 0x1FCC); (0x1FD0, 0x1FD3); (0x1FD6, 0x1FDB);
   (0x1FE0, 0x1FEC); (0x1FF2, 0x1FF4); (0x1FF6, 0x1FFC); (0x2071, 0x2071);
   (0x207F, 0x207F); (0x2090, 0x209C); (0x2102, 0x2102); (0x2107, 0x2107);
   (0x210A, 0x2113); (0x2115, 0x2115); (0x2119, 0x211D); (0x2124, 0x2124);
   (0x2126, 0x2126); (0x2128, 0x2128); (0x212A, 0x212D); (0x212F, 0x2134);
   (0x2139, 0x2139); (0x213C, 0x213F); (0x2145, 0x2149); (0x214E, 0x214E);
   (0x2160, 0x217F); (0x2183, 0x2184); (0x24B6, 0x24E9); (0x2C00, 0x2CE4);
   (0x2CEB, 0x2CEE); (0x2CF2, 0x2CF3); (0x2D00, 0x2D25); (0x2D27, 0x2D27);
   (0x2D2D, 0x2D2D); (0xA640, 0xA66D); (0xA680, 0xA69D); (0xA722, 0xA787);
   (0xA78B, 0xA78E); (0xA790, 0xA7CA); (0xA7D0, 0xA7D1); (0xA7D3, 0xA7D3);
   (0xA7D5, 0xA7D9); (0xA7F5, 0xA7F6); (0xA7F8, 0xA7FA); (0xAB30, 0xAB5A);
   (0xAB5C, 0xAB68); (0xAB70, 0xABBF); (0xFB00, 0xFB06); (0xFB13, 0xFB17);
   (0xFF21, 0xFF3A); (0xFF41, 0xFF5A); (0x10400, 0x1044F); (0x104B0, 0x104D3);
   (0x104D8, 0x104FB); (0x10570, 0x1057A); (0x1057C, 0x1058A);
   (0x1058C, 0x10592); (0x10594, 0x10595); (0x10597, 0x105A1);
   (0x105A3, 0x105B1); (0x105B3, 0x105B9); (0x105BB, 0x105BC);
   (0x10780, 0x10780); (0x10783, 0x10785); (0x10787, 0x107B0);
   (0x107B2, 0x107BA); (0x10C80, 0x10CB2); (0x10CC0, 0x10CF2);
   (0x118A0, 0x118DF); (0x16E40, 0x16E7F); (0x1D400, 0x1D454);
   (0x1D456, 0x1D49C); (0x1D49E, 0x1D49F); (0x1D4A2, 0x1D4A2);
   (0x1D4A5, 0x1D4A6); (0x1D4A9, 0x1D4AC); (0x1D4AE, 0x1D4B9);
   (0x1D4BB, 0x1D4BB); (0x1D4BD, 0x1D4C3); (0x1D4C5, 0x1D505);
   (0x1D507, 0x1D50A); (0x1D50D, 0x1D514); (0x1D516, 0x1D51C);
   (0x1D51E, 0x1D539); (0x1D53B, 0x1D53E); (0x1D540, 0x1D544);
   (0x1D546, 0x1D546); (0x1D54A, 0x1D550); (0x1D552, 0x1D6A5);
   (0x1D6A8, 0x1D6C0); (0x1D6C2, 0x1D6DA); (0x1D6DC, 0x1D6FA);
   (0x1D6FC, 0x1D714); (0x1D716, 0x1D734); (0x1D736, 0x1D74E);
   (0x1D750, 0x1D76E); (0x1D770, 0x1D788); (0x1D78A, 0x1D7A8);
   (0x1D7AA, 0x1D7C2); (0x1D7C4, 0x1D7CB); (0x1DF00, 0x1DF09);
   (0x1DF0B, 0x1DF1E); (0x1E900, 0x1E943); (0x1F130, 0x1F149);
   (0x1F150, 0x1F169); (0x1F170, 0x1F189)].

(** The code points with the property Case_Ignorable. *)
Definition case_ignorable : list (N * N) :=
  [(0x27, 0x27); (0x2E, 0x2E); (0x3A, 0x3A); (0x5E, 0x5E); (0x60, 0x60);
   (0xA8, 0xA8); (0xAD, 0xAD); (0xAF, 0xAF); (0xB4, 0xB4); (0xB7, 0xB8);
   (0x2B0, 0x36F); (0x374, 0x375); (0x37A, 0x37A); (0x384, 0x385);
   (0x387, 0x387); (0x483, 0x489); (0x559, 0x559); (0x55F, 0x55F);
   (0x591, 0x5BD); (0x5BF, 0x5BF); (0x5C1, 0x5C2); (0x5C4, 0x5C5);
   (0x5C7, 0x5C7); (0x5F4, 0x5F4); (0x600, 0x605); (0x610, 0x61A);
   (0x61C, 0x61C); (0x640, 0x640); (0x64B, 0x65F); (0x670, 0x670);
   (0x6D6, 0x6DD); (0x6DF, 0x6E8); (0x6EA, 0x6ED); (0x70F, 0x70F);
   (0x711, 0x711); (0x730, 0x74A); (0x7A6, 0x7B0); (0x7EB, 0x7F5);
   (0x7FA, 0x7FA); (0x7FD, 0x7FD); (0x816, 0x82D); (0x859, 0x85B);
   (0x888, 0x888); (0x890, 0x891); (0x898, 0x89F); (0x8C9, 0x902);
   (0x93A, 0x93A); (0x93C, 0x93C); (0x941, 0x948); (0x94D, 0x94D);
   (0x951, 0x957); (0x962, 0x963); (0x971, 0x971); (0x981, 0x981);
   (0x9BC, 0x9BC); (0x9C1, 0x9C4); (0x9CD, 0x9CD); (0x9E2, 0x9E3);
   (0x9FE, 0x9FE); (0xA01, 0xA02); (0xA3C, 0xA3C); (0xA41, 0xA42);
   (0xA47, 0xA48); (0xA4B, 0xA4D); (0xA51, 0xA51); (0xA70, 0xA71);
   (0xA75, 0xA75); (0xA81, 0xA82); (0xABC, 0xABC); (0xAC1, 0xAC5);
   (0xAC7, 0xAC8); (0xACD, 0xACD); (0xAE2, 0xAE3); (0xAFA, 0xAFF);
   (0xB01, 0xB01); (0xB3C, 0xB3C); (0xB3F, 0xB3F); (0xB41, 0xB44);
   (0xB4D, 0xB4D); (0xB55, 0xB56); (0xB62, 0xB63); (0xB82, 0xB82);
   (0xBC0, 0xBC0); (0xBCD, 0xBCD); (0xC00, 0xC00); (0xC04, 0xC04);
   (0xC3C, 0xC3C); (0xC3E, 0xC40); (0xC46, 0xC48); (0xC4A, 0xC4D);
   (0xC55, 0xC56); (0xC62, 0xC63); (0xC81, 0xC81); (0xCBC, 0xCBC);
   (0xCBF, 0xCBF); (0xCC6, 0xCC6); (0xCCC, 0xCCD); (0xCE2, 0xCE3);
   (0xD00, 0xD01); (0xD3B, 0xD3C); (0xD41, 0xD44); (0xD4D, 0xD4D);
   (0xD62, 0xD63); (0xD81, 0xD81); (0xDCA, 0xDCA); (0xDD2, 0xDD4);
   (0xDD6, 0xDD6); (0xE31, 0xE31); (0xE34, 0xE3A); (0xE46, 0xE4E);
   (0xEB1, 0xEB1); (0xEB4, 0xEBC); (0xEC6, 0xEC6); (0xEC8, 0xECD);
   (0xF18, 0xF19); (0xF35, 0xF35); (0xF37, 0xF37); (0xF39, 0xF39);
   (0xF71, 0xF7E); (0xF80, 0xF84); (0xF86, 0xF87); (0xF8D, 0xF97);
   (0xF99, 0xFBC); (0xFC6, 0xFC6); (0x102D, 0x1030); (0x1032, 0x1037);
   (0x1039, 0x103A); (0x103D, 0x103E); (0x1058, 0x1059); (0x105E, 0x1060);
   (0x1071, 0x1074); (0x1082, 0x1082); (0x1085, 0x1086); (0x108D, 0x108D);
   (0x109D, 0x109D); (0x10FC, 0x10FC); (0x135D, 0x135F); (0x1712, 0x1714);
   (0x1732, 0x1733); (0x1752, 0x1753); (0x1772, 0x1773); (0x17B4, 0x17B5);
   (0x17B7, 0x17BD); (0x17C6, 0x17C6); (0x17C9, 0x17D3); (0x17D7, 0x17D7);
   (0x17DD, 0x17DD); (0x180B, 0x180F); (0x1843, 0x1843); (0x1885, 0x1886);
   (0x18A9, 0x18A9); (0x1920, 0x1922); (0x1927, 0x1928); (0x1932, 0x1932);
   (0x1939, 0x193B); (0x1A17, 0x1A18); (0x1A1B, 0x1A1B); (0x1A56, 0x1A56);
   (0x1A58, 0x1A5E); (0x1A60, 0x1A60); (0x1A62, 0x1A62); (0x1A65, 0x1A6C);
   (0x1A73, 0x1A7C); (0x1A7F, 0x1A7F); (0x1AA7, 0x1AA7); (0x1AB0, 0x1ACE);
   (0x1B00, 0x1B03); (0x1B34, 0x1B34); (0x1B36, 0x1B3A); (0x1B3C, 0x1B3C);
   (0x1B42, 0x1B42); (0x1B6B, 0x1B73); (0x1B80, 0x1B81); (0x1BA2, 0x1BA5);
   (0x1BA8, 0x1BA9); (0x1BAB, 0x1BAD); (0x1BE6, 0x1BE6); (0x1BE8, 0x1BE9);
   (0x1BED, 0x1BED); (0x1BEF, 0x1BF1); (0x1C2C, 0x1C33); (0x1C36, 0x1C37);
   (0x1C78, 0x1C7D); (0x1CD0, 0x1CD2); (0x1CD4, 0x1CE0); (0x1CE2, 0x1CE8);
   (0x1CED, 0x1CED); (0x1CF4, 0x1CF4); (0x1CF8, 0x1CF9); (0x1D2C, 0x1D6A);
   (0x1D78, 0x1D78); (0x1D9B, 0x1DFF); (0x1FBD, 0x1FBD); (0x1FBF, 0x1FC1);
   (0x1FCD, 0x1FCF); (0x1FDD, 0x1FDF); (0x1FED, 0x1FEF); (0x1FFD, 0x1FFE);
   (0x200B, 0x200F); (0x2018, 0x2019); (0x2024, 0x2024); (0x2027, 0x2027);
   (0x202A, 0x202E); (0x2060, 0x2064); (0x2066, 0x206F); (0x2071, 0x2071);
   (0x207F, 0x207F); (0x2090, 0x209C); (0x20D0, 0x20F0); (0x2C7C, 0x2C7D);
   (0x2CEF, 0x2CF1); (0x2D6F, 0x2D6F); (0x2D7F, 0x2D7F); (0x2DE0, 0x2DFF);
   (0x2E2F, 0x2E2F); (0x3005, 0x3005); (0x302A, 0x302D); (0x3031, 0x3035);
   (0x303B, 0x303B); (0x3099, 0x309E); (0x30FC, 0x30FE); (0xA015, 0xA015);
   (0xA4F8, 0xA4FD); (0xA60C, 0xA60C); (0xA66F, 0xA672); (0xA674, 0xA67D);
   (0xA67F, 0xA67F); (0xA69C, 0xA69F); (0xA6F0, 0xA6F1); (0xA700, 0xA721);
   (0xA770, 0xA770); (0xA788, 0xA78A); (0xA7F2, 0xA7F4); (0xA7F8, 0xA7F9);
   (0xA802, 0xA802); (0xA806, 0xA806); (0xA80B, 0xA80B); (0xA825, 0xA826);
   (0xA82C, 0xA82C); (0xA8C4, 0xA8C5); (0xA8E0, 0xA8F1); (0xA8FF, 0xA8FF);
   (0xA926, 0xA92D); (0xA947, 0xA951); (0xA980, 0xA982); (0xA9B3, 0xA9B3);
   (0xA9B6, 0xA9B9); (0xA9BC, 0xA9BD); (0xA9CF, 0xA9CF); (0xA9E5, 0xA9E6);
   (0xAA29, 0xAA2E); (0xAA31, 0xAA32); (0xAA35, 0xAA36); (0xAA43, 0xAA43);
   (0xAA4C, 0xAA4C); (0xAA70, 0xAA70); (0xAA7C, 0xAA7C); (0xAAB0, 0xAAB0);
   (0xAAB2, 0xAAB4); (0xAAB7, 0xAAB8); (0xAABE, 0xAABF); (0xAAC1, 0xAAC1);
   (0xAADD, 0xAADD); (0xAAEC, 0xAAED); (0xAAF3, 0xAAF4); (0xAAF6, 0xAAF6);
   (0xAB5B, 0xAB5F); (0xAB69, 0xAB6B); (0xABE5, 0xABE5); (0xABE8, 0xABE8);
   (0xABED, 0xABED); (0xFB1E, 0xFB1E); (0xFBB2, 0xFBC2); (0xFE00, 0xFE0F);
   (0xFE13, 0xFE13); (0xFE20, 0xFE2F); (0xFE52, 0xFE52); (0xFE55, 0xFE55);
   (0xFEFF, 0xFEFF); (0xFF07, 0xFF07); (0xFF0E, 0xFF0E); (0xFF1A, 0xFF1A);
   (0xFF3E, 0xFF3E); (0xFF40, 0xFF40); (0xFF70, 0xFF70); (0xFF9E, 0xFF9F);
   (0xFFE3, 0xFFE3); (0xFFF9, 0xFFFB); (0x101FD, 0x101FD); (0x102E0, 0x102E0);
   (0x10376, 0x1037A); (0x10780, 0x10785); (0x10787, 0x107B0);
   (0x107B2, 0x107BA); (0x10A01, 0x10A03); (0x10A05, 0x10A06);
   (0x10A0C, 0x10A0F); (0x10A38, 0x10A3A); (0x10A3F, 0x10A3F);
   (0x10AE5, 0x10AE6); (0x10D24, 0x10D27); (0x10EAB, 0x10EAC);
   (0x10F46, 0x10F50); (0x10F82, 0x10F85); (0x11001, 0x11001);
   (0x11038, 0x11046); (0x11070, 0x11070); (0x11073, 0x11074);
   (0x1107F, 0x11081); (0x110B3, 0x110B6); (0x110B9, 0x110BA);
   (0x110BD, 0x110BD); (0x110C2, 0x110C2); (0x110CD, 0x110CD);
   (0x11100, 0x11102); (0x11127, 0x1112B); (0x1112D, 0x11134);
   (0x11173, 0x11173); (0x11180, 0x11181); (0x111B6, 0x111BE);
   (0x111C9, 0x111CC); (0x111CF, 0x111CF); (0x1122F, 0x11231);
   (0x11234, 0x11234); (0x11236, 0x11237); (0x1123E, 0x1123E);
   (0x112DF, 0x112DF); (0x112E3, 0x112EA); (0x11300, 0x11301);
   (0x1133B, 0x1133C); (0x11340, 0x11340); (0x11366, 0x1136C);
   (0x11370, 0x11374); (0x11438, 0x1143F); (0x11442, 0x11444);
   (0x11446, 0x11446); (0x1145E, 0x1145E); (0x114B3, 0x114B8);
   (0x114BA, 0x114BA); (0x114BF, 0x114C0); (0x114C2, 0x114C3);
   (0x115B2, 0x115B5); (0x115BC, 0x115BD); (0x115BF, 0x115C0);
   (0x115DC, 0x115DD); (0x11633, 0x1163A); (0x1163D, 0x1163D);
   (0x1163F, 0x11640); (0x116AB, 0x116AB); (0x116AD, 0x116AD);
   (0x116B0, 0x116B5); (0x116B7, 0x116B7); (0x1171D, 0x1171F);
   (0x11722, 0x11725); (0x11727, 0x1172B); (0x1182F, 0x11837);
   (0x11839, 0x1183A); (0x1193B, 0x1193C); (0x1193E, 0x1193E);
   (0x11943, 0x11943); (0x119D4, 0x119D7); (0x119DA, 0x119DB);
   (0x119E0, 0x119E0); (0x11A01, 0x11A0A); (0x11A33, 0x11A38);
   (0x11A3B, 0x11A3E); (0x11A47, 0x11A47); (0x11A51, 0x11A56);
   (0x11A59, 0x11A5B); (0x11A8A, 0x11A96); (0x11A98, 0x11A99);
   (0x11C30, 0x11C36); (0x11C38, 0x11C3D); (0x11C3F, 0x11C3F);
   (0x11C92, 0x11CA7); (0x11CAA, 0x11CB0); (0x11CB2, 0x11CB3);
   (0x11CB5, 0x11CB6); (0x11D31, 0x11D36); (0x11D3A, 0x11D3A);
   (0x11D3C, 0x11D3D); (0x11D3F, 0x11D45); (0x11D47, 0x11D47);
   (0x11D90, 0x11D91); (0x11D95, 0x11D95); (0x11D97, 0x11D97);
   (0x11EF3, 0x11EF4); (0x13430, 0x13438); (0x16AF0, 0x16AF4);
   (0x16B30, 0x16B36); (0x16B40, 0x16B43); (0x16F4F, 0x16F4F);
   (0x16F8F, 0x16F9F); (0x16FE0, 0x16FE1); (0x16FE3, 0x16FE4);
   (0x1AFF0, 0x1AFF3); (0x1AFF5, 0x1AFFB); (0x1AFFD, 0x1AFFE);
   (0x1BC9D, 0x1BC9E); (0x1BCA0, 0x1BCA3); (0x1CF00, 0x1CF2D);
   (0x1CF30, 0x1CF46); (0x1D167, 0x1D169); (0x1D173, 0x1D182);
   (0x1D185, 0x1D18B); (0x1D1AA, 0x1D1AD); (0x1D242, 0x1D244);
   (0x1DA00, 0x1DA36); (0x1DA3B, 0x1DA6C); (0x1DA75, 0x1DA75);
   (0x1DA84, 0x1DA84); (0x1DA9B, 0x1DA9F); (0x1DAA1, 0x1DAAF);
   (0x1E000, 0x1E006); (0x1E008, 0x1E018); (0x1E01B, 0x1E021);
   (0x1E023, 0x1E024); (0x1E026, 0x1E02A); (0x1E130, 0x1E13D);
   (0x1E2AE, 0x1E2AE); (0x1E2EC, 0x1E2EF); (0x1E8D0, 0x1E8D6);
   (0x1E944, 0x1E94B); (0x1F3FB, 0x1F3FF); (0xE0001, 0xE0001);
   (0xE0020, 0xE007F); (0xE0100, 0xE01EF)].

(** The code points whose lowercase is one other code point, in runs:
    [(first, last, step, lower)] stands for [first], [first + step], ... up
    to [last], and the lowercase of [first + i] is [lower + i]. *)
Definition lowercase : list (N * N * N * N) :=
  [(0x41, 0x5A, 1, 0x61); (0xC0, 0xD6, 1, 0xE0); (0xD8, 0xDE, 1, 0xF8);
   (0x100, 0x12E, 2, 0x101); (0x132, 0x136, 2, 0x133);
   (0x139, 0x147, 2, 0x13A); (0x14A, 0x176, 2, 0x14B);
   (0x178, 0x178, 1, 0xFF); (0x179, 0x17D, 2, 0x17A);
   (0x181, 0x181, 1, 0x253); (0x182, 0x184, 2, 0x183);
   (0x186, 0x186, 1, 0x254); (0x187, 0x187, 1, 0x188);
   (0x189, 0x18A, 1, 0x256); (0x18B, 0x18B, 1, 0x18C);
   (0x18E, 0x18E, 1, 0x1DD); (0x18F, 0x18F, 1, 0x259);
   (0x190, 0x190, 1, 0x25B); (0x191, 0x191, 1, 0x192);
   (0x193, 0x193, 1, 0x260); (0x194, 0x194, 1, 0x263);
   (0x196, 0x196, 1, 0x269); (0x197, 0x197, 1, 0x268);
   (0x198, 0x198, 1, 0x199); (0x19C, 0x19C, 1, 0x26F);
   (0x19D, 0x19D, 1, 0x272); (0x19F, 0x19F, 1, 0x275);
   (0x1A0, 0x1A4, 2, 0x1A1); (0x1A6, 0x1A6, 1, 0x280);
   (0x1A7, 0x1A7, 1, 0x1A8); (0x1A9, 0x1A9, 1, 0x283);
   (0x1AC, 0x1AC, 1, 0x1AD); (0x1AE, 0x1AE, 1, 0x288);
   (0x1AF, 0x1AF, 1, 0x1B0); (0x1B1, 0x1B2, 1, 0x28A);
   (0x1B3, 0x1B5, 2, 0x1B4); (0x1B7, 0x1B7, 1, 0x292);
   (0x1B8, 0x1B8, 1, 0x1B9); (0x1BC, 0x1BC, 1, 0x1BD);
   (0x1C4, 0x1C4, 1, 0x1C6); (0x1C5, 0x1C5, 1, 0x1C6);
   (0x1C7, 0x1C7, 1, 0x1C9); (0x1C8, 0x1C8, 1, 0x1C9);
   (0x1CA, 0x1CA, 1, 0x1CC); (0x1CB, 0x1DB, 2, 0x1CC);
   (0x1DE, 0x1EE, 2, 0x1DF); (0x1F1, 0x1F1, 1, 0x1F3);
   (0x1F2, 0x1F4, 2, 0x1F3); (0x1F6, 0x1F6, 1, 0x195);
   (0x1F7, 0x1F7, 1, 0x1BF); (0x1F8, 0x21E, 2, 0x1F9);
   (0x220, 0x220, 1, 0x19E); (0x222, 0x232, 2, 0x223);
   (0x23A, 0x23A, 1, 0x2C65); (0x23B, 0x23B, 1, 0x23C);
   (0x23D, 0x23D, 1, 0x19A); (0x23E, 0x23E, 1, 0x2C66);
   (0x241, 0x241, 1, 0x242); (0x243, 0x243, 1, 0x180);
   (0x244, 0x244, 1, 0x289); (0x245, 0x245, 1, 0x28C);
   (0x246, 0x24E, 2, 0x247); (0x370, 0x372, 2, 0x371);
   (0x376, 0x376, 1, 0x377); (0x37F, 0x37F, 1, 0x3F3);
   (0x386, 0x386, 1, 0x3AC); (0x388, 0x38A, 1, 0x3AD);
   (0x38C, 0x38C, 1, 0x3CC); (0x38E, 0x38F, 1, 0x3CD);
   (0x391, 0x3A1, 1, 0x3B1); (0x3A3, 0x3AB, 1, 0x3C3);
   (0x3CF, 0x3CF, 1, 0x3D7); (0x3D8, 0x3EE, 2, 0x3D9);
   (0x3F4, 0x3F4, 1, 0x3B8); (0x3F7, 0x3F7, 1, 0x3F8);
   (0x3F9, 0x3F9, 1, 0x3F2); (0x3FA, 0x3FA, 1, 0x3FB);
   (0x3FD, 0x3FF, 1, 0x37B); (0x400, 0x40F, 1, 0x450);
   (0x410, 0x42F, 1, 0x430); (0x460, 0x480, 2, 0x461);
   (0x48A, 0x4BE, 2, 0x48B); (0x4C0, 0x4C0, 1, 0x4CF);
   (0x4C1, 0x4CD, 2, 0x4C2); (0x4D0, 0x52E, 2, 0x4D1);
   (0x531, 0x556, 1, 0x561); (0x10A0, 0x10C5, 1, 0x2D00);
   (0x10C7, 0x10C7, 1, 0x2D27); (0x10CD, 0x10CD, 1, 0x2D2D);
   (0x13A0, 0x13EF, 1, 0xAB70); (0x13F0, 0x13F5, 1, 0x13F8);
   (0x1C90, 0x1CBA, 1, 0x10D0); (0x1CBD, 0x1CBF, 1, 0x10FD);
   (0x1E00, 0x1E94, 2, 0x1E01); (0x1E9E, 0x1E9E, 1, 0xDF);
   (0x1EA0, 0x1EFE, 2, 0x1EA1); (0x1F08, 0x1F0F, 1, 0x1F00);
   (0x1F18, 0x1F1D, 1, 0x1F10); (0x1F28, 0x1F2F, 1, 0x1F20);
   (0x1F38, 0x1F3F, 1, 0x1F30); (0x1F48, 0x1F4D, 1, 0x1F40);
   (0x1F59, 0x1F5F, 2, 0x1F51); (0x1F68, 0x1F6F, 1, 0x1F60);
   (0x1F88, 0x1F8F, 1, 0x1F80); (0x1F98, 0x1F9F, 1, 0x1F90);
   (0x1FA8, 0x1FAF, 1, 0x1FA0); (0x1FB8, 0x1FB9, 1, 0x1FB0);
   (0x1FBA, 0x1FBB, 1, 0x1F70); (0x1FBC, 0x1FBC, 1, 0x1FB3);
   (0x1FC8, 0x1FCB, 1, 0x1F72); (0x1FCC, 0x1FCC, 1, 0x1FC3);
   (0x1FD8, 0x1FD9, 1, 0x1FD0); (0x1FDA, 0x1FDB, 1, 0x1F76);
   (0x1FE8, 0x1FE9, 1, 0x1FE0); (0x1FEA, 0x1FEB, 1, 0x1F7A);
   (0x1FEC, 0x1FEC, 1, 0x1FE5); (0x1FF8, 0x1FF9, 1, 0x1F78);
   (0x1FFA, 0x1FFB, 1, 0x1F7C); (0x1FFC, 0x1FFC, 1, 0x1FF3);
   (0x2126, 0x2126, 1, 0x3C9); (0x212A, 0x212A, 1, 0x6B);
   (0x212B, 0x212B, 1, 0xE5); (0x2132, 0x2132, 1, 0x214E);
   (0x2160, 0x216F, 1, 0x2170); (0x2183, 0x2183, 1, 0x2184);
   (0x24B6, 0x24CF, 1, 0x24D0); (0x2C00, 0x2C2F, 1, 0x2C30);
   (0x2C60, 0x2C60, 1, 0x2C61); (0x2C62, 0x2C62, 1, 0x26B);
   (0x2C63, 0x2C63, 1, 0x1D7D); (0x2C64, 0x2C64, 1, 0x27D);
   (0x2C67, 0x2C6B, 2, 0x2C68); (0x2C6D, 0x2C6D, 1, 0x251);
   (0x2C6E, 0x2C6E, 1, 0x271); (0x2C6F, 0x2C6F, 1, 0x250);
   (0x2C70, 0x2C70, 1, 0x252); (0x2C72, 0x2C72, 1, 0x2C73);
   (0x2C75, 0x2C75, 1, 0x2C76); (0x2C7E, 0x2C7F, 1, 0x23F);
   (0x2C80, 0x2CE2, 2, 0x2C81); (0x2CEB, 0x2CED, 2, 0x2CEC);
   (0x2CF2, 0x2CF2, 1, 0x2CF3); (0xA640, 0xA66C, 2, 0xA641);
   (0xA680, 0xA69A, 2, 0xA681); (0xA722, 0xA72E, 2, 0xA723);
   (0xA732, 0xA76E, 2, 0xA733); (0xA779, 0xA77B, 2, 0xA77A);
   (0xA77D, 0xA77D, 1, 0x1D79); (0xA77E, 0xA786, 2, 0xA77F);
   (0xA78B, 0xA78B, 1, 0xA78C); (0xA78D, 0xA78D, 1, 0x265);
   (0xA790, 0xA792, 2, 0xA791); (0xA796, 0xA7A8, 2, 0xA797);
   (0xA7AA, 0xA7AA, 1, 0x266); (0xA7AB, 0xA7AB, 1, 0x25C);
   (0xA7AC, 0xA7AC, 1, 0x261); (0xA7AD, 0xA7AD, 1, 0x26C);
   (0xA7AE, 0xA7AE, 1, 0x26A); (0xA7B0, 0xA7B0, 1, 0x29E);
   (0xA7B1, 0xA7B1, 1, 0x287); (0xA7B2, 0xA7B2, 1, 0x29D);
   (0xA7B3, 0xA7B3, 1, 0xAB53); (0xA7B4, 0xA7C2, 2, 0xA7B5);
   (0xA7C4, 0xA7C4, 1, 0xA794); (0xA7C5, 0xA7C5, 1, 0x282);
   (0xA7C6, 0xA7C6, 1, 0x1D8E); (0xA7C7, 0xA7C9, 2, 0xA7C8);
   (0xA7D0, 0xA7D0, 1, 0xA7D1); (0xA7D6, 0xA7D8, 2, 0xA7D7);
   (0xA7F5, 0xA7F5, 1, 0xA7F6); (0xFF21, 0xFF3A, 1, 0xFF41);
   (0x10400, 0x10427, 1, 0x10428); (0x104B0, 0x104D3, 1, 0x104D8);
   (0x10570, 0x10594, 2, 0x10597); (0x10571, 0x10579, 2, 0x10598);
   (0x1057D, 0x10589, 2, 0x105A4); (0x1058D, 0x10591, 2, 0x105B4);
   (0x10595, 0x10595, 1, 0x105BC); (0x10C80, 0x10CB2, 1, 0x10CC0);
   (0x118A0, 0x118BF, 1, 0x118C0); (0x16E40, 0x16E5F, 1, 0x16E60);
   (0x1E900, 0x1E921, 1, 0x1E922)].

Definition Py_UNICODE_ISSPACE (c : N) : bool := in_ranges c whitespace.

Definition _PyUnicode_IsCased (c : N) : bool := in_ranges c cased.

Definition _PyUnicode_IsCaseIgnorable (c : N) : bool := in_ranges c case_ignorable.

Fixpoint lowercase_in (runs : list (N * N * N * N)) (c : N) : option N :=
  match runs with
  | [] => None
  | (first, last, step, lower) :: rest =>
      if (first <=? c) && (c <=? last) && ((c - first) mod step =? 0)
      then Some (lower + (c - first))
      else lowercase_in rest c
  end.

(** The full lowercase mapping of one code point: U+0130 has the only
    one of two code points. *)
Definition _PyUnicode_ToLowerFull (c : N) : list N :=
  if c =? 0x130 then [0x69; 0x307]
  else match lowercase_in lowercase c with
       | Some l => [l]
       | None => [c]
       end.

(** A loop of [handle_capital_sigma]: what is left of [s] at its first
    code point that is not case-ignorable. *)
Fixpoint skip_case_ignorable (s : list N) : list N :=
  match s with
  | [] => []
  | c :: rest => if _PyUnicode_IsCaseIgnorable c then skip_case_ignorable rest else s
  end.

(** The lowercase of a capital sigma: the final form U+03C2 when a cased
    letter comes before it and none after it, case-ignorable code points
    skipped, else U+03C3. [before] holds the code points before the sigma,
    the nearest first, and [after] those after it. *)
Definition handle_capital_sigma (before after : list N) : N :=
  let final_sigma :=
    match skip_case_ignorable before with
    | c :: _ => _PyUnicode_IsCased c
    | [] => false
    end in
  let final_sigma :=
    if final_sigma then
      match skip_case_ignorable after with
      | c :: _ => negb (_PyUnicode_IsCased c)
      | [] => true
      end
    else false in
  if final_sigma then 0x3C2 else 0x3C3.

Definition lower_ucs4 (before : list N) (c : N) (after : list N) : list N :=
  if c =? 0x3A3 then [handle_capital_sigma before after]
  else _PyUnicode_ToLowerFull c.

Fixpoint do_lower (before s : list N) : list N :=
  match s with
  | [] => []
  | c :: after => lower_ucs4 before c after ++ do_lower (c :: before) after
  end.

(** [s.lower()] *)
Definition lower (s : str) : str := do_lower [] s.

(** [s.lstrip()] *)
Fixpoint lstrip (s : str) : str :=
  match s with
  | [] => []
  | c :: r => if Py_UNICODE_ISSPACE c then lstrip r else s
  end.

(** [s.rstrip()] *)
Fixpoint rstrip (s : str) : str :=
  match s with
  | [] => []
  | c :: r =>
      match rstrip r with
      | [] => if Py_UNICODE_ISSPACE c then [] else [c]
      | r' => c :: r'
      end
  end.

(** [s.strip()] *)
Definition strip (s : str) : str := rstrip (lstrip s).

(** [CorrelationEngine._normalize_key] on any string:
    [value.lower().strip()] *)
Definition _normalize_key (value : str) : str := strip (lower value).

(** Every code point of [s] is whitespace ([s] may be empty). *)
Definition all_space (s : str) : bool := forallb Py_UNICODE_ISSPACE s.

End UStr.

(** The code points of a Latin-1 string. *)
Definition codes (s : string) : UStr.str :=
  N_of_ascii <$> list_ascii_of_string s.

(** ** Floats: Python's [min], [max] and [int * float] *)

(** [max(a, b)]: [b] when [b > a], else [a]. *)
Definition py_max (a b : float) : float := if (a <? b)%float then b else a.

(** [min(a, b)]: [b] when [b < a], else [a]. *)
Definition py_min (a b : float) : float := if (b <? a)%float then b else a.

(** [float(n)] for a length [n], correctly rounded (exact below 2^53;
    lengths stay below 2^63). *)
Definition float_of_len (n : nat) : float :=
  PrimFloat.of_uint63 (Uint63.of_Z (Z.of_nat n)).

(** ** Insertion-ordered dictionaries with string keys *)

Module Dict.
Section Dict.
Context {V : Type}.

(** [d.get(k)] *)
Fixpoint get (k : string) (d : list (string * V)) : option V :=
  match d with
  | [] => None
  | (k', v) :: r => if decide (k = k') then Some v else get k r
  end.

(** [d[k] = v]: in place when [k] is a key, at the end otherwise. *)
Fixpoint set (k : string) (v : V) (d : list (string * V)) : list (string * V) :=
  match d with
  | [] => [(k, v)]
  | (k', v') :: r => if decide (k = k') then (k, v) :: r else (k', v') :: set k v r
  end.

(** [d.keys()], in insertion order *)
Definition keys (d : list (string * V)) : list string := map fst d.

(** [k in d] *)
Definition mem (k : string) (d : list (string * V)) : bool :=
  match get k d with Some _ => true | None => false end.

(** [d[k]] on a [defaultdict]: a missing key is first bound to the
    default value. *)
Definition getitem (dflt : V) (k : string) (d : list (string * V))
  : V * list (string * V) :=
  match get k d with
  | Some v => (v, d)
  | None => (dflt, set k dflt d)
  end.
End Dict.
End Dict.

(** ** Data *)

(** An entity dictionary as the extractor produces it. A field is [None]
    when the dictionary has no such key. *)
Record Observation := {
  obs_type : option string;
  obs_value : option string;
  obs_start : option Z;
  obs_end : option Z;
  obs_source : option string;
  obs_method : option string;
  obs_importance_score : option float
}.

(** A value of [correlation_map] made by the [defaultdict] factory:
    ['type'], ['sources'], ['linked_entities'], ['importance'] (the always
    empty ['metadata'] is left out), and the keys added later,
    ['occurrences'] and ['final_score'], [None] while absent. *)
Record EntityRecord := {
  type : option string;
  sources : gset string;
  linked_entities : gset string;
  importance : float;
  occurrences : option (list Observation);
  final_score : option float
}.

(** The value [add_raw_data] stores under ['raw_data']: ['type'] is
    ['metadata'], with ['sources'] and ['data']. *)
Record CorpusRecord := {
  corpus_sources : gset string;
  data : list (string * string)
}.

Inductive Entry :=
| Entity (r : EntityRecord)
| Corpus (c : CorpusRecord).

(** An element of [relationships]. ['sources'] lists the common sources in
    the iteration order of a Python set, which is not specified: the model
    keeps the set. *)
Record Relationship := {
  entity1 : string;
  entity2 : string;
  relationship : string;
  rel_sources : gset string;
  strength : nat
}.

Record Engine := {
  correlation_map : list (string * Entry);
  relationships : list Relationship
}.

(** The dictionary [correlate] returns. Its ['relationships'] entry is the
    engine's own list object: [res_relationships] is what that list holds
    when [correlate] returns, and [seen_from] is the same result read at a
    later state of the engine. *)
Record CorrelationResult := {
  total_entities : nat;
  linked_count : nat;
  high_value_count : nat;
  ctf_flags : list string;
  api_keys : list string;
  credentials : list string;
  res_relationships : list Relationship;
  high_value_entities : list string
}.

Definition seen_from (e : Engine) (res : CorrelationResult) : CorrelationResult :=
  {| total_entities := total_entities res;
     linked_count := linked_count res;
     high_value_count := high_value_count res;
     ctf_flags := ctf_flags res;
     api_keys := api_keys res;
     credentials := credentials res;
     res_relationships := relationships e;
     high_value_entities := high_value_entities res |}.

(** ** Methods as state transformers that may raise *)

Inductive exn := KeyError (key : string).

Inductive outcome (A : Type) :=
| Ret (a : A)
| Raise (x : exn).
Arguments Ret {A} a.
Arguments Raise {A} x.

(** A method body: the state it leaves is kept when it raises, as Python
    keeps the mutations made before an exception. *)
Definition M (A : Type) : Type := Engine -> outcome A * Engine.

Definition ret {A} (a : A) : M A := fun e => (Ret a, e).
Definition raise {A} (x : exn) : M A := fun e => (Raise x, e).
Definition bind {A B} (c : M A) (k : A -> M B) : M B :=
  fun e => match c e with
           | (Ret a, e') => k a e'
           | (Raise x, e') => (Raise x, e')
           end.

Declare Scope py_scope.
Delimit Scope py_scope with py.
Notation "x <- c ;; k" := (bind c (fun x => k))
  (at level 100, c at next level, right associativity) : py_scope.
Notation "c ;; k" := (bind c (fun _ => k))
  (at level 100, right associativity) : py_scope.

(** [for x in l: body(x)] *)
Fixpoint for_each {B} (l : list B) (body : B -> M unit) : M unit :=
  match l with
  | [] => ret tt
  | x :: r => (body x ;; for_each r body)%py
  end.

(** The [defaultdict] factory of [__init__]. *)
Definition default_record : EntityRecord :=
  {| type := None; sources := ∅; linked_entities := ∅;
     importance := 0%float; occurrences := None; final_score := None |}.

(** [CorrelationEngine()] *)
Definition init : Engine := {| correlation_map := []; relationships := [] |}.

(** [self.correlation_map[k]] *)
Definition getitem (k : string) : M Entry :=
  fun e => let '(v, m) := Dict.getitem (Entity default_record) k (correlation_map e) in
           (Ret v, {| correlation_map := m; relationships := relationships e |}).

(** [self.correlation_map[k] = v], also the write-back of a value mutated
    in place. *)
Definition setitem (k : string) (v : Entry) : M unit :=
  fun e => (Ret tt, {| correlation_map := Dict.set k v (correlation_map e);
                       relationships := relationships e |}).

(** [self.correlation_map[k][field]] read and updated in place, for a
    field only the entity records have. *)
Definition update_entity (k : string) (field : string)
    (f : EntityRecord -> EntityRecord) : M unit :=
  (d <- getitem k ;;
   match d with
   | Entity r => setitem k (Entity (f r))
   | Corpus _ => raise (KeyError field)
   end)%py.

(** [d['type']] and [d['sources']], which both kinds of value have. *)
Definition entry_type (d : Entry) : option string :=
  match d with Entity r => type r | Corpus _ => Some "metadata" end.

Definition entry_sources (d : Entry) : gset string :=
  match d with Entity r => sources r | Corpus c => corpus_sources c end.

(** [d.get('final_score', 0)] *)
Definition entry_final_score (d : Entry) : float :=
  match d with
  | Entity r => default 0%float (final_score r)
  | Corpus _ => 0%float
  end.

(** ** [AIParser.score_entity_importance] and [AIParser.filter_noise] *)

(** [needle in hay] on strings *)
Fixpoint contains (needle hay : string) : bool :=
  if String.prefix needle hay then true
  else match hay with
       | EmptyString => false
       | String _ r => contains needle r
       end.

Definition score_entity_importance (entity : Observation) : float :=
  let entity_type := default "" (obs_type entity) in
  if bool_decide (entity_type ∈ ["CTF_FLAG"; "API_KEY"; "CREDENTIAL"]) then 1.0%float
  else if bool_decide (entity_type ∈ ["IP_ADDRESS"; "URL"; "FILE_PATH"; "EMAIL"]) then 0.8%float
  else if bool_decide (entity_type ∈ ["PERSON"; "ORG"; "GPE"]) then 0.6%float
  else if contains "HASH" entity_type then 0.75%float
  else 0.5%float.

Definition with_importance_score (score : float) (entity : Observation) : Observation :=
  {| obs_type := obs_type entity; obs_value := obs_value entity;
     obs_start := obs_start entity; obs_end := obs_end entity;
     obs_source := obs_source entity; obs_method := obs_method entity;
     obs_importance_score := Some score |}.

(** Every entity gets its ['importance_score']; those below [min_score]
    are dropped. *)
Fixpoint filter_noise (entities : list Observation) (min_score : float)
  : list Observation :=
  match entities with
  | [] => []
  | entity :: rest =>
      let score := score_entity_importance entity in
      let entity := with_importance_score score entity in
      if (min_score <=? score)%float
      then entity :: filter_noise rest min_score
      else filter_noise rest min_score
  end.

(** ** [AIParser.extract_entities] *)

(** A stretch of the text reported by spaCy: a named entity of [doc.ents]
    ([label_], [text], [start_char], [end_char]), or a match of
    [self.matcher(doc)] (the label of its [match_id] and the span
    [doc[start:end]]). *)
Record Span := {
  label_ : string;
  span_text : string;
  start_char : Z;
  end_char : Z
}.

(** A match of [re.finditer]: [group(0)], [start()] and [end()]. *)
Record Match := {
  group0 : string;
  match_start : Z;
  match_end : Z
}.

(** The libraries the parser calls. They are not modelled: the parser is a
    function of what they answer. [finditer] is given the name of the
    pattern in the table of [_extract_regex_entities] and the text, and
    stands for [re.finditer(patterns[name], text, re.IGNORECASE)]. *)
Record Libraries := {
  doc_ents : string -> list Span;
  matcher : string -> list Span;
  finditer : string -> string -> list Match
}.

(** The keys of the [patterns] table, in its order. *)
Definition patterns : list string :=
  ["EMAIL"; "IP_ADDRESS"; "URL"; "MD5_HASH"; "SHA1_HASH"; "SHA256_HASH";
   "SUBDOMAIN"; "PORT"].

Definition regex_entity (entity_type : string) (m : Match) : Observation :=
  {| obs_type := Some entity_type; obs_value := Some (group0 m);
     obs_start := Some (match_start m); obs_end := Some (match_end m);
     obs_source := None; obs_method := None; obs_importance_score := None |}.

Definition _extract_regex_entities (lib : Libraries) (text : string)
  : list Observation :=
  flat_map (fun entity_type => map (regex_entity entity_type)
                                   (finditer lib entity_type text))
           patterns.

(** The dictionary [extract_entities] makes of a span. *)
Definition span_entity (source method : string) (s : Span) : Observation :=
  {| obs_type := Some (label_ s); obs_value := Some (span_text s);
     obs_start := Some (start_char s); obs_end := Some (end_char s);
     obs_source := Some source; obs_method := Some method;
     obs_importance_score := None |}.

(** [ent['source'] = source; ent['method'] = method] *)
Definition with_source_method (source method : string) (ent : Observation)
  : Observation :=
  {| obs_type := obs_type ent; obs_value := obs_value ent;
     obs_start := obs_start ent; obs_end := obs_end ent;
     obs_source := Some source; obs_method := Some method;
     obs_importance_score := obs_importance_score ent |}.

(** [(ent['type'], ent['value'])]; both keys are present in every
    dictionary that [extract_entities] has built. *)
Definition ent_key (ent : Observation) : option string * option string :=
  (obs_type ent, obs_value ent).

(** One round of the loop that removes duplicates, on [seen] and
    [unique_entities]. *)
Definition keep_unseen
    (st : gset (option string * option string) * list Observation)
    (ent : Observation) : gset (option string * option string) * list Observation :=
  if decide (ent_key ent ∈ st.1) then st
  else (st.1 ∪ {[ent_key ent]}, (st.2 ++ [ent])%list).

Definition unique (entities : list Observation) : list Observation :=
  (fold_left keep_unseen entities (∅, [])).2.

Definition max_length : N := 1000000.

(** [text[:max_length]] when the text is longer than that. *)
Definition truncated (text : string) : string :=
  if (max_length <? N.of_nat (String.length text))%N
  then substring 0 (N.to_nat max_length) text
  else text.

(** The list [entities] before duplicates are removed. *)
Definition collected (lib : Libraries) (text source : string) : list Observation :=
  (map (span_entity source "spacy_ner") (doc_ents lib text)
   ++ map (span_entity source "pattern_match") (matcher lib text)
   ++ map (with_source_method source "regex") (_extract_regex_entities lib text))%list.

(** [extract_entities(text, source)]; the default of [source] is
    ['unknown']. *)
Definition extract_entities (lib : Libraries) (text source : string)
  : list Observation :=
  if bool_decide (text = "") || (String.length (Str.strip text) =? 0)%nat then []
  else unique (collected lib (truncated text) source).

(** ** [AIParser.extract_relationships] *)

(** One round of the grouping loop on [by_source]. *)
Definition group_step (by_source : list (string * list Observation))
    (ent : Observation) : list (string * list Observation) :=
  let source := default "unknown" (obs_source ent) in
  let by_source :=
    if Dict.mem source by_source then by_source else Dict.set source [] by_source in
  Dict.set source (default [] (Dict.get source by_source) ++ [ent])%list by_source.

Definition group_by_source (entities : list Observation)
  : list (string * list Observation) :=
  fold_left group_step entities [].

(** [abs(ent1.get('start', 0) - ent2.get('start', 0)) < 1000] *)
Definition close (ent1 ent2 : Observation) : bool :=
  (Z.abs (default 0 (obs_start ent1) - default 0 (obs_start ent2)) <? 1000)%Z.

(** The two inner loops on the entities of one source. *)
Fixpoint pairs_within (source_entities : list Observation)
  : list (Observation * Observation * string) :=
  match source_entities with
  | [] => []
  | ent1 :: rest =>
      (map (fun ent2 => (ent1, ent2, "co_occurrence"))
           (filter (fun ent2 => close ent1 ent2 = true) rest)
       ++ pairs_within rest)%list
  end.

Definition extract_relationships (entities : list Observation)
  : list (Observation * Observation * string) :=
  flat_map (fun p => pairs_within p.2) (group_by_source entities).

(** ** [CorrelationEngine.add_raw_data] *)

Definition has_key (k : string) : M bool :=
  fun e => (Ret (Dict.mem k (correlation_map e)), e).

Definition empty_corpus : CorpusRecord := {| corpus_sources := ∅; data := [] |}.

Definition store_content (source content : string) (c : CorpusRecord) : CorpusRecord :=
  {| corpus_sources := corpus_sources c;
     data := Dict.set source content (data c) |}.

Definition add_raw_item (item : string * string) : M unit :=
  let '(source, content) := item in
  (present <- has_key "raw_data" ;;
   (if present : bool then ret tt else setitem "raw_data" (Corpus empty_corpus)) ;;
   d <- getitem "raw_data" ;;
   match d with
   | Corpus c => setitem "raw_data" (Corpus (store_content source content c))
   | Entity _ => raise (KeyError "data")
   end)%py.

Definition add_raw_data (raw_data : list (string * string)) : M unit :=
  for_each raw_data add_raw_item.

(** ** [CorrelationEngine.add_parsed_entities] *)

(** [entity[field]] for a required field *)
Definition obs_item (field : string) (x : option string) : M string :=
  match x with
  | Some v => ret v
  | None => raise (KeyError field)
  end.

(** [if d['type'] is None: d['type'] = entity_type] *)
Definition claim_type (entity_type : string) (d : Entry) : Entry :=
  match d with
  | Entity r =>
      Entity {| type := match type r with None => Some entity_type | Some t => Some t end;
                sources := sources r; linked_entities := linked_entities r;
                importance := importance r; occurrences := occurrences r;
                final_score := final_score r |}
  | Corpus c => Corpus c
  end.

(** [d['sources'].add(source)] *)
Definition add_source (source : string) (d : Entry) : Entry :=
  match d with
  | Entity r =>
      Entity {| type := type r; sources := sources r ∪ {[source]};
                linked_entities := linked_entities r;
                importance := importance r; occurrences := occurrences r;
                final_score := final_score r |}
  | Corpus c =>
      Corpus {| corpus_sources := corpus_sources c ∪ {[source]}; data := data c |}
  end.

(** [d['importance'] = max(d['importance'], entity.get('importance_score', 0.5))],
    then [d['occurrences']] made if absent and [entity] appended to it. *)
Definition record_occurrence (entity : Observation) (r : EntityRecord) : EntityRecord :=
  {| type := type r; sources := sources r; linked_entities := linked_entities r;
     importance := py_max (importance r)
                          (default 0.5%float (obs_importance_score entity));
     occurrences := Some (default [] (occurrences r) ++ [entity])%list;
     final_score := final_score r |}.

(** The body of the inner loop, lines 74-90. *)
Definition add_entity (source : string) (entity : Observation) : M unit :=
  (value <- obs_item "value" (obs_value entity) ;;
   let entity_key := _normalize_key value in
   entity_type <- obs_item "type" (obs_type entity) ;;
   d <- getitem entity_key ;;
   setitem entity_key (claim_type entity_type d) ;;
   d <- getitem entity_key ;;
   setitem entity_key (add_source source d) ;;
   update_entity entity_key "importance" (record_occurrence entity))%py.

Definition add_parsed_entities (parsed_entities : list (string * list Observation))
  : M unit :=
  for_each parsed_entities (fun '(source, entities) =>
    for_each entities (add_entity source)).

(** ** [CorrelationEngine._find_entity_links] *)

(** [[k for k in self.correlation_map.keys() if k != 'raw_data']] *)
Definition entity_keys (m : list (string * Entry)) : list string :=
  filter (fun k => k ≠ "raw_data") (Dict.keys m).

(** [d['linked_entities'].add(k)] *)
Definition add_linked (k : string) (r : EntityRecord) : EntityRecord :=
  {| type := type r; sources := sources r;
     linked_entities := linked_entities r ∪ {[k]};
     importance := importance r; occurrences := occurrences r;
     final_score := final_score r |}.

Definition co_occurrence (k1 k2 : string) (common_sources : gset string) : Relationship :=
  {| entity1 := k1; entity2 := k2; relationship := "co_occurrence";
     rel_sources := common_sources; strength := size common_sources |}.

(** [self.relationships.append(rel)] *)
Definition append_relationship (rel : Relationship) : M unit :=
  fun e => (Ret tt, {| correlation_map := correlation_map e;
                       relationships := (relationships e ++ [rel])%list |}).

(** The body of the inner loop, lines 113-131. *)
Definition link_pair (k1 k2 : string) : M unit :=
  (d1 <- getitem k1 ;;
   d2 <- getitem k2 ;;
   let common_sources := entry_sources d1 ∩ entry_sources d2 in
   if decide (common_sources = ∅) then ret tt
   else
     (update_entity k1 "linked_entities" (add_linked k2) ;;
      update_entity k2 "linked_entities" (add_linked k1) ;;
      append_relationship (co_occurrence k1 k2 common_sources)))%py.

(** [for i, entity1 in enumerate(entities): for entity2 in entities[i+1:]: ...] *)
Fixpoint link_all (entities : list string) : M unit :=
  match entities with
  | [] => ret tt
  | k1 :: rest => (for_each rest (link_pair k1) ;; link_all rest)%py
  end.

Definition _find_entity_links : M unit :=
  fun e => link_all (entity_keys (correlation_map e)) e.

(** ** [CorrelationEngine._calculate_entity_scores] *)

Definition source_boost (r : EntityRecord) : float :=
  py_min (float_of_len (size (sources r)) * 0.1)%float 0.3%float.

Definition link_boost (r : EntityRecord) : float :=
  py_min (float_of_len (size (linked_entities r)) * 0.05)%float 0.2%float.

Definition score_of (r : EntityRecord) : float :=
  py_min (importance r + source_boost r + link_boost r)%float 1.0%float.

Definition set_final_score (r : EntityRecord) : EntityRecord :=
  {| type := type r; sources := sources r; linked_entities := linked_entities r;
     importance := importance r; occurrences := occurrences r;
     final_score := Some (score_of r) |}.

Definition _calculate_entity_scores : M unit :=
  fun e => for_each (Dict.keys (correlation_map e)) (fun entity_key =>
    if decide (entity_key = "raw_data") then ret tt
    else update_entity entity_key "importance" set_final_score) e.

(** ** [CorrelationEngine.correlate] *)

(** [self.correlation_map[k]] for a key [k] taken from the map itself. *)
Definition item (m : list (string * Entry)) (k : string) : Entry :=
  default (Entity default_record) (Dict.get k m).

(** [sum(1 for k in entities if len(self.correlation_map[k]['linked_entities']) > 0)] *)
Fixpoint count_linked (ks : list string) : M nat :=
  match ks with
  | [] => ret 0
  | k :: rest =>
      (d <- getitem k ;;
       match d with
       | Entity r =>
           n <- count_linked rest ;;
           ret ((if decide (0 < size (linked_entities r)) then 1 else 0) + n)
       | Corpus _ => raise (KeyError "linked_entities")
       end)%py
  end.

Definition compile_result : M CorrelationResult :=
  fun e =>
    let m := correlation_map e in
    let entities := entity_keys m in
    let high_value :=
      filter (fun k => (0.8 <=? entry_final_score (item m k))%float = true) entities in
    let of_type (t : string) :=
      filter (fun k => entry_type (item m k) = Some t) entities in
    let ctf_flags := of_type "CTF_FLAG" in
    let api_keys := of_type "API_KEY" in
    let credentials := of_type "CREDENTIAL" in
    (linked_count <- count_linked entities ;;
     fun e' =>
       (Ret {| total_entities := length entities;
               linked_count := linked_count;
               high_value_count := length high_value;
               ctf_flags := ctf_flags;
               api_keys := api_keys;
               credentials := credentials;
               res_relationships := relationships e';
               high_value_entities := high_value |}, e'))%py e.

Definition correlate : M CorrelationResult :=
  (_find_entity_links ;; _calculate_entity_scores ;; compile_result)%py.

(** ** [CorrelationEngine.get_entity_details] *)

Definition get_entity_details (entity_key : string) : M (option Entry) :=
  fun e => (Ret (Dict.get (_normalize_key entity_key) (correlation_map e)), e).

(** ** [ReportGenerator]: what the report shows

    Printing is not modelled: a method of the report generator is the
    function from its arguments to the rows it hands to the console. *)

(** [sorted(l, key=key, reverse=True)] for integer keys. Python's sort is
    stable, also when reversed: elements with equal keys keep their order.
    That determines the result, written here as an insertion sort. *)
Fixpoint insert_desc {A} (key : A -> nat) (x : A) (l : list A) : list A :=
  match l with
  | [] => [x]
  | y :: r => if (key x <? key y)%nat then y :: insert_desc key x r else x :: y :: r
  end.

Definition sorted_desc {A} (key : A -> nat) (l : list A) : list A :=
  foldr (insert_desc key) [] l.

(** A row of the relationships table: [entity1[:30]], [entity2[:30]],
    the relationship type and the strength. *)
Record RelationshipRow := {
  row_entity1 : string;
  row_entity2 : string;
  row_relationship : string;
  row_strength : nat
}.

Definition relationship_row (rel : Relationship) : RelationshipRow :=
  {| row_entity1 := substring 0 30 (entity1 rel);
     row_entity2 := substring 0 30 (entity2 rel);
     row_relationship := relationship rel;
     row_strength := strength rel |}.

(** What [_display_relationships] prints: the line saying that there is no
    relationship, or the number found and the table. *)
Inductive RelationshipsSection :=
| NoRelationshipsIdentified
| RelationshipsTable (found : nat) (rows : list RelationshipRow).

Definition _display_relationships (correlation : CorrelationResult)
  : RelationshipsSection :=
  match res_relationships correlation with
  | [] => NoRelationshipsIdentified
  | relationships =>
      let sorted_rels := take 10 (sorted_desc strength relationships) in
      RelationshipsTable (length relationships) (relationship_row <$> sorted_rels)
  end.

(** [key[:40] + "..." if len(key) > 40 else key] *)
Definition shown_key (key : string) : string :=
  if (40 <? String.length key)%nat then substring 0 40 key +:+ "..." else key.

(** [cred[:20] + "***" if len(cred) > 20 else cred] *)
Definition masked (cred : string) : string :=
  if (20 <? String.length cred)%nat then substring 0 20 cred +:+ "***" else cred.

(** What [_display_high_value_targets] prints: nothing when the three
    lists are empty, else the first column of the table of CTF flags, of
    the table of API keys and of the table of credentials (a table is
    printed only if it has a row). *)
Definition _display_high_value_targets (correlation : CorrelationResult)
  : option (list string * list string * list string) :=
  let flags := ctf_flags correlation in
  let keys := api_keys correlation in
  let creds := credentials correlation in
  match flags, keys, creds with
  | [], [], [] => None
  | _, _, _ => Some (flags, shown_key <$> keys, masked <$> creds)
  end.

(** The priority column of the entity breakdown. *)
Inductive Priority := CRITICAL | HIGH | MEDIUM.

Definition priority_of (entity_type : string) : Priority :=
  if bool_decide (entity_type ∈ ["CTF_FLAG"; "API_KEY"; "CREDENTIAL"]) then CRITICAL
  else if bool_decide (entity_type ∈ ["IP_ADDRESS"; "URL"; "EMAIL"; "FILE_PATH"]) then HIGH
  else MEDIUM.

(** [entity_counts[entity['type']] += 1] for each entity of each source, on
    a [defaultdict(int)]. *)
Fixpoint count_types (entities : list Observation)
    (entity_counts : list (string * nat)) : outcome (list (string * nat)) :=
  match entities with
  | [] => Ret entity_counts
  | entity :: rest =>
      match obs_type entity with
      | None => Raise (KeyError "type")
      | Some t =>
          count_types rest
            (Dict.set t (default 0 (Dict.get t entity_counts) + 1) entity_counts)
      end
  end.

(** What [_display_entity_breakdown] prints: nothing, or the rows of the
    table (type, count, priority). *)
Definition _display_entity_breakdown (entities : list (string * list Observation))
  : outcome (option (list (string * nat * Priority))) :=
  match count_types (concat (entities.*2)) [] with
  | Raise x => Raise x
  | Ret [] => Ret None
  | Ret entity_counts =>
      Ret (Some ((fun p => (p.1, p.2, priority_of p.1))
                   <$> sorted_desc snd entity_counts))
  end.

(** ** Histories of calls on one engine *)

Inductive call :=
| AddRawData (raw_data : list (string * string))
| AddParsedEntities (parsed_entities : list (string * list Observation))
| Correlate
| GetEntityDetails (entity_key : string).

(** The state a call leaves, whether it returns or raises. *)
Definition exec (c : call) (e : Engine) : Engine :=
  match c with
  | AddRawData raw_data => snd (add_raw_data raw_data e)
  | AddParsedEntities parsed_entities => snd (add_parsed_entities parsed_entities e)
  | Correlate => snd (correlate e)
  | GetEntityDetails entity_key => snd (get_entity_details entity_key e)
  end.

(** The engine after a history of calls on a fresh instance. *)
Definition run (history : list call) : Engine :=
  fold_left (fun e c => exec c e) history init.

(** An observation with just the two required fields, and one that also
    carries a score. *)
Definition obs (t v : string) : Observation :=
  {| obs_type := Some t; obs_value := Some v; obs_start := None; obs_end := None;
     obs_source := None; obs_method := None; obs_importance_score := None |}.

Definition obs_scored (t v : string) (score : float) : Observation :=
  with_importance_score score (obs t v).

(** Entity dictionaries that lack a required key. *)
Definition obs_without_value (t : string) : Observation :=
  {| obs_type := Some t; obs_value := None; obs_start := None; obs_end := None;
     obs_source := None; obs_method := None; obs_importance_score := None |}.

Definition obs_without_type (v : string) : Observation :=
  {| obs_type := None; obs_value := Some v; obs_start := None; obs_end := None;
     obs_source := None; obs_method := None; obs_importance_score := None |}.

(** ** [CollectionEngine]: running the tools

    The operating system and the network are not modelled: the collection
    engine is a function of what they answer. Progress callbacks and
    console messages are left out. *)

(** What [subprocess.run] does with a command and a timeout: it completes
    with the captured output, raises [TimeoutExpired], or raises another
    exception. *)
Inductive RunOutcome :=
| Completed (stdout stderr : option string) (returncode : Z)
| TimeoutExpired
| RunError.

(** What [requests.get] does with a URL and headers: a response with its
    status code, its text and [str(response.json())] ([None] when [json()]
    raises), or an exception with its message. *)
Inductive GetOutcome :=
| Response (status_code : Z) (text : string) (json : option string)
| RequestError (message : string).

Record World := {
  which : string -> option string;
  subprocess_run : list string -> Z -> RunOutcome;
  requests_get : string -> list (string * string) -> GetOutcome;
  path_exists : string -> bool
}.

Record CollectionEngine := { tool_paths : list (string * string) }.

Definition tools : list string :=
  ["amass"; "sublist3r"; "sherlock"; "exiftool"; "nmap"; "dig"; "whois"].

(** [path = shutil.which(tool)] and [if path: self.tool_paths[tool] = path]
    for each tool. *)
Definition _detect_tools (w : World) : list (string * string) :=
  fold_left (fun tool_paths tool =>
               match which w tool with
               | Some path =>
                   if bool_decide (path = "") then tool_paths
                   else Dict.set tool path tool_paths
               | None => tool_paths
               end)
            tools [].

(** [CollectionEngine()] *)
Definition new_collection_engine (w : World) : CollectionEngine :=
  {| tool_paths := _detect_tools w |}.

Definition newline : string := String (ascii_of_N 10) "".

(** [_run_command(command, timeout)]: the combined output, stripped; the
    empty string when the command times out or cannot be run. *)
Definition _run_command (w : World) (command : list string) (timeout : Z) : string :=
  match subprocess_run w command timeout with
  | Completed stdout stderr _ =>
      Str.strip (default "" stdout ++ newline ++ default "" stderr)
  | TimeoutExpired => ""
  | RunError => ""
  end.

Definition user_agent : list (string * string) := [("User-Agent", "CTF-Sentinel/1.0")].

Definition _fetch_web_content (w : World) (url : string) : string :=
  match requests_get w url user_agent with
  | Response _ text _ => substring 0 (N.to_nat 10000) text
  | RequestError message => "Error fetching " ++ url ++ ": " ++ message
  end.

(** The body shared by the three GitHub searches: the JSON of a 200
    response, else the empty string. *)
Definition github_search (w : World) (url : string) (headers : list (string * string))
  : string :=
  match requests_get w url headers with
  | Response status_code _ (Some json) => if (status_code =? 200)%Z then json else ""
  | Response _ _ None => ""
  | RequestError _ => ""
  end.

Definition _search_github_user (w : World) (username : string) : string :=
  github_search w ("https://api.github.com/users/" ++ username) user_agent.

Definition _search_github_email (w : World) (email : string) : string :=
  github_search w ("https://api.github.com/search/commits?q=author-email:" ++ email)
    (user_agent ++ [("Accept", "application/vnd.github.cloak-preview")])%list.

Definition _search_github_hash (w : World) (hash_value : string) : string :=
  github_search w ("https://api.github.com/search/code?q=" ++ hash_value) user_agent.

Definition _search_pastebin (query : string) : string :=
  "Pastebin search for '" ++ query ++ "' (requires API key configuration)".

(** ['tool' in self.tool_paths] *)
Definition has_tool (self : CollectionEngine) (tool : string) : bool :=
  Dict.mem tool (tool_paths self).

(** [results[key] = value] when [cond] holds. *)
Definition store_if (cond : bool) (key value : string) (results : list (string * string))
  : list (string * string) :=
  if cond then Dict.set key value results else results.

Definition collect_domain (w : World) (self : CollectionEngine) (domain : string)
  : list (string * string) :=
  let results := [] in
  let results :=
    if has_tool self "amass"
    then Dict.set "amass"
           (_run_command w ["amass"; "enum"; "-passive"; "-d"; domain] 300) results
    else store_if (has_tool self "sublist3r") "sublist3r"
           (_run_command w ["sublist3r"; "-d"; domain] 300) results in
  let results :=
    store_if (has_tool self "dig") "dig" (_run_command w ["dig"; domain; "ANY"] 300)
      results in
  let results :=
    store_if (has_tool self "whois") "whois" (_run_command w ["whois"; domain] 300)
      results in
  Dict.set "web_content" (_fetch_web_content w ("https://" ++ domain)) results.

Definition collect_ip (w : World) (self : CollectionEngine) (ip : string)
  : list (string * string) :=
  let results := [] in
  let results :=
    store_if (has_tool self "dig") "reverse_dns" (_run_command w ["dig"; "-x"; ip] 300)
      results in
  let results :=
    store_if (has_tool self "whois") "whois" (_run_command w ["whois"; ip] 300)
      results in
  store_if (has_tool self "nmap") "nmap" (_run_command w ["nmap"; "-sV"; "-F"; ip] 120)
    results.

Definition collect_alias (w : World) (self : CollectionEngine) (alias : string)
  : list (string * string) :=
  let results := [] in
  let results :=
    store_if (has_tool self "sherlock") "sherlock"
      (_run_command w ["sherlock"; alias] 180) results in
  let results := Dict.set "github" (_search_github_user w alias) results in
  Dict.set "pastebin" (_search_pastebin alias) results.

(** [s.split(sep)] for a separator of one character. *)
Fixpoint split (sep : ascii) (s : string) : list string :=
  match s with
  | EmptyString => [EmptyString]
  | String c r =>
      if decide (c = sep) then EmptyString :: split sep r
      else match split sep r with
           | [] => [String c EmptyString]
           | part :: parts => String c part :: parts
           end
  end.

(** [email.split('@')[1] if '@' in email else None] *)
Definition email_domain (email : string) : option string :=
  if contains "@" email then split "@"%char email !! 1 else None.

Definition collect_email (w : World) (self : CollectionEngine) (email : string)
  : list (string * string) :=
  let results := [] in
  let results :=
    match email_domain email with
    | Some domain =>
        if bool_decide (domain = "") then results
        else store_if (has_tool self "whois") "whois"
               (_run_command w ["whois"; domain] 300) results
    | None => results
    end in
  let results := Dict.set "github" (_search_github_email w email) results in
  Dict.set "pastebin" (_search_pastebin email) results.

Definition collect_hash (w : World) (self : CollectionEngine) (hash_value : string)
  : list (string * string) :=
  let results := [] in
  let results := Dict.set "github" (_search_github_hash w hash_value) results in
  Dict.set "pastebin" (_search_pastebin hash_value) results.

Definition collect_filename (w : World) (self : CollectionEngine) (filename : string)
  : list (string * string) :=
  let results := [] in
  if negb (path_exists w filename) then results
  else
    let results :=
      store_if (has_tool self "exiftool") "exiftool"
        (_run_command w ["exiftool"; filename] 300) results in
    match which w "file" with
    | Some path =>
        if bool_decide (path = "") then results
        else Dict.set "file_analysis" (_run_command w ["file"; filename] 300) results
    | None => results
    end.

(** The table of [collect]. *)
Definition collectors
  : list (string * (World -> CollectionEngine -> string -> list (string * string))) :=
  [("domain", collect_domain); ("ip", collect_ip); ("alias", collect_alias);
   ("email", collect_email); ("hash", collect_hash); ("filename", collect_filename)].

(** What [collect] does: it returns the collected texts or raises
    [ValueError] with a message. *)
Inductive CollectOutcome :=
| Collected (results : list (string * string))
| ValueError (message : string).

Definition collect (w : World) (self : CollectionEngine)
    (target_type target_value : string) : CollectOutcome :=
  match Dict.get target_type collectors with
  | None => ValueError ("Unsupported target type: " ++ target_type)
  | Some collector => Collected (collector w self target_value)
  end.


(** The status column of [ReportGenerator._display_sources]. *)
Inductive Status := SUCCESS | NO_DATA.

(** ["✓ SUCCESS" if size > 0 else "✗ NO DATA"] *)
Definition source_status (size : nat) : Status :=
  if (0 <? size)%nat then SUCCESS else NO_DATA.

(** The rows of [_display_sources]: for each source its size and its
    status (the name is printed in upper case). *)
Definition _display_sources (raw_data : list (string * string))
  : list (string * nat * Status) :=
  (fun p => let size := String.length p.2 in (p.1, size, source_status size))
    <$> raw_data.

(** ** [main]: from the collected texts to the correlation result

    Lines 160-199 of main.py, on the engine [main] has just created:
    [raw_data] is what the collection returned, [skip_ai] the flag
    [--skip-ai]. *)

(** [parsed_entities[source] = ai_parser.extract_entities(content, source)]
    for each item of [raw_data]. *)
Definition parse_all (lib : Libraries) (raw_data : list (string * string))
  : list (string * list Observation) :=
  fold_left (fun parsed_entities p =>
               Dict.set p.1 (extract_entities lib p.2 p.1) parsed_entities)
            raw_data [].

Definition analyse (lib : Libraries) (skip_ai : bool)
    (raw_data : list (string * string)) : M CorrelationResult :=
  let parsed_entities := if skip_ai then [] else parse_all lib raw_data in
  (add_raw_data raw_data ;;
   match parsed_entities with
   | [] => ret tt
   | _ => add_parsed_entities parsed_entities
   end ;;
   correlate)%py.

(** ** Vocabulary of the properties *)

Definition with_map (e : Engine) (m : list (string * Entry)) : Engine :=
  {| correlation_map := m; relationships := relationships e |}.

(** The record under an identity key, if the key holds one. *)
Definition record_at (e : Engine) (k : string) : option EntityRecord :=
  match Dict.get k (correlation_map e) with
  | Some (Entity r) => Some r
  | _ => None
  end.

(** [0 <= x], which also says that [x] is a number. *)
Definition nonneg (x : float) : Prop := (0 <=? x)%float = true.

(** The state invariant of the engine: keys are unique; only ['raw_data']
    may hold a corpus value; importances are non-negative numbers; and every
    recorded link joins two distinct identity keys that share a source, and
    is recorded at both ends. *)
Record wf (e : Engine) : Prop := {
  wf_nodup : NoDup (Dict.keys (correlation_map e));
  wf_entity : forall k d,
    k ≠ "raw_data" -> Dict.get k (correlation_map e) = Some d ->
    exists r, d = Entity r;
  wf_importance : forall k r, record_at e k = Some r -> nonneg (importance r);
  wf_links : forall a ra b,
    record_at e a = Some ra -> b ∈ linked_entities ra ->
    a ≠ "raw_data" /\ b ≠ "raw_data" /\ a ≠ b /\
    exists rb, record_at e b = Some rb /\ a ∈ linked_entities rb /\
               sources ra ∩ sources rb ≠ ∅
}.

(** An entity record after one more observation of type [t] from
    [source]: lines 78-90 on a record. *)
Definition ingest_record (source t : string) (entity : Observation)
    (r : EntityRecord) : EntityRecord :=
  {| type := match type r with None => Some t | Some t0 => Some t0 end;
     sources := sources r ∪ {[source]};
     linked_entities := linked_entities r;
     importance := py_max (importance r)
                          (default 0.5%float (obs_importance_score entity));
     occurrences := Some (default [] (occurrences r) ++ [entity])%list;
     final_score := final_score r |}.

(** What a write [m[k] = new] over the value [old] must satisfy to keep the
    invariant: an entity record keeps its links and does not lose sources;
    a corpus value is written only under ['raw_data'] and never over an
    entity record. *)
Definition entry_ext (k : string) (old : option Entry) (new : Entry) : Prop :=
  match new with
  | Entity r' =>
      nonneg (importance r') /\
      match old with
      | Some (Entity r) =>
          linked_entities r' = linked_entities r /\ sources r ⊆ sources r'
      | Some (Corpus _) => k = "raw_data" /\ linked_entities r' = ∅
      | None => linked_entities r' = ∅
      end
  | Corpus _ =>
      k = "raw_data" /\
      match old with Some (Entity r) => linked_entities r = ∅ | _ => True end
  end.

(** The sources and the links recorded under a key. *)
Definition srcs (e : Engine) (k : string) : gset string :=
  entry_sources (item (correlation_map e) k).

Definition links (e : Engine) (k : string) : gset string :=
  match record_at e k with
  | Some r => linked_entities r
  | None => ∅
  end.

(** A value with its links forgotten. *)
Definition unlinked (d : Entry) : Entry :=
  match d with
  | Entity r =>
      Entity {| type := type r; sources := sources r; linked_entities := ∅;
                importance := importance r; occurrences := occurrences r;
                final_score := final_score r |}
  | Corpus c => Corpus c
  end.

(** [e'] is [e] with more links and nothing else changed in the map. *)
Definition grows (e e' : Engine) : Prop :=
  Dict.keys (correlation_map e') = Dict.keys (correlation_map e) /\
  (forall k, unlinked <$> Dict.get k (correlation_map e')
             = unlinked <$> Dict.get k (correlation_map e)) /\
  (forall k, links e k ⊆ links e' k).

(** The relationship [_find_entity_links] appends for a pair of keys. *)
Definition pair_rel (e : Engine) (k1 k2 : string) : list Relationship :=
  if decide (srcs e k1 ∩ srcs e k2 = ∅) then []
  else [co_occurrence k1 k2 (srcs e k1 ∩ srcs e k2)].

(** The relationships one pass appends: for each key, in order, one for
    each later key it shares a source with. *)
Fixpoint pass_rels (e : Engine) (ks : list string) : list Relationship :=
  match ks with
  | [] => []
  | k1 :: rest => (flat_map (pair_rel e k1) rest ++ pass_rels e rest)%list
  end.

(** A value after [_calculate_entity_scores] has visited it. *)
Definition scored (d : Entry) : Entry :=
  match d with
  | Entity r => Entity (set_final_score r)
  | Corpus c => Corpus c
  end.

(** What [correlate] leaves and returns, from the state [e] it starts in:
    links between all pairs of identity keys that share a source, one new
    relationship for each such pair, a score under every identity key, and
    the counts and lists read off the resulting state [e']. *)
Record correlated (e : Engine) (res : CorrelationResult) (e' : Engine) : Prop := {
  cor_wf : wf e';
  cor_keys : Dict.keys (correlation_map e') = Dict.keys (correlation_map e);
  cor_srcs : forall k, srcs e' k = srcs e k;
  cor_mono : forall k, links e k ⊆ links e' k;
  cor_complete : forall a b,
    a ∈ entity_keys (correlation_map e) -> b ∈ entity_keys (correlation_map e) ->
    a ≠ b -> srcs e a ∩ srcs e b ≠ ∅ -> b ∈ links e' a;
  cor_scored : forall k,
    k ∈ entity_keys (correlation_map e) ->
    exists r, record_at e' k = Some r /\ final_score r = Some (score_of r);
  cor_fields : forall k r,
    record_at e k = Some r ->
    exists r', record_at e' k = Some r' /\ type r' = type r /\
               importance r' = importance r /\ sources r' = sources r /\
               occurrences r' = occurrences r;
  cor_raw_data :
    Dict.get "raw_data" (correlation_map e') = Dict.get "raw_data" (correlation_map e);
  cor_relationships :
    relationships e' = (relationships e ++ pass_rels e (entity_keys (correlation_map e)))%list;
  cor_res_relationships : res_relationships res = relationships e';
  cor_total : total_entities res = length (entity_keys (correlation_map e));
  cor_linked_count :
    linked_count res =
    length (filter (fun k => 0 < size (links e' k)) (entity_keys (correlation_map e)));
  cor_high_value :
    high_value_entities res =
    filter (fun k => (0.8 <=? entry_final_score (item (correlation_map e') k))%float = true)
           (entity_keys (correlation_map e));
  cor_high_value_count : high_value_count res = length (high_value_entities res);
  cor_ctf_flags :
    ctf_flags res =
    filter (fun k => entry_type (item (correlation_map e') k) = Some "CTF_FLAG")
           (entity_keys (correlation_map e));
  cor_api_keys :
    api_keys res =
    filter (fun k => entry_type (item (correlation_map e') k) = Some "API_KEY")
           (entity_keys (correlation_map e));
  cor_credentials :
    credentials res =
    filter (fun k => entry_type (item (correlation_map e') k) = Some "CREDENTIAL")
           (entity_keys (correlation_map e))
}.

(** The keys of a map after the empty-string key has been subscripted. *)
Definition with_blank (ks : list string) : list string :=
  if decide ("" ∈ ks) then ks else (ks ++ [""])%list.

(** The occurrences filed under a key so far. *)
Definition old_occurrences (e : Engine) (k : string) : list Observation :=
  match record_at e k with
  | Some r => default [] (occurrences r)
  | None => []
  end.

(** An observation with both required fields whose value is empty or made
    of whitespace only. *)
Definition blank_observation (o : Observation) : Prop :=
  exists v t, obs_value o = Some v /\ obs_type o = Some t /\ Str.all_space v = true.

(** All the observations of a batch, in the order they are ingested. *)
Definition observations (parsed : list (string * list Observation)) : list Observation :=
  concat (map snd parsed).

(** Every key that has a type in [e] still has that type in [e']. *)
Definition keeps_types (e e' : Engine) : Prop :=
  forall k d t,
    Dict.get k (correlation_map e) = Some d -> entry_type d = Some t ->
    exists d', Dict.get k (correlation_map e') = Some d' /\ entry_type d' = Some t.

(** The type recorded under a key: [None] when the key is unseen or its
    record has no type yet. *)
Definition recorded_type (e : Engine) (k : string) : option string :=
  match Dict.get k (correlation_map e) with
  | Some d => entry_type d
  | None => None
  end.

(** What a call returned, if it returned. *)
Definition returned {A} (o : outcome A) : option A :=
  match o with
  | Ret a => Some a
  | Raise _ => None
  end.

(** Two entities seen in one source (scenario B of the design document),
    then [correlate] called twice. *)
Definition one_shared_source : Engine :=
  run [AddParsedEntities
         [("source1", [obs "CTF_FLAG" "CTF{demo}"; obs "IP_ADDRESS" "10.0.0.1"])]].

Definition first_pass : outcome CorrelationResult * Engine :=
  correlate one_shared_source.

Definition second_pass : outcome CorrelationResult * Engine :=
  correlate (snd first_pass).

(** An engine that has only stored one raw text. *)
Definition corpus_only : Engine := run [AddRawData [("nmap", "22/tcp open ssh")]].

(** An engine that has only ingested one entity whose value is the string
    used as the corpus key. *)
Definition raw_data_entity_only : Engine :=
  run [AddParsedEntities [("web", [obs "USERNAME" "Raw_Data"])]].

(** Zero (of either sign), a positive finite number or plus infinity, as a
    specification float. *)
Definition SFnonneg (f : spec_float) : Prop :=
  match f with
  | S754_zero _ => True
  | S754_infinity s => s = false
  | S754_finite s _ _ => s = false
  | S754_nan => False
  end.

(** A string that does not start, resp. end, with whitespace. *)
Definition no_leading_space (s : string) : Prop :=
  match s with
  | EmptyString => True
  | String c _ => Str.isspace c = false
  end.



(** Every run of the computation [c] relates the state it starts in to the
    state it leaves. *)
Definition preserves (R : Engine -> Engine -> Prop) {A} (c : M A) : Prop :=
  forall e, R e (snd (c e)).

(** ** Vocabulary of the further properties *)

(** A batch as the list of its (source, observation) pairs, in the order
    [add_parsed_entities] visits them. *)
Definition tagged (parsed : list (string * list Observation))
  : list (string * Observation) :=
  flat_map (fun p => map (pair (fst p)) (snd p)) parsed.

(** The identity key of an observation that has a value. *)
Definition obs_key (o : Observation) : option string :=
  _normalize_key <$> obs_value o.

(** An observation with both required fields. *)
Definition well_formed (o : Observation) : Prop :=
  is_Some (obs_value o) /\ is_Some (obs_type o).

(** The pairs of a batch whose observation has the key [k]. *)
Definition filed_under (k : string) (l : list (string * Observation))
  : list (string * Observation) :=
  filter (fun p => obs_key (snd p) = Some k) l.

(** A record after the pairs [l] have been ingested into it, one after the
    other. *)
Definition ingest_all (l : list (string * Observation)) (r : EntityRecord)
  : EntityRecord :=
  fold_left (fun r p => ingest_record (fst p) (default "" (obs_type (snd p))) (snd p) r)
            l r.

(** [e'] has the keys of [e], in the same order and before any new one,
    and holds under each of them a value that [P] relates to the one [e]
    holds. *)
Definition extends (P : Entry -> Entry -> Prop) (e e' : Engine) : Prop :=
  Dict.keys (correlation_map e) `prefix_of` Dict.keys (correlation_map e') /\
  forall k d,
    Dict.get k (correlation_map e) = Some d ->
    exists d', Dict.get k (correlation_map e') = Some d' /\ P d d'.

(** A record that has only gained sources, links and occurrences, and
    whose importance is the same float or a greater one. *)
Definition record_grows (r r' : EntityRecord) : Prop :=
  sources r ⊆ sources r' /\
  linked_entities r ⊆ linked_entities r' /\
  default [] (occurrences r) `prefix_of` default [] (occurrences r') /\
  (importance r' = importance r \/ (importance r <? importance r')%float = true).

(** The same for any value of the map: a corpus value has only gained
    sources and stored texts. *)
Definition entry_grows (d d' : Entry) : Prop :=
  match d, d' with
  | Entity r, Entity r' => record_grows r r'
  | Corpus c, Corpus c' =>
      corpus_sources c ⊆ corpus_sources c' /\
      Dict.keys (data c) `prefix_of` Dict.keys (data c')
  | _, _ => False
  end.

(** [d['linked_entities']] of an entity record; a corpus value has none. *)
Definition entry_links (d : Entry) : gset string :=
  match d with Entity r => linked_entities r | Corpus _ => ∅ end.

(** [e'] has the relationships and the links of [e], and at least its
    sources under every key. *)
Definition same_links (e e' : Engine) : Prop :=
  relationships e' = relationships e /\
  forall k, links e' k = links e k /\ srcs e k ⊆ srcs e' k.

(** A relationship that the map bears out: a co-occurrence whose strength
    is the number of its sources, at least one, all of them sources of both
    its entities, the second of which is linked from the first. *)
Definition backed (e : Engine) (rel : Relationship) : Prop :=
  relationship rel = "co_occurrence" /\
  strength rel = size (rel_sources rel) /\
  rel_sources rel ≠ ∅ /\
  rel_sources rel ⊆ srcs e (entity1 rel) ∩ srcs e (entity2 rel) /\
  entity2 rel ∈ links e (entity1 rel).

(** Every relationship is borne out by the map, and every link of the map
    has a relationship. *)
Definition rels_ok (e : Engine) : Prop :=
  (forall rel, rel ∈ relationships e -> backed e rel) /\
  (forall a b, b ∈ links e a ->
     exists rel, rel ∈ relationships e /\
       ((entity1 rel = a /\ entity2 rel = b) \/ (entity1 rel = b /\ entity2 rel = a))).

(** The entities of a list whose key is neither in [seen] nor that of an
    earlier entity of the list. *)
Fixpoint unique_from (seen : gset (option string * option string))
    (entities : list Observation) : list Observation :=
  match entities with
  | [] => []
  | ent :: rest =>
      if decide (ent_key ent ∈ seen) then unique_from seen rest
      else ent :: unique_from (seen ∪ {[ent_key ent]}) rest
  end.

(** [ent] is in [l] with no entity of the same key before it. *)
Definition first_with_its_key (ent : Observation) (l : list Observation) : Prop :=
  exists i, l !! i = Some ent /\
            forall j ent', j < i -> l !! j = Some ent' -> ent_key ent' ≠ ent_key ent.

(** What [extract_entities] puts into each dictionary it returns. *)
Definition fully_described (source : string) (ent : Observation) : Prop :=
  is_Some (obs_type ent) /\ is_Some (obs_value ent) /\
  is_Some (obs_start ent) /\ is_Some (obs_end ent) /\
  obs_source ent = Some source /\
  obs_method ent ∈ [Some "spacy_ner"; Some "pattern_match"; Some "regex"] /\
  obs_importance_score ent = None.

(** Two libraries that answer alike on every text of at most [max_length]
    characters. *)
Definition agree_up_to_max_length (lib1 lib2 : Libraries) : Prop :=
  forall text, (N.of_nat (String.length text) <= max_length)%N ->
    doc_ents lib1 text = doc_ents lib2 text /\
    matcher lib1 text = matcher lib2 text /\
    forall name, finditer lib1 name text = finditer lib2 name text.

(** Libraries for the examples: one named entity whatever the text, and
    the same except that a text longer than [max_length] gets no answer. *)
Definition one_entity_libraries : Libraries :=
  {| doc_ents := fun _ => [{| label_ := "ORG"; span_text := "ACME";
                              start_char := 0; end_char := 4 |}];
     matcher := fun _ => [];
     finditer := fun _ _ => [] |}.

Definition short_text_libraries : Libraries :=
  {| doc_ents := fun text =>
       if (max_length <? N.of_nat (String.length text))%N then []
       else doc_ents one_entity_libraries text;
     matcher := fun _ => [];
     finditer := fun _ _ => [] |}.

(** [ent.get('source', 'unknown')] *)
Definition source_of (ent : Observation) : string :=
  default "unknown" (obs_source ent).

(** An entity with the score of [score_entity_importance] as its
    ['importance_score']. *)
Definition scored_by_table (entity : Observation) : Observation :=
  with_importance_score (score_entity_importance entity) entity.

(** The importance an observation asks for:
    [entity.get('importance_score', 0.5)]. *)
Definition hint (entity : Observation) : float :=
  default 0.5%float (obs_importance_score entity).

(** No element of the list has a greater key than one before it. *)
Fixpoint descending {A} (key : A -> nat) (l : list A) : Prop :=
  match l with
  | [] => True
  | x :: r => Forall (fun y => key y <= key x) r /\ descending key r
  end.

(** The elements of a list with a given key, in their order. *)
Definition with_key {A} (key : A -> nat) (n : nat) (l : list A) : list A :=
  filter (fun x => key x = n) l.

(** The number of entities of a list that have the type [t]. *)
Definition count_of_type (t : string) (entities : list Observation) : nat :=
  length (filter (fun entity => obs_type entity = Some t) entities).


(** A world for the examples: [whois] is installed and prints a line,
    the network is down. *)
Definition offline_world : World :=
  {| which := fun tool => if bool_decide (tool = "whois") then Some "/usr/bin/whois" else None;
     subprocess_run := fun command timeout =>
       Completed (Some "Domain Name: EXAMPLE.COM") (Some "") 0;
     requests_get := fun url headers => RequestError "connection refused";
     path_exists := fun _ => false |}.

(** [sep.join(parts)] for a separator of one character. *)
Fixpoint join (sep : ascii) (parts : list string) : string :=
  match parts with
  | [] => EmptyString
  | [part] => part
  | part :: rest => part +:+ String sep (join sep rest)
  end.

(** [e'] holds under every key a value that [P] relates, for that key, to
    the value [e] holds; a key that is not bound counts as bound to the
    value the [defaultdict] would make. *)
Definition pointwise (P : string -> Entry -> Entry -> Prop) (e e' : Engine) : Prop :=
  forall k, P k (item (correlation_map e) k) (item (correlation_map e') k).

(** The observations filed in a record. *)
Definition occurrences_of (r : EntityRecord) : list Observation :=
  default [] (occurrences r).

(** What the fields of the record under the key [k] say about each other:
    the importance is the maximum, taken from 0.0 with Python's [max], of
    what the occurrences asked for; each occurrence has a type and a value
    that normalizes to [k]; the type is that of the first occurrence; there
    are at most as many sources as occurrences, and none only if there is
    no occurrence. *)
Definition observed (k : string) (r : EntityRecord) : Prop :=
  importance r = fold_left py_max (hint <$> occurrences_of r) 0%float /\
  Forall (fun o => obs_key o = Some k /\ is_Some (obs_type o)) (occurrences_of r) /\
  type r = head (occurrences_of r) ≫= obs_type /\
  size (sources r) <= length (occurrences_of r) /\
  (sources r = ∅ -> occurrences_of r = []).

Definition entry_observed (k : string) (d : Entry) : Prop :=
  match d with Entity r => observed k r | Corpus _ => True end.

(** What [shutil.which] says of a tool, as [_detect_tools] reads it: the
    path when there is one and it is not empty. *)
Definition found_path (w : World) (tool : string) : option string :=
  match which w tool with
  | Some path => if bool_decide (path = "") then None else Some path
  | None => None
  end.

(** ** Vocabulary of normalization on all code points *)

(** A code point that [str.lower] leaves as it is wherever it stands: it is
    its own lowercase and is not the capital sigma. *)
Definition stable (c : N) : bool :=
  bool_decide (UStr._PyUnicode_ToLowerFull c = [c]) && negb (c =? 0x3A3)%N.

(** The lowercases that a run of the table [lowercase] gives. *)
Definition run_lowercases (run : N * N * N * N) : list N :=
  let '(first, last, step, lower) := run in
  (fun i => lower + step * N.of_nat i)%N <$> seq 0 (S (N.to_nat ((last - first) / step))).






(** ** Vocabulary of the properties over histories *)

(** The required key that an entity dictionary lacks, as lines 74-75 find
    it: ['value'] is subscripted first. *)
Definition missing_field (entity : Observation) : string :=
  match obs_value entity with
  | None => "value"
  | Some _ => "type"
  end.

(** Some [add_parsed_entities] call of the history was handed an entity
    dictionary whose value normalizes to [k]. *)
Definition ingested (k : string) (history : list call) : Prop :=
  exists parsed source entities entity,
    AddParsedEntities parsed ∈ history /\ (source, entities) ∈ parsed /\
    entity ∈ entities /\ obs_key entity = Some k.

(** An entity whose value is the string used as the corpus key and
    another entity, both seen in one source; and the same with another
    user name. *)
Definition raw_data_beside_email : Engine :=
  run [AddParsedEntities [("web", [obs "USERNAME" "raw_data"; obs "EMAIL" "a@b.c"])]].

Definition admin_beside_email : Engine :=
  run [AddParsedEntities [("web", [obs "USERNAME" "admin"; obs "EMAIL" "a@b.c"])]].

(* ===================================================================== *)
(** * Part II: the properties                                             *)
(* ===================================================================== *)

Module FloatFacts.

Lemma nonneg_spec x : nonneg x <-> SFnonneg (Prim2SF x).
Proof.
  unfold nonneg. rewrite FloatAxioms.leb_spec.
  change (Prim2SF 0) with (S754_zero false).
  destruct (Prim2SF x) as [s|s| |s m e]; try destruct s; cbn;
    intuition congruence.
Qed.

Section Rounding.
Variables prec emax : Z.

Lemma shr_1_nonneg mrs : (0 <= shr_m mrs)%Z -> (0 <= shr_m (shr_1 mrs))%Z.
Proof.
  destruct mrs as [m r s]. simpl.
  destruct m as [|p|p]; [easy| |lia].
  intros _. destruct p; simpl; lia.
Qed.

Lemma iter_shr_1_nonneg p mrs :
  (0 <= shr_m mrs)%Z -> (0 <= shr_m (SpecFloat.iter_pos shr_1 p mrs))%Z.
Proof.
  revert mrs. induction p as [p IH|p IH|]; intros mrs H; simpl.
  - apply IH, IH, shr_1_nonneg, H.
  - apply IH, IH, H.
  - apply shr_1_nonneg, H.
Qed.

Lemma shr_fexp_nonneg m e l :
  (0 <= m)%Z -> (0 <= shr_m (fst (shr_fexp prec emax m e l)))%Z.
Proof.
  intros H. unfold shr_fexp, shr.
  assert (H0 : (0 <= shr_m (shr_record_of_loc m l))%Z)
    by (destruct l as [|[]]; exact H).
  destruct (fexp prec emax (Zdigits2 m + e) - e)%Z; simpl; try exact H0.
  apply iter_shr_1_nonneg, H0.
Qed.

Lemma round_nearest_even_nonneg m l :
  (0 <= m)%Z -> (0 <= round_nearest_even m l)%Z.
Proof.
  intros H. destruct l as [|[]]; simpl; try lia.
  destruct (Z.even m); lia.
Qed.

Lemma binary_round_aux_nonneg m e l :
  (0 <= m)%Z -> SFnonneg (binary_round_aux prec emax false m e l).
Proof.
  intros H. unfold binary_round_aux.
  pose proof (shr_fexp_nonneg m e l H) as H1.
  destruct (shr_fexp prec emax m e l) as [mrs' e'] eqn:E1. simpl in H1.
  pose proof (shr_fexp_nonneg _ e' loc_Exact
                (round_nearest_even_nonneg _ (loc_of_shr_record mrs') H1)) as H2.
  destruct (shr_fexp prec emax _ e' loc_Exact) as [mrs'' e''] eqn:E2. simpl in H2.
  destruct (shr_m mrs'') as [|p|p]; simpl; [easy| |lia].
  destruct (e'' <=? emax - prec)%Z; reflexivity.
Qed.

Lemma binary_round_nonneg m e : SFnonneg (binary_round prec emax false m e).
Proof.
  unfold binary_round.
  destruct (shl_align m e _) as [mz ez]. now apply binary_round_aux_nonneg.
Qed.

Lemma binary_normalize_nonneg m e sz :
  (0 <= m)%Z -> SFnonneg (binary_normalize prec emax m e sz).
Proof.
  intros H. destruct m as [|p|p]; simpl; [easy| |lia].
  apply binary_round_nonneg.
Qed.

Lemma SFadd_nonneg x y :
  SFnonneg x -> SFnonneg y -> SFnonneg (SFadd prec emax x y).
Proof.
  destruct x as [sx|sx| |sx mx ex], y as [sy|sy| |sy my ey]; simpl;
    try easy; try (intros -> ->; reflexivity); try (now destruct sx, sy).
  intros -> ->. simpl. apply binary_round_nonneg.
Qed.

Lemma SFmul_nonneg_finite x sy my ey :
  SFnonneg x -> sy = false ->
  SFnonneg (SFmul prec emax x (S754_finite sy my ey)).
Proof.
  destruct x as [sx|sx| |sx mx ex]; simpl; try easy.
  - intros -> ->. reflexivity.
  - intros -> ->. simpl. now apply binary_round_aux_nonneg.
Qed.
End Rounding.

Lemma SFcompare_antisym x y :
  SFcompare y x = option_map CompOpp (SFcompare x y).
Proof.
  destruct x as [sx|sx| |sx mx ex], y as [sy|sy| |sy my ey]; simpl;
    try reflexivity; try (now destruct sx); try (now destruct sy);
    try (now destruct sx, sy).
  pose proof (Pos.compare_cont_antisym mx my Eq) as A. simpl in A.
  destruct sx, sy; simpl; try reflexivity;
    rewrite (Z.compare_antisym ex ey), <- A;
    destruct (ex ?= ey)%Z; simpl; try reflexivity.
Qed.

Lemma SFleb_total x y :
  SFnonneg x -> SFnonneg y -> SFltb y x = false -> SFleb x y = true.
Proof.
  intros Hx Hy. unfold SFltb, SFleb. rewrite (SFcompare_antisym x y).
  destruct x as [sx|sx| |sx mx ex], y as [sy|sy| |sy my ey]; simpl in *;
    try easy; subst; simpl; try easy.
  destruct (ex ?= ey)%Z; try easy.
  now destruct (Pos.compare_cont Eq mx my).
Qed.

Lemma SFltb_nonneg x y : SFnonneg x -> SFltb x y = true -> SFnonneg y.
Proof.
  unfold SFltb.
  destruct x as [sx|sx| |sx mx ex], y as [sy|sy| |sy my ey]; simpl;
    try easy; try (intros ->); try (now destruct sy).
Qed.

Lemma SFcompare_Eq_finite s m e x :
  SFcompare (S754_finite s m e) x = Some Eq -> x = S754_finite s m e.
Proof.
  destruct x as [sx|sx| |sx mx ex]; simpl; try easy;
    try (now destruct s); try (now destruct sx).
  destruct s, sx; try easy; destruct (e ?= ex)%Z eqn:E; try easy;
    apply Z.compare_eq in E; subst; intros H;
    assert (Hm : Pos.compare_cont Eq m mx = Eq)
      by (destruct (Pos.compare_cont Eq m mx); simpl in H; congruence);
    apply Pos.compare_eq in Hm; now subst.
Qed.

(** ** The same on primitive floats *)

Lemma add_nonneg x y : nonneg x -> nonneg y -> nonneg (x + y)%float.
Proof.
  rewrite !nonneg_spec, FloatAxioms.add_spec. apply SFadd_nonneg.
Qed.

Lemma float_of_len_nonneg n : nonneg (float_of_len n).
Proof.
  unfold float_of_len. rewrite nonneg_spec, FloatAxioms.of_uint63_spec.
  apply binary_normalize_nonneg.
  apply Uint63.to_Z_bounded.
Qed.

Lemma mul_nonneg x c m e :
  Prim2SF c = S754_finite false m e -> nonneg x -> nonneg (x * c)%float.
Proof.
  intros Hc. rewrite !nonneg_spec, FloatAxioms.mul_spec, Hc. intros Hx.
  now apply SFmul_nonneg_finite.
Qed.

Lemma py_min_nonneg a b : nonneg a -> nonneg b -> nonneg (py_min a b).
Proof. unfold py_min. now destruct (b <? a)%float. Qed.

Lemma py_max_nonneg a b : nonneg a -> nonneg (py_max a b).
Proof.
  unfold py_max. destruct (a <? b)%float eqn:E; [|easy].
  rewrite FloatAxioms.ltb_spec in E. rewrite !nonneg_spec.
  intros Ha. exact (SFltb_nonneg _ _ Ha E).
Qed.

Lemma py_min_le a b : nonneg a -> nonneg b -> (py_min a b <=? b)%float = true.
Proof.
  intros Ha Hb. unfold py_min. rewrite nonneg_spec in Ha, Hb.
  destruct (b <? a)%float eqn:E; rewrite FloatAxioms.leb_spec.
  - unfold SFleb. destruct (Prim2SF b) as [s|s| |s m e]; simpl in *;
      try easy; subst; try easy.
    now rewrite Z.compare_refl, Pos.compare_cont_refl.
  - rewrite FloatAxioms.ltb_spec in E. now apply SFleb_total.
Qed.

(** On a non-negative [x], [min(x, c)] and [min(c, x)] are the same float
    when [c] is finite and not zero. *)
Lemma py_min_swap x c s m e :
  Prim2SF c = S754_finite s m e -> nonneg x -> py_min x c = py_min c x.
Proof.
  intros Hc Hx. unfold py_min. rewrite !FloatAxioms.ltb_spec.
  rewrite nonneg_spec in Hx. unfold SFltb.
  rewrite (SFcompare_antisym (Prim2SF c) (Prim2SF x)).
  destruct (SFcompare (Prim2SF c) (Prim2SF x)) as [[]|] eqn:E; simpl; try reflexivity.
  - rewrite Hc in E. apply SFcompare_Eq_finite in E.
    apply Prim2SF_inj. now rewrite E, Hc.
  - rewrite Hc in E. destruct (Prim2SF x); simpl in *; try easy; now destruct s.
Qed.
Lemma SFltb_trans x y z : SFltb x y = true -> SFltb y z = true -> SFltb x z = true.
Proof.
  unfold SFltb.
  destruct x as [sx|sx| |sx mx ex], y as [sy|sy| |sy my ey], z as [sz|sz| |sz mz ez];
    simpl; try easy;
    try (destruct sx; easy); try (destruct sy; easy); try (destruct sz; easy);
    try (destruct sx, sy; easy); try (destruct sy, sz; easy); try (destruct sx, sz; easy);
    try (destruct sx, sy, sz; easy).
  change (PosDef.Pos.compare_cont Eq mx my) with (Pos.compare mx my).
  change (PosDef.Pos.compare_cont Eq my mz) with (Pos.compare my mz).
  change (PosDef.Pos.compare_cont Eq mx mz) with (Pos.compare mx mz).
  destruct sx, sy, sz; try easy;
    destruct (Z.compare_spec ex ey), (Z.compare_spec ey ez), (Z.compare_spec ex ez);
    try easy; try lia;
    destruct (Pos.compare_spec mx my), (Pos.compare_spec my mz), (Pos.compare_spec mx mz);
    cbn [CompOpp]; try easy; try lia.
Qed.

Lemma ltb_trans x y z :
  (x <? y)%float = true -> (y <? z)%float = true -> (x <? z)%float = true.
Proof. rewrite !FloatAxioms.ltb_spec. apply SFltb_trans. Qed.
End FloatFacts.

Module StrFacts.
Import Str.

Lemma isupper_lower_char c : isupper (lower_char c) = false.
Proof.
  destruct c as [b0 b1 b2 b3 b4 b5 b6 b7].
  destruct b0, b1, b2, b3, b4, b5, b6, b7; reflexivity.
Qed.

Lemma isspace_lower_char c : isspace (lower_char c) = isspace c.
Proof.
  destruct c as [b0 b1 b2 b3 b4 b5 b6 b7].
  destruct b0, b1, b2, b3, b4, b5, b6, b7; reflexivity.
Qed.

Lemma lower_char_idem c : lower_char (lower_char c) = lower_char c.
Proof. unfold lower_char at 1. now rewrite isupper_lower_char. Qed.

Lemma lower_idem s : lower (lower s) = lower s.
Proof. induction s as [|c r IH]; simpl; [easy|]. now rewrite lower_char_idem, IH. Qed.

Lemma lstrip_lower s : lstrip (lower s) = lower (lstrip s).
Proof.
  induction s as [|c r IH]; simpl; [easy|].
  rewrite isspace_lower_char. now destruct (isspace c).
Qed.

Lemma lower_nil_inv s : lower s = EmptyString -> s = EmptyString.
Proof. now destruct s. Qed.

Lemma rstrip_lower s : rstrip (lower s) = lower (rstrip s).
Proof.
  induction s as [|c r IH]; simpl; [easy|].
  rewrite IH, isspace_lower_char.
  destruct (rstrip r) as [|c' r']; simpl; [|easy].
  now destruct (isspace c).
Qed.

Lemma strip_lower s : strip (lower s) = lower (strip s).
Proof. unfold strip. now rewrite lstrip_lower, rstrip_lower. Qed.

Lemma lstrip_no_leading s : no_leading_space (lstrip s).
Proof.
  induction s as [|c r IH]; simpl; [easy|].
  destruct (isspace c) eqn:E; [easy|]. exact E.
Qed.

Lemma lstrip_fixed s : no_leading_space s -> lstrip s = s.
Proof. destruct s as [|c r]; simpl; [easy|]. now intros ->. Qed.

Lemma rstrip_idem s : rstrip (rstrip s) = rstrip s.
Proof.
  induction s as [|c r IH]; simpl; [easy|].
  destruct (rstrip r) as [|c' r'] eqn:E.
  - destruct (isspace c) eqn:Ec; simpl; [easy|]. now rewrite Ec.
  - change (rstrip (String c (String c' r'))) with
      (match rstrip (String c' r') with
       | EmptyString => if isspace c then EmptyString else String c EmptyString
       | String a b => String c (String a b)
       end).
    now rewrite IH.
Qed.

Lemma rstrip_no_leading s : no_leading_space s -> no_leading_space (rstrip s).
Proof.
  destruct s as [|c r]; simpl; [easy|]. intros E.
  destruct (rstrip r); [now rewrite E|easy].
Qed.


Lemma strip_idem s : strip (strip s) = strip s.
Proof.
  unfold strip.
  rewrite (lstrip_fixed (rstrip (lstrip s))).
  - apply rstrip_idem.
  - apply rstrip_no_leading, lstrip_no_leading.
Qed.

Lemma lstrip_all_space w : all_space w = true -> lstrip w = EmptyString.
Proof.
  induction w as [|c r IH]; simpl; [easy|].
  intros [-> H]%andb_prop. auto.
Qed.






Lemma all_space_lower w : all_space (lower w) = all_space w.
Proof.
  induction w as [|c r IH]; simpl; [easy|].
  now rewrite isspace_lower_char, IH.
Qed.





Lemma normalize_idem s : _normalize_key (_normalize_key s) = _normalize_key s.
Proof.
  unfold _normalize_key.
  now rewrite <- strip_lower, lower_idem, strip_idem.
Qed.

Lemma normalize_all_space s : all_space s = true -> _normalize_key s = EmptyString.
Proof.
  intros H. unfold _normalize_key, strip.
  rewrite lstrip_all_space; [easy|]. now rewrite all_space_lower.
Qed.


End StrFacts.

(** ** Normalization on all code points *)

Module UStrFacts.
Import UStr.
Local Open Scope list_scope.
Local Open Scope N_scope.

Lemma in_run_lowercases first last step lo c :
  (first <=? c) && (c <=? last) && ((c - first) mod step =? 0) = true ->
  lo + (c - first) ∈ run_lowercases (first, last, step, lo).
Proof.
  intros [[H1%N.leb_le H2%N.leb_le]%andb_prop H3%N.eqb_eq]%andb_prop.
  unfold run_lowercases. apply list_elem_of_fmap.
  exists (N.to_nat ((c - first) / step)). split.
  - rewrite N2Nat.id. f_equal.
    rewrite (N.div_mod' (c - first) step) at 1. now rewrite H3, N.add_0_r.
  - apply elem_of_seq.
    assert (H : (c - first) / step <= (last - first) / step).
    { apply N.Div0.div_le_mono. lia. }
    revert H. generalize ((c - first) / step), ((last - first) / step). lia.
Qed.

Lemma lowercase_in_lowercases runs c l :
  lowercase_in runs c = Some l -> l ∈ flat_map run_lowercases runs.
Proof.
  induction runs as [|[[[first last] step] lo] runs IH]; cbn [lowercase_in flat_map];
    [easy|].
  destruct ((first <=? c) && (c <=? last) && ((c - first) mod step =? 0)) eqn:E.
  - intros [= <-]. apply elem_of_app. left. now apply in_run_lowercases.
  - intros H. apply elem_of_app. right. now apply IH.
Qed.



Lemma lowercases_stable :
  forallb stable (flat_map run_lowercases lowercase) = true.
Proof. vm_compute. reflexivity. Qed.


Lemma stable_spec c :
  stable c = true <-> _PyUnicode_ToLowerFull c = [c] /\ c <> 0x3A3.
Proof.
  unfold stable. rewrite andb_true_iff, bool_decide_eq_true, negb_true_iff, N.eqb_neq.
  reflexivity.
Qed.




Lemma to_lower_full_stable c :
  c <> 0x3A3 -> Forall (fun c' => stable c' = true) (_PyUnicode_ToLowerFull c).
Proof.
  intros Hc. unfold _PyUnicode_ToLowerFull.
  destruct (c =? 0x130) eqn:E130; [repeat constructor|].
  destruct (lowercase_in lowercase c) as [l|] eqn:E.
  - constructor; [|constructor].
    apply lowercase_in_lowercases in E.
    pose proof lowercases_stable as S. rewrite forallb_forall in S.
    now apply S, list_elem_of_In.
  - constructor; [|constructor]. apply stable_spec. split; [|easy].
    unfold _PyUnicode_ToLowerFull. now rewrite E130, E.
Qed.

Lemma handle_capital_sigma_stable before after :
  stable (handle_capital_sigma before after) = true.
Proof.
  unfold handle_capital_sigma.
  destruct (match skip_case_ignorable before with [] => false | c :: _ => _ end);
    [destruct (match skip_case_ignorable after with [] => true | c :: _ => _ end)|];
    vm_compute; reflexivity.
Qed.

Lemma lower_ucs4_stable before c after :
  Forall (fun c' => stable c' = true) (lower_ucs4 before c after).
Proof.
  unfold lower_ucs4. destruct (c =? 0x3A3) eqn:E.
  - constructor; [apply handle_capital_sigma_stable|constructor].
  - apply to_lower_full_stable. now apply N.eqb_neq.
Qed.

Lemma do_lower_stable before s :
  Forall (fun c => stable c = true) (do_lower before s).
Proof.
  revert before. induction s as [|c after IH]; intros before; simpl; [constructor|].
  apply Forall_app. split; [apply lower_ucs4_stable|apply IH].
Qed.

Lemma lower_ucs4_fixed before c after :
  stable c = true -> lower_ucs4 before c after = [c].
Proof.
  intros [H1 H2%N.eqb_neq]%stable_spec. unfold lower_ucs4. now rewrite H2.
Qed.

Lemma do_lower_fixed before s :
  Forall (fun c => stable c = true) s -> do_lower before s = s.
Proof.
  revert before. induction s as [|c after IH]; intros before; [easy|].
  intros [Hc Hs]%Forall_cons. simpl. rewrite (lower_ucs4_fixed _ _ _ Hc). simpl.
  now rewrite IH.
Qed.

Lemma ulower_idem s : lower (lower s) = lower s.
Proof. apply do_lower_fixed, do_lower_stable. Qed.

































End UStrFacts.

(** On Latin-1 strings these are the functions of [Str]. *)
Lemma codes_cons c r : codes (String c r) = N_of_ascii c :: codes r.
Proof. reflexivity. Qed.







Lemma codes_inj s t : codes s = codes t -> s = t.
Proof.
  revert t. induction s as [|c r IH]; intros [|c' r']; try easy.
  rewrite !codes_cons. intros [= Hc Hr]. f_equal; [|now apply IH].
  rewrite <- (ascii_N_embedding c), <- (ascii_N_embedding c'). now rewrite Hc.
Qed.

(** ** Dictionaries *)

Module DictFacts.
Section DictFacts.
Context {V : Type}.
Implicit Types (k : string) (v : V) (d : list (string * V)).

Lemma get_set k' k v d :
  Dict.get k' (Dict.set k v d) = if decide (k' = k) then Some v else Dict.get k' d.
Proof.
  induction d as [|[k0 v0] d IH]; simpl.
  - now destruct (decide (k' = k)).
  - destruct (decide (k = k0)) as [->|Hne]; simpl.
    + now destruct (decide (k' = k0)).
    + destruct (decide (k' = k0)) as [->|Hne'].
      * destruct (decide (k0 = k)); [congruence|easy].
      * exact IH.
Qed.

Lemma get_set_eq k v d : Dict.get k (Dict.set k v d) = Some v.
Proof. rewrite get_set. now destruct (decide (k = k)). Qed.

Lemma get_set_ne k' k v d : k' ≠ k -> Dict.get k' (Dict.set k v d) = Dict.get k' d.
Proof. intros H. rewrite get_set. now destruct (decide (k' = k)). Qed.

Lemma get_None k d : Dict.get k d = None <-> k ∉ Dict.keys d.
Proof.
  unfold Dict.keys. induction d as [|[k0 v0] d IH]; simpl.
  - split; [intros _; apply not_elem_of_nil|easy].
  - rewrite not_elem_of_cons. destruct (decide (k = k0)) as [->|Hne]; [|tauto].
    split; [easy|]. intros [H _]. now destruct H.
Qed.

Lemma get_Some_keys k v d : Dict.get k d = Some v -> k ∈ Dict.keys d.
Proof.
  intros H. destruct (decide (k ∈ Dict.keys d)) as [|Hn]; [easy|].
  apply get_None in Hn. congruence.
Qed.

Lemma keys_get k d : k ∈ Dict.keys d -> exists v, Dict.get k d = Some v.
Proof.
  intros H. destruct (Dict.get k d) as [v|] eqn:E; [now exists v|].
  now apply get_None in E.
Qed.

Lemma keys_set k v d :
  Dict.keys (Dict.set k v d) =
  if Dict.mem k d then Dict.keys d else (Dict.keys d ++ [k])%list.
Proof.
  unfold Dict.mem, Dict.keys. induction d as [|[k0 v0] d IH]; simpl; [easy|].
  destruct (decide (k = k0)) as [->|Hne]; simpl; [easy|].
  rewrite IH. now destruct (Dict.get k d).
Qed.

Lemma keys_set_present k v v0 d :
  Dict.get k d = Some v0 -> Dict.keys (Dict.set k v d) = Dict.keys d.
Proof. intros H. rewrite keys_set. unfold Dict.mem. now rewrite H. Qed.

Lemma keys_set_absent k v d :
  Dict.get k d = None -> Dict.keys (Dict.set k v d) = (Dict.keys d ++ [k])%list.
Proof. intros H. rewrite keys_set. unfold Dict.mem. now rewrite H. Qed.

Lemma set_set k v v' d : Dict.set k v' (Dict.set k v d) = Dict.set k v' d.
Proof.
  induction d as [|[k0 v0] d IH]; simpl.
  - now destruct (decide (k = k)).
  - destruct (decide (k = k0)) as [->|Hne]; simpl.
    + now destruct (decide (k0 = k0)).
    + destruct (decide (k = k0)); [easy|]. now rewrite IH.
Qed.

Lemma set_same k v d : Dict.get k d = Some v -> Dict.set k v d = d.
Proof.
  induction d as [|[k0 v0] d IH]; simpl; [easy|].
  destruct (decide (k = k0)) as [->|Hne]; [congruence|].
  intros H. now rewrite IH.
Qed.

Lemma NoDup_keys_set k v d :
  NoDup (Dict.keys d) -> NoDup (Dict.keys (Dict.set k v d)).
Proof.
  intros H. rewrite keys_set. unfold Dict.mem.
  destruct (Dict.get k d) eqn:E; [easy|].
  apply NoDup_app. split; [easy|]. split.
  - intros x Hx ->%list_elem_of_singleton. now apply get_None in E.
  - apply NoDup_singleton.
Qed.
Lemma ext d1 d2 :
  NoDup (Dict.keys d1) -> Dict.keys d1 = Dict.keys d2 ->
  (forall k, Dict.get k d1 = Dict.get k d2) -> d1 = d2.
Proof.
  revert d2. induction d1 as [|[k1 v1] d1 IH]; intros [|[k2 v2] d2]; simpl; try easy.
  intros [Hk Hnd]%NoDup_cons [= <- Hks] Hget.
  pose proof (Hget k1) as H1. rewrite !decide_True in H1 by easy. injection H1 as <-.
  f_equal. apply IH; try easy.
  intros k. specialize (Hget k).
  destruct (decide (k = k1)) as [->|]; [|easy].
  assert (H1 : Dict.get k1 d1 = None) by now apply get_None.
  assert (H2 : Dict.get k1 d2 = None) by (apply get_None; unfold Dict.keys in *; congruence).
  congruence.
Qed.
End DictFacts.
End DictFacts.

(** ** The engine's primitive steps *)

Import DictFacts.
Local Open Scope list_scope.

Lemma with_map_id e : with_map e (correlation_map e) = e.
Proof. now destruct e. Qed.

Lemma getitem_present k d e :
  Dict.get k (correlation_map e) = Some d -> getitem k e = (Ret d, e).
Proof.
  intros H. unfold getitem, Dict.getitem. rewrite H. now destruct e.
Qed.

Lemma getitem_absent k e :
  Dict.get k (correlation_map e) = None ->
  getitem k e = (Ret (Entity default_record),
                 with_map e (Dict.set k (Entity default_record) (correlation_map e))).
Proof. intros H. unfold getitem, Dict.getitem. now rewrite H. Qed.

Lemma item_present m k d : Dict.get k m = Some d -> item m k = d.
Proof. intros H. unfold item. now rewrite H. Qed.

Lemma item_absent m k : Dict.get k m = None -> item m k = Entity default_record.
Proof. intros H. unfold item. now rewrite H. Qed.

(** [add_entity] in one step: the value under the key (the default one if
    the key is new) gets the type and the source; an entity record then
    takes the importance and the occurrence, a corpus value raises. *)
Lemma add_entity_eq source entity v t e :
  obs_value entity = Some v -> obs_type entity = Some t ->
  add_entity source entity e =
  match add_source source
          (claim_type t (item (correlation_map e) (_normalize_key v))) with
  | Entity r =>
      (Ret tt, with_map e (Dict.set (_normalize_key v)
                                    (Entity (record_occurrence entity r))
                                    (correlation_map e)))
  | Corpus c =>
      (Raise (KeyError "importance"),
       with_map e (Dict.set (_normalize_key v) (Corpus c) (correlation_map e)))
  end.
Proof.
  intros Hv Ht. unfold add_entity, bind, obs_item. rewrite Hv, Ht. simpl.
  set (k := _normalize_key v). unfold update_entity, bind, setitem, getitem, Dict.getitem.
  destruct (Dict.get k (correlation_map e)) as [d|] eqn:E; simpl;
    rewrite ?get_set_eq; simpl; rewrite ?get_set_eq; simpl.
  - rewrite (item_present _ _ _ E).
    destruct d as [r|c]; simpl; unfold with_map; simpl; now rewrite ?set_set.
  - rewrite (item_absent _ _ E). simpl. unfold with_map; simpl. now rewrite ?set_set.
Qed.

Lemma add_entity_record source entity v t r e :
  obs_value entity = Some v -> obs_type entity = Some t ->
  item (correlation_map e) (_normalize_key v) = Entity r ->
  add_entity source entity e =
  (Ret tt, with_map e (Dict.set (_normalize_key v)
                                (Entity (ingest_record source t entity r))
                                (correlation_map e))).
Proof.
  intros Hv Ht Hr. rewrite (add_entity_eq _ _ v t) by easy. now rewrite Hr.
Qed.

Lemma add_entity_corpus source entity v t c e :
  obs_value entity = Some v -> obs_type entity = Some t ->
  item (correlation_map e) (_normalize_key v) = Corpus c ->
  add_entity source entity e =
  (Raise (KeyError "importance"),
   with_map e (Dict.set (_normalize_key v)
                        (Corpus {| corpus_sources := corpus_sources c ∪ {[source]};
                                   data := data c |})
                        (correlation_map e))).
Proof.
  intros Hv Ht Hr. rewrite (add_entity_eq _ _ v t) by easy. now rewrite Hr.
Qed.

Lemma item_entity e k :
  wf e -> k ≠ "raw_data" -> exists r, item (correlation_map e) k = Entity r.
Proof.
  intros Hwf Hraw. unfold item.
  destruct (Dict.get k (correlation_map e)) as [d|] eqn:E; simpl; [|eauto].
  exact (wf_entity _ Hwf k d Hraw E).
Qed.

Lemma add_entity_no_value source entity e :
  obs_value entity = None -> add_entity source entity e = (Raise (KeyError "value"), e).
Proof. intros H. unfold add_entity, bind, obs_item. now rewrite H. Qed.

Lemma add_entity_no_type source entity v e :
  obs_value entity = Some v -> obs_type entity = None ->
  add_entity source entity e = (Raise (KeyError "type"), e).
Proof. intros Hv Ht. unfold add_entity, bind, obs_item. now rewrite Hv, Ht. Qed.

(** ** Loops *)

Lemma for_each_app {B} (l1 l2 : list B) (body : B -> M unit) e :
  for_each (l1 ++ l2) body e =
  match for_each l1 body e with
  | (Ret _, e1) => for_each l2 body e1
  | (Raise x, e1) => (Raise x, e1)
  end.
Proof.
  revert e. induction l1 as [|x l1 IH]; intros e; simpl; [easy|].
  unfold bind. destruct (body x e) as [[[]|x0] e1]; [apply IH|easy].
Qed.

Lemma for_each_invariant {B} (I : Engine -> Prop) (body : B -> M unit) l :
  (forall x e, I e -> I (snd (body x e))) ->
  forall e, I e -> I (snd (for_each l body e)).
Proof.
  intros Hbody. induction l as [|x l IH]; intros e He; simpl; [easy|].
  unfold bind. specialize (Hbody x e He).
  destruct (body x e) as [[[]|x0] e1]; simpl in *; [now apply IH|easy].
Qed.

(** ** The invariant is kept by every write that respects [entry_ext] *)

Lemma record_at_set e k d k0 :
  record_at (with_map e (Dict.set k d (correlation_map e))) k0 =
  if decide (k0 = k) then match d with Entity r => Some r | Corpus _ => None end
  else record_at e k0.
Proof.
  unfold record_at, with_map. simpl. rewrite get_set.
  now destruct (decide (k0 = k)).
Qed.

Lemma wf_set e k new :
  wf e -> entry_ext k (Dict.get k (correlation_map e)) new ->
  wf (with_map e (Dict.set k new (correlation_map e))).
Proof.
  intros [Hnd Hent Himp Hlnk] Hext. split.
  - simpl. now apply NoDup_keys_set.
  - intros k0 d Hk0. simpl. rewrite get_set.
    destruct (decide (k0 = k)) as [->|Hne]; [|now apply Hent].
    intros [= <-]. destruct new as [r'|c]; [now exists r'|].
    now destruct Hext.
  - intros k0 r. rewrite record_at_set.
    destruct (decide (k0 = k)) as [->|Hne]; [|now apply Himp].
    destruct new as [r'|c]; [|easy]. intros [= <-]. now destruct Hext.
  - intros a ra b. rewrite record_at_set.
    assert (Hold : forall x rx, record_at e x = Some rx ->
              Dict.get x (correlation_map e) = Some (Entity rx)).
    { intros x rx. unfold record_at.
      destruct (Dict.get x (correlation_map e)) as [[?|?]|]; congruence. }
    destruct (decide (a = k)) as [->|Hne].
    + destruct new as [r'|c]; [|easy]. intros [= <-] Hb.
      destruct Hext as [_ Hext].
      destruct (Dict.get k (correlation_map e)) as [[r|c]|] eqn:E.
      * destruct Hext as [Hl Hs]. rewrite Hl in Hb.
        assert (Hr : record_at e k = Some r) by (unfold record_at; now rewrite E).
        destruct (Hlnk k r b Hr Hb) as (H1 & H2 & H3 & rb & H4 & H5 & H6).
        repeat split; try easy. exists rb. rewrite record_at_set.
        destruct (decide (b = k)); [congruence|]. repeat split; try easy.
        set_solver.
      * destruct Hext as [_ Hl]. rewrite Hl in Hb. set_solver.
      * rewrite Hext in Hb. set_solver.
    + intros Ha Hb.
      destruct (Hlnk a ra b Ha Hb) as (H1 & H2 & H3 & rb & H4 & H5 & H6).
      repeat split; try easy. rewrite record_at_set.
      destruct (decide (b = k)) as [->|Hbk]; [|now exists rb].
      rewrite (Hold _ _ H4) in Hext.
      destruct new as [r'|c].
      * destruct Hext as [_ [Hl Hs]]. exists r'. rewrite Hl.
        repeat split; try easy. set_solver.
      * destruct Hext as [_ Hl]. rewrite Hl in H5. set_solver.
Qed.

Lemma nonneg_zero : nonneg 0.
Proof. reflexivity. Qed.

Lemma wf_init : wf init.
Proof.
  split; simpl; try easy.
  - apply NoDup_nil_2.
Qed.

Lemma record_at_get e k r :
  record_at e k = Some r <-> Dict.get k (correlation_map e) = Some (Entity r).
Proof.
  unfold record_at.
  destruct (Dict.get k (correlation_map e)) as [[?|?]|]; split; congruence.
Qed.

Lemma wf_add_entity source entity e : wf e -> wf (snd (add_entity source entity e)).
Proof.
  intros Hwf.
  destruct (obs_value entity) as [v|] eqn:Hv;
    [|now rewrite add_entity_no_value].
  destruct (obs_type entity) as [t|] eqn:Ht;
    [|now rewrite (add_entity_no_type _ _ v)].
  rewrite (add_entity_eq _ _ v t) by easy. simpl.
  set (k := _normalize_key v). unfold item.
  destruct (Dict.get k (correlation_map e)) as [[r|c]|] eqn:E; simpl.
  - apply wf_set; [easy|]. rewrite E. simpl. split; [|split; [easy|set_solver]].
    apply FloatFacts.py_max_nonneg. simpl.
    apply (wf_importance _ Hwf k). now apply record_at_get.
  - apply wf_set; [easy|]. rewrite E. simpl. split; [|easy].
    destruct (decide (k = "raw_data")) as [|Hne]; [easy|].
    destruct (wf_entity _ Hwf k _ Hne E) as [r Hr]. congruence.
  - apply wf_set; [easy|]. rewrite E. simpl. split; [|easy].
    apply FloatFacts.py_max_nonneg. exact nonneg_zero.
Qed.

Lemma wf_add_parsed_entities parsed e :
  wf e -> wf (snd (add_parsed_entities parsed e)).
Proof.
  unfold add_parsed_entities. apply for_each_invariant.
  intros [source entities] e' He'. apply for_each_invariant; [|easy].
  intros entity e''. apply wf_add_entity.
Qed.

Lemma wf_add_raw_item it e : wf e -> wf (snd (add_raw_item it e)).
Proof.
  intros Hwf. destruct it as [source content].
  unfold add_raw_item, bind, has_key, setitem, getitem, Dict.getitem, Dict.mem.
  destruct (Dict.get "raw_data" (correlation_map e)) as [[r|c]|] eqn:E; simpl.
  - rewrite E. now destruct e.
  - rewrite E. simpl. change (wf (with_map e (Dict.set "raw_data"
      (Corpus (store_content source content c)) (correlation_map e)))).
    apply wf_set; [easy|]. now rewrite E.
  - rewrite get_set_eq. simpl. rewrite set_set.
    change (wf (with_map e (Dict.set "raw_data"
      (Corpus (store_content source content empty_corpus)) (correlation_map e)))).
    apply wf_set; [easy|]. now rewrite E.
Qed.

Lemma wf_add_raw_data raw e : wf e -> wf (snd (add_raw_data raw e)).
Proof.
  unfold add_raw_data. apply for_each_invariant. intros x e'. apply wf_add_raw_item.
Qed.

(** ** Link discovery *)

Lemma wf_relationships e l :
  wf e -> wf {| correlation_map := correlation_map e; relationships := l |}.
Proof. intros [H1 H2 H3 H4]. now split. Qed.

Lemma link_pair_eq k1 k2 r1 r2 e :
  record_at e k1 = Some r1 -> record_at e k2 = Some r2 -> k1 ≠ k2 ->
  link_pair k1 k2 e =
  (Ret tt,
   if decide (sources r1 ∩ sources r2 = ∅) then e
   else {| correlation_map :=
             Dict.set k2 (Entity (add_linked k1 r2))
               (Dict.set k1 (Entity (add_linked k2 r1)) (correlation_map e));
           relationships :=
             relationships e ++ [co_occurrence k1 k2 (sources r1 ∩ sources r2)] |}).
Proof.
  intros H1%record_at_get H2%record_at_get Hne.
  unfold link_pair, bind. rewrite (getitem_present _ _ _ H1), (getitem_present _ _ _ H2).
  simpl. destruct (decide (sources r1 ∩ sources r2 = ∅)); [easy|].
  unfold update_entity, bind. rewrite (getitem_present _ _ _ H1).
  unfold setitem at 1. simpl.
  unfold getitem, Dict.getitem. simpl.
  rewrite get_set_ne by congruence. rewrite H2. reflexivity.
Qed.

Lemma wf_link k1 k2 r1 r2 e l :
  wf e -> record_at e k1 = Some r1 -> record_at e k2 = Some r2 ->
  k1 ≠ k2 -> k1 ≠ "raw_data" -> k2 ≠ "raw_data" ->
  sources r1 ∩ sources r2 ≠ ∅ ->
  wf {| correlation_map :=
          Dict.set k2 (Entity (add_linked k1 r2))
            (Dict.set k1 (Entity (add_linked k2 r1)) (correlation_map e));
        relationships := l |}.
Proof.
  intros Hwf H1 H2 Hne Hr1 Hr2 Hcommon.
  assert (Hrec : forall k,
    record_at {| correlation_map :=
          Dict.set k2 (Entity (add_linked k1 r2))
            (Dict.set k1 (Entity (add_linked k2 r1)) (correlation_map e));
        relationships := l |} k =
    if decide (k = k2) then Some (add_linked k1 r2)
    else if decide (k = k1) then Some (add_linked k2 r1)
    else record_at e k).
  { intros k. unfold record_at. simpl. rewrite !get_set.
    destruct (decide (k = k2)); [easy|]. now destruct (decide (k = k1)). }
  split.
  - simpl. now apply NoDup_keys_set, NoDup_keys_set, Hwf.
  - intros k d Hk. simpl. rewrite !get_set.
    destruct (decide (k = k2)); [intros [= <-]; eauto|].
    destruct (decide (k = k1)); [intros [= <-]; eauto|].
    now apply (wf_entity _ Hwf).
  - intros k r. rewrite Hrec.
    destruct (decide (k = k2)) as [->|]; [intros [= <-]; exact (wf_importance _ Hwf k2 r2 H2)|].
    destruct (decide (k = k1)) as [->|]; [intros [= <-]; exact (wf_importance _ Hwf k1 r1 H1)|].
    now apply (wf_importance _ Hwf).
  - assert (Hother : forall a ra b, record_at e a = Some ra -> b ∈ linked_entities ra ->
      a ≠ "raw_data" /\ b ≠ "raw_data" /\ a ≠ b /\
      exists rb, (if decide (b = k2) then Some (add_linked k1 r2)
                  else if decide (b = k1) then Some (add_linked k2 r1)
                  else record_at e b) = Some rb /\
                 a ∈ linked_entities rb /\ sources ra ∩ sources rb ≠ ∅).
    { intros a ra b Ha Hb.
      destruct (wf_links _ Hwf a ra b Ha Hb) as (A1 & A2 & A3 & rb & A4 & A5 & A6).
      repeat split; try easy.
      destruct (decide (b = k2)) as [->|].
      - exists (add_linked k1 r2). assert (rb = r2) by congruence. subst rb.
        repeat split; [|easy]. simpl. set_solver.
      - destruct (decide (b = k1)) as [->|]; [|now exists rb].
        exists (add_linked k2 r1). assert (rb = r1) by congruence. subst rb.
        repeat split; [|easy]. simpl. set_solver. }
    intros a ra b. rewrite Hrec. setoid_rewrite Hrec.
    destruct (decide (a = k2)) as [->|Ha2].
    + intros [= <-]. simpl. intros [Hb| ->%elem_of_singleton]%elem_of_union.
      * now apply (Hother k2 r2 b).
      * repeat split; try easy; try congruence.
        destruct (decide (k1 = k2)); [congruence|].
        destruct (decide (k1 = k1)); [|congruence].
        exists (add_linked k2 r1). repeat split; simpl; set_solver.
    + destruct (decide (a = k1)) as [->|Ha1]; [|now apply Hother].
      intros [= <-]. simpl. intros [Hb| ->%elem_of_singleton]%elem_of_union.
      * now apply (Hother k1 r1 b).
      * repeat split; try easy.
        destruct (decide (k2 = k2)); [|congruence].
        exists (add_linked k1 r2). repeat split; simpl; set_solver.
Qed.

Lemma grows_refl e : grows e e.
Proof. now repeat split. Qed.

Lemma grows_trans e1 e2 e3 : grows e1 e2 -> grows e2 e3 -> grows e1 e3.
Proof.
  intros (K1 & U1 & L1) (K2 & U2 & L2). repeat split.
  - congruence.
  - intros k. now rewrite U2.
  - intros k. specialize (L1 k). specialize (L2 k). set_solver.
Qed.

Lemma grows_srcs e e' k : grows e e' -> srcs e' k = srcs e k.
Proof.
  intros (_ & U & _). specialize (U k). unfold srcs, item.
  destruct (Dict.get k (correlation_map e')) as [[r'|c']|],
           (Dict.get k (correlation_map e)) as [[r|c]|]; simpl in *; congruence.
Qed.

Lemma grows_entity_keys e e' :
  grows e e' -> entity_keys (correlation_map e') = entity_keys (correlation_map e).
Proof. intros (K & _). unfold entity_keys. now rewrite K. Qed.

Lemma grows_pair_rel e e' k1 k2 : grows e e' -> pair_rel e' k1 k2 = pair_rel e k1 k2.
Proof. intros H. unfold pair_rel. now rewrite !(grows_srcs e e'). Qed.

Lemma grows_pass_rels e e' ks : grows e e' -> pass_rels e' ks = pass_rels e ks.
Proof.
  intros H. induction ks as [|k1 rest IH]; simpl; [easy|]. rewrite IH. f_equal.
  apply flat_map_ext. intros k2. now apply grows_pair_rel.
Qed.

Lemma entity_key_record e k :
  wf e -> k ∈ entity_keys (correlation_map e) ->
  k ≠ "raw_data" /\ exists r, record_at e k = Some r.
Proof.
  intros Hwf [Hne Hk]%list_elem_of_filter. split; [easy|].
  destruct (keys_get _ _ Hk) as [d Hd].
  destruct (wf_entity _ Hwf k d Hne Hd) as [r ->].
  exists r. now apply record_at_get.
Qed.

Lemma srcs_record e k r : record_at e k = Some r -> srcs e k = sources r.
Proof. intros H%record_at_get. unfold srcs, item. now rewrite H. Qed.

Lemma links_record e k r : record_at e k = Some r -> links e k = linked_entities r.
Proof. intros H. unfold links. now rewrite H. Qed.

Lemma wf_links_sym e a b : wf e -> b ∈ links e a -> a ∈ links e b.
Proof.
  intros Hwf. unfold links at 1.
  destruct (record_at e a) as [ra|] eqn:Ha; [|set_solver].
  intros Hb. destruct (wf_links _ Hwf a ra b Ha Hb) as (_ & _ & _ & rb & Hrb & Hab & _).
  now rewrite (links_record _ _ _ Hrb).
Qed.

Lemma wf_links_sound e a b :
  wf e -> b ∈ links e a ->
  a ≠ b /\ a ∈ entity_keys (correlation_map e) /\ b ∈ entity_keys (correlation_map e)
  /\ srcs e a ∩ srcs e b ≠ ∅.
Proof.
  intros Hwf. unfold links.
  destruct (record_at e a) as [ra|] eqn:Ha; [|set_solver].
  intros Hb. destruct (wf_links _ Hwf a ra b Ha Hb) as (A1 & A2 & A3 & rb & Hrb & Hab & Hs).
  rewrite (srcs_record _ _ _ Ha), (srcs_record _ _ _ Hrb).
  repeat split; try easy; apply list_elem_of_filter; split; try easy.
  - apply record_at_get in Ha. now apply get_Some_keys in Ha.
  - apply record_at_get in Hrb. now apply get_Some_keys in Hrb.
Qed.

Lemma link_pair_spec k1 k2 e :
  wf e ->
  k1 ∈ entity_keys (correlation_map e) -> k2 ∈ entity_keys (correlation_map e) ->
  k1 ≠ k2 ->
  exists e', link_pair k1 k2 e = (Ret tt, e') /\ wf e' /\ grows e e' /\
             (srcs e k1 ∩ srcs e k2 ≠ ∅ -> k2 ∈ links e' k1) /\
             relationships e' = relationships e ++ pair_rel e k1 k2.
Proof.
  intros Hwf H1 H2 Hne.
  destruct (entity_key_record e k1 Hwf H1) as [Hr1 [r1 R1]].
  destruct (entity_key_record e k2 Hwf H2) as [Hr2 [r2 R2]].
  rewrite (link_pair_eq k1 k2 r1 r2) by easy.
  unfold pair_rel. rewrite (srcs_record _ _ _ R1), (srcs_record _ _ _ R2).
  destruct (decide (sources r1 ∩ sources r2 = ∅)) as [Hc|Hc].
  - exists e. split; [easy|]. split; [easy|]. split; [apply grows_refl|].
    split; [easy|]. now rewrite app_nil_r.
  - eexists. split; [reflexivity|].
    pose proof R1 as G1%record_at_get. pose proof R2 as G2%record_at_get.
    split; [now apply wf_link|]. split; [|split; [|easy]].
    + repeat split; simpl.
      * rewrite (keys_set_present k2 _ (Entity r2)),
                (keys_set_present k1 _ (Entity r1)); try easy.
        now rewrite get_set_ne.
      * intros k. rewrite !get_set.
        destruct (decide (k = k2)) as [->|]; [now rewrite G2|].
        destruct (decide (k = k1)) as [->|]; [now rewrite G1|easy].
      * intros k. unfold links, record_at. simpl. rewrite !get_set.
        destruct (decide (k = k2)) as [->|]; [rewrite G2; simpl; set_solver|].
        destruct (decide (k = k1)) as [->|]; [rewrite G1; simpl; set_solver|easy].
    + intros _. unfold links, record_at. simpl. rewrite !get_set.
      destruct (decide (k1 = k2)); [congruence|].
      destruct (decide (k1 = k1)); [|congruence]. simpl. set_solver.
Qed.

Lemma link_row_spec k1 rest e :
  wf e -> k1 ∈ entity_keys (correlation_map e) ->
  (forall b, b ∈ rest -> b ∈ entity_keys (correlation_map e) /\ b ≠ k1) ->
  exists e', for_each rest (link_pair k1) e = (Ret tt, e') /\ wf e' /\ grows e e' /\
             (forall b, b ∈ rest -> srcs e k1 ∩ srcs e b ≠ ∅ -> b ∈ links e' k1) /\
             relationships e' = relationships e ++ flat_map (pair_rel e k1) rest.
Proof.
  revert e. induction rest as [|k2 rest IH]; intros e Hwf H1 Hrest.
  - exists e. simpl. split; [easy|]. split; [easy|]. split; [apply grows_refl|].
    split; [|now rewrite app_nil_r].
    intros b Hb. now apply elem_of_nil in Hb.
  - destruct (Hrest k2) as [H2 Hne]; [apply elem_of_cons; now left|].
    destruct (link_pair_spec k1 k2 e Hwf H1 H2) as (e1 & E1 & W1 & G1 & C1 & R1);
      [congruence|].
    destruct (IH e1 W1) as (e' & E' & W' & G' & C' & R').
    { now rewrite (grows_entity_keys e e1). }
    { intros b Hb. rewrite (grows_entity_keys e e1) by easy.
      apply Hrest, elem_of_cons. now right. }
    exists e'. simpl. unfold bind. rewrite E1. split; [exact E'|].
    split; [easy|]. split; [now apply (grows_trans e e1 e')|]. split.
    + intros b [->|Hb]%elem_of_cons Hc.
      * destruct G' as (_ & _ & L'). apply (L' k1). now apply C1.
      * apply C'; [easy|]. now rewrite !(grows_srcs e e1).
    + rewrite R', R1, <- app_assoc. f_equal. f_equal.
      apply flat_map_ext. intros b. now apply grows_pair_rel.
Qed.

Lemma link_all_spec ks e :
  wf e -> NoDup ks -> (forall k, k ∈ ks -> k ∈ entity_keys (correlation_map e)) ->
  exists e', link_all ks e = (Ret tt, e') /\ wf e' /\ grows e e' /\
             (forall a b, a ∈ ks -> b ∈ ks -> a ≠ b ->
                          srcs e a ∩ srcs e b ≠ ∅ -> b ∈ links e' a) /\
             relationships e' = relationships e ++ pass_rels e ks.
Proof.
  revert e. induction ks as [|k1 rest IH]; intros e Hwf Hnd Hks.
  - exists e. simpl. split; [easy|]. split; [easy|]. split; [apply grows_refl|].
    split; [|now rewrite app_nil_r].
    intros a b Ha. now apply elem_of_nil in Ha.
  - apply NoDup_cons in Hnd as [Hk1 Hnd].
    destruct (link_row_spec k1 rest e Hwf) as (e1 & E1 & W1 & G1 & C1 & R1).
    { apply Hks, elem_of_cons. now left. }
    { intros b Hb. split; [apply Hks, elem_of_cons; now right|]. intros ->. easy. }
    destruct (IH e1 W1 Hnd) as (e' & E' & W' & G' & C' & R').
    { intros k Hk. rewrite (grows_entity_keys e e1) by easy.
      apply Hks, elem_of_cons. now right. }
    exists e'. simpl. unfold bind. rewrite E1. split; [exact E'|].
    split; [easy|]. split; [now apply (grows_trans e e1 e')|]. split.
    + assert (Hrow : forall b, b ∈ rest -> srcs e k1 ∩ srcs e b ≠ ∅ -> b ∈ links e' k1).
      { intros b Hb Hc. destruct G' as (_ & _ & L'). apply (L' k1). now apply C1. }
      intros a b [->|Ha]%elem_of_cons [->|Hb]%elem_of_cons Hab Hc.
      * congruence.
      * now apply Hrow.
      * apply wf_links_sym; [easy|]. apply Hrow; [easy|].
        now rewrite (comm_L (∩)).
      * apply C'; try easy. now rewrite !(grows_srcs e e1).
    + rewrite R', R1, <- app_assoc. f_equal. f_equal. now apply grows_pass_rels.
Qed.

(** ** Scoring and the result *)

Lemma score_row_spec l e :
  wf e -> (forall k, k ∈ l -> k ∈ Dict.keys (correlation_map e)) ->
  exists e',
    for_each l (fun entity_key =>
      if decide (entity_key = "raw_data") then ret tt
      else update_entity entity_key "importance" set_final_score) e = (Ret tt, e')
    /\ wf e'
    /\ Dict.keys (correlation_map e') = Dict.keys (correlation_map e)
    /\ relationships e' = relationships e
    /\ forall k, Dict.get k (correlation_map e') =
                 if decide (k ∈ l /\ k ≠ "raw_data")
                 then scored <$> Dict.get k (correlation_map e)
                 else Dict.get k (correlation_map e).
Proof.
  revert e. induction l as [|k0 l IH]; intros e Hwf Hl.
  - exists e. split; [reflexivity|]. split; [easy|]. split; [easy|]. split; [easy|].
    intros k. case_decide as H; [|easy]. destruct H as [H _]. now apply elem_of_nil in H.
  - assert (Hk0 : k0 ∈ Dict.keys (correlation_map e)) by (apply Hl, elem_of_cons; now left).
    assert (Hl' : forall k, k ∈ l -> k ∈ Dict.keys (correlation_map e))
      by (intros k Hk; apply Hl, elem_of_cons; now right).
    simpl. unfold bind at 1.
    destruct (decide (k0 = "raw_data")) as [->|Hne].
    + destruct (IH e Hwf Hl') as (e' & E' & W' & K' & R' & G').
      exists e'. simpl. split; [exact E'|]. split; [easy|]. split; [easy|]. split; [easy|].
      intros k. rewrite G'.
      repeat case_decide; try reflexivity; exfalso; set_solver.
    + destruct (keys_get _ _ Hk0) as [d Hd].
      destruct (wf_entity _ Hwf k0 d Hne Hd) as [r ->].
      unfold update_entity, bind. rewrite (getitem_present _ _ _ Hd).
      unfold setitem at 1.
      change {| correlation_map := Dict.set k0 (Entity (set_final_score r)) (correlation_map e);
                relationships := relationships e |}
        with (with_map e (Dict.set k0 (Entity (set_final_score r)) (correlation_map e))).
      set (e1 := with_map e (Dict.set k0 (Entity (set_final_score r)) (correlation_map e))).
      assert (W1 : wf e1).
      { apply wf_set; [easy|]. rewrite Hd. simpl. split; [|easy].
        apply (wf_importance _ Hwf k0). now apply record_at_get. }
      assert (K1 : Dict.keys (correlation_map e1) = Dict.keys (correlation_map e))
        by (simpl; now apply (keys_set_present k0 _ (Entity r))).
      destruct (IH e1 W1) as (e' & E' & W' & K' & R' & G').
      { intros k Hk. rewrite K1. now apply Hl'. }
      exists e'. split; [exact E'|]. split; [easy|]. split; [congruence|]. split; [easy|].
      intros k. rewrite G'. simpl. rewrite get_set.
      destruct (decide (k = k0)) as [->|Hk].
      * rewrite Hd. repeat case_decide; try reflexivity; exfalso; set_solver.
      * repeat case_decide; try reflexivity; exfalso; set_solver.
Qed.

Lemma calculate_entity_scores_spec e :
  wf e ->
  exists e', _calculate_entity_scores e = (Ret tt, e') /\ wf e'
    /\ Dict.keys (correlation_map e') = Dict.keys (correlation_map e)
    /\ relationships e' = relationships e
    /\ forall k, Dict.get k (correlation_map e') =
                 if decide (k = "raw_data") then Dict.get k (correlation_map e)
                 else scored <$> Dict.get k (correlation_map e).
Proof.
  intros Hwf. unfold _calculate_entity_scores.
  destruct (score_row_spec (Dict.keys (correlation_map e)) e Hwf) as (e' & E' & W' & K' & R' & G');
    [easy|].
  exists e'. split; [exact E'|]. split; [easy|]. split; [easy|]. split; [easy|].
  intros k. rewrite G'.
  destruct (decide (k = "raw_data")) as [->|Hne].
  - case_decide as H; [|easy]. now destruct H.
  - case_decide as Hn; [easy|].
    destruct (Dict.get k (correlation_map e)) as [d|] eqn:E; [|easy].
    destruct Hn. split; [|easy]. now apply get_Some_keys in E.
Qed.

Lemma count_linked_spec ks e :
  wf e -> (forall k, k ∈ ks -> k ∈ entity_keys (correlation_map e)) ->
  count_linked ks e = (Ret (length (filter (fun k => 0 < size (links e k)) ks)), e).
Proof.
  intros Hwf. induction ks as [|k ks IH]; intros Hks; [easy|].
  destruct (entity_key_record e k Hwf) as [_ [r Hr]]; [apply Hks, elem_of_cons; now left|].
  simpl. unfold bind at 1. rewrite (getitem_present k (Entity r)) by now apply record_at_get.
  unfold bind. rewrite IH by (intros k' Hk'; apply Hks, elem_of_cons; now right).
  unfold ret. rewrite filter_cons, (links_record _ _ _ Hr).
  now destruct (decide (0 < size (linked_entities r))).
Qed.

Lemma NoDup_entity_keys e : wf e -> NoDup (entity_keys (correlation_map e)).
Proof. intros Hwf. apply NoDup_filter, (wf_nodup _ Hwf). Qed.

Section AfterScores.
Variables e1 e2 : Engine.
Hypothesis G : forall k, Dict.get k (correlation_map e2) =
                 if decide (k = "raw_data") then Dict.get k (correlation_map e1)
                 else scored <$> Dict.get k (correlation_map e1).

Lemma scored_get k :
  exists f, (f = scored \/ f = id) /\
            Dict.get k (correlation_map e2) = f <$> Dict.get k (correlation_map e1).
Proof.
  rewrite G. case_decide.
  - exists id. split; [now right|]. now destruct (Dict.get k (correlation_map e1)).
  - exists scored. split; [now left|easy].
Qed.

Lemma scored_srcs k : srcs e2 k = srcs e1 k.
Proof.
  unfold srcs, item. destruct (scored_get k) as (f & [-> | ->] & ->);
    now destruct (Dict.get k (correlation_map e1)) as [[r|c]|].
Qed.

Lemma scored_links k : links e2 k = links e1 k.
Proof.
  unfold links, record_at. destruct (scored_get k) as (f & [-> | ->] & ->);
    now destruct (Dict.get k (correlation_map e1)) as [[r|c]|].
Qed.

Lemma scored_record k r :
  record_at e1 k = Some r ->
  exists r', record_at e2 k = Some r' /\ type r' = type r /\
             importance r' = importance r /\ sources r' = sources r /\
             occurrences r' = occurrences r /\
             linked_entities r' = linked_entities r /\
             (k ≠ "raw_data" -> final_score r' = Some (score_of r')).
Proof.
  intros H%record_at_get. unfold record_at. rewrite G, H. case_decide.
  - exists r. now repeat split.
  - exists (set_final_score r). now repeat split.
Qed.
End AfterScores.

Lemma grows_record e e' k r :
  grows e e' -> record_at e k = Some r ->
  exists r', record_at e' k = Some r' /\ type r' = type r /\
             importance r' = importance r /\ sources r' = sources r /\
             occurrences r' = occurrences r /\ final_score r' = final_score r.
Proof.
  intros (_ & U & _) H%record_at_get. specialize (U k). rewrite H in U.
  unfold record_at.
  destruct (Dict.get k (correlation_map e')) as [[r'|c']|]; simpl in U; try congruence.
  exists r'. injection U as U1 U2 U3 U4 U5. now repeat split.
Qed.

Lemma raw_data_unlinked e r :
  wf e -> record_at e "raw_data" = Some r -> linked_entities r = ∅.
Proof.
  intros Hwf Hr. apply set_eq. intros b. split; [|set_solver].
  intros Hb. now destruct (wf_links _ Hwf "raw_data" r b Hr Hb) as (H & _).
Qed.

(** [correlate] returns on every state that satisfies the invariant, and
    what it returns and leaves is described by [correlated]. *)
Lemma correlate_spec e :
  wf e -> exists res e', correlate e = (Ret res, e') /\ correlated e res e'.
Proof.
  intros Hwf. unfold correlate, bind, _find_entity_links.
  destruct (link_all_spec (entity_keys (correlation_map e)) e Hwf)
    as (e1 & E1 & W1 & G1 & C1 & R1); [now apply NoDup_entity_keys|easy|].
  rewrite E1.
  destruct (calculate_entity_scores_spec e1 W1) as (e2 & E2 & W2 & K2 & R2 & G2).
  rewrite E2. unfold compile_result, bind.
  assert (K : Dict.keys (correlation_map e2) = Dict.keys (correlation_map e))
    by (destruct G1 as (K1 & _); congruence).
  assert (EK : entity_keys (correlation_map e2) = entity_keys (correlation_map e))
    by (unfold entity_keys; now rewrite K).
  rewrite count_linked_spec; [|easy|now intros k Hk].
  eexists. exists e2. split; [reflexivity|].
  split; simpl; rewrite ?EK; try reflexivity; try easy.
  - intros k. now rewrite (scored_srcs e1 e2 G2), (grows_srcs e e1).
  - intros k. rewrite (scored_links e1 e2 G2). now destruct G1 as (_ & _ & L1).
  - intros a b Ha Hb Hab Hc. rewrite (scored_links e1 e2 G2). now apply C1.
  - intros k Hk. rewrite <- (grows_entity_keys e e1 G1) in Hk.
    destruct (entity_key_record e1 k W1 Hk) as [Hne [r1 Hr1]].
    destruct (scored_record e1 e2 G2 k r1 Hr1) as (r' & H1 & _ & _ & _ & _ & _ & H2).
    exists r'. split; [easy|]. now apply H2.
  - intros k r Hr.
    destruct (grows_record e e1 k r G1 Hr) as (r1 & Hr1 & T1 & I1 & S1 & O1 & _).
    destruct (scored_record e1 e2 G2 k r1 Hr1) as (r' & H1 & T2 & I2 & S2 & O2 & _).
    exists r'. repeat split; congruence.
  - rewrite G2. rewrite decide_True by easy.
    destruct G1 as (_ & U1 & _). specialize (U1 "raw_data").
    destruct (Dict.get "raw_data" (correlation_map e1)) as [[r1|c1]|] eqn:A1,
             (Dict.get "raw_data" (correlation_map e)) as [[r0|c0]|] eqn:A0;
      simpl in U1; try congruence.
    apply record_at_get in A1, A0.
    pose proof (raw_data_unlinked e1 r1 W1 A1) as L1.
    pose proof (raw_data_unlinked e r0 Hwf A0) as L0.
    destruct r1, r0. simpl in *. congruence.
  - congruence.
Qed.

Lemma wf_correlate e : wf e -> wf (snd (correlate e)).
Proof.
  intros Hwf. destruct (correlate_spec e Hwf) as (res & e' & E & C).
  rewrite E. exact (cor_wf _ _ _ C).
Qed.

(** Every state the engine reaches satisfies the invariant. *)
Lemma wf_exec c e : wf e -> wf (exec c e).
Proof.
  destruct c; simpl.
  - apply wf_add_raw_data.
  - apply wf_add_parsed_entities.
  - apply wf_correlate.
  - easy.
Qed.

Lemma wf_steps history e : wf e -> wf (fold_left (fun e c => exec c e) history e).
Proof.
  revert e. induction history as [|c history IH]; intros e Hwf; simpl; [easy|].
  now apply IH, wf_exec.
Qed.

Lemma wf_run history : wf (run history).
Proof. apply wf_steps, wf_init. Qed.

(* ===================================================================== *)
(** * Part III: the stated properties                                     *)
(* ===================================================================== *)

(** ** Normalization *)



(** [str.lower] can lengthen a string, and the lowercase of a capital
    sigma depends on what stands around it. *)
Lemma lower_examples :
  UStr.lower [0x130]%N = [0x69; 0x307]%N
  /\ UStr.lower [0x39F; 0x394; 0x39F; 0x3A3]%N = [0x3BF; 0x3B4; 0x3BF; 0x3C2]%N
  /\ UStr.lower [0x3A3; 0x39F]%N = [0x3C3; 0x3BF]%N
  /\ UStr.lower [0x41; 0x27; 0x3A3; 0x2E; 0x20; 0x3A3]%N
     = [0x61; 0x27; 0x3C2; 0x2E; 0x20; 0x3C3]%N.
Proof. vm_compute. repeat split. Qed.




(** ** Whitespace-only values *)

Lemma with_blank_idem ks : with_blank (with_blank ks) = with_blank ks.
Proof.
  unfold with_blank. destruct (decide ("" ∈ ks)) as [H|H].
  - now rewrite decide_True.
  - rewrite decide_True; [easy|]. set_solver.
Qed.

Lemma entity_keys_with_blank m :
  length (filter (fun k => k ≠ "raw_data") (with_blank (Dict.keys m))) =
  length (entity_keys m) + (if decide ("" ∈ Dict.keys m) then 0 else 1).
Proof.
  unfold with_blank, entity_keys. case_decide; [lia|].
  rewrite filter_app, length_app. f_equal.
Qed.

Lemma add_entity_blank source o e :
  wf e -> blank_observation o ->
  exists e', add_entity source o e = (Ret tt, e') /\ wf e'
    /\ Dict.keys (correlation_map e') = with_blank (Dict.keys (correlation_map e))
    /\ old_occurrences e' "" = old_occurrences e "" ++ [o].
Proof.
  intros Hwf (v & t & Hv & Ht & Hs).
  pose proof (wf_add_entity source o e Hwf) as Hwf'.
  pose proof (StrFacts.normalize_all_space v Hs) as Hk.
  destruct (item_entity e "" Hwf) as [r Hr]; [easy|].
  rewrite <- Hk in Hr.
  rewrite (add_entity_record _ _ v t r) in * by easy. rewrite Hk in *.
  eexists. split; [reflexivity|]. split; [exact Hwf'|]. split.
  - simpl. rewrite keys_set. unfold with_blank, Dict.mem.
    destruct (Dict.get "" (correlation_map e)) as [d|] eqn:E.
    + rewrite decide_True; [easy|]. now apply get_Some_keys in E.
    + rewrite decide_False; [easy|]. now apply get_None.
  - unfold old_occurrences, record_at. simpl. rewrite get_set_eq. simpl.
    unfold item in Hr. destruct (Dict.get "" (correlation_map e)) as [d|]; simpl in Hr.
    + now rewrite Hr.
    + now injection Hr as <-.
Qed.

Lemma add_blank_row source l e :
  wf e -> Forall blank_observation l ->
  exists e', for_each l (add_entity source) e = (Ret tt, e') /\ wf e'
    /\ Dict.keys (correlation_map e') =
       match l with [] => Dict.keys (correlation_map e)
                  | _ => with_blank (Dict.keys (correlation_map e)) end
    /\ old_occurrences e' "" = old_occurrences e "" ++ l.
Proof.
  revert e. induction l as [|o l IH]; intros e Hwf Hl.
  - exists e. split; [easy|]. split; [easy|]. split; [easy|]. now rewrite app_nil_r.
  - apply Forall_cons in Hl as [Ho Hl].
    destruct (add_entity_blank source o e Hwf Ho) as (e1 & E1 & W1 & K1 & O1).
    destruct (IH e1 W1 Hl) as (e' & E' & W' & K' & O').
    exists e'. simpl. unfold bind. rewrite E1. split; [exact E'|]. split; [easy|]. split.
    + rewrite K', K1. destruct l; [easy|]. apply with_blank_idem.
    + rewrite O', O1. now rewrite <- app_assoc.
Qed.

Lemma add_blank_batch parsed e :
  wf e -> Forall (fun p => Forall blank_observation (snd p)) parsed ->
  exists e', add_parsed_entities parsed e = (Ret tt, e') /\ wf e'
    /\ Dict.keys (correlation_map e') =
       match observations parsed with
       | [] => Dict.keys (correlation_map e)
       | _ => with_blank (Dict.keys (correlation_map e))
       end
    /\ old_occurrences e' "" = old_occurrences e "" ++ observations parsed.
Proof.
  unfold add_parsed_entities, observations.
  revert e. induction parsed as [|[source l] parsed IH]; intros e Hwf Hp.
  - exists e. split; [easy|]. split; [easy|]. split; [easy|]. simpl. now rewrite app_nil_r.
  - apply Forall_cons in Hp as [Hl Hp]. simpl in Hl.
    destruct (add_blank_row source l e Hwf Hl) as (e1 & E1 & W1 & K1 & O1).
    destruct (IH e1 W1 Hp) as (e' & E' & W' & K' & O').
    exists e'. simpl. unfold bind. rewrite E1. split; [exact E'|]. split; [easy|]. split.
    + rewrite K', K1. destruct l as [|o l]; simpl; [easy|].
      destruct (concat (map snd parsed)); [easy|]. apply with_blank_idem.
    + rewrite O', O1. now rewrite <- app_assoc.
Qed.

(** C10. A value that is empty or all whitespace has the empty string as
    its key. A batch of such observations, whatever their sources, is
    ingested without an exception on any reachable engine; it adds the one
    key [""] (if the map did not hold it yet) and nothing else, files every
    observation of the batch under that key in order, and [correlate] then
    counts one more entity at most. On a fresh engine the count is 1. *)
Theorem whitespace_values_share_the_empty_key :
  (forall v, Str.all_space v = true -> _normalize_key v = "") /\
  (forall history parsed,
      Forall (fun p => Forall blank_observation (snd p)) parsed ->
      observations parsed ≠ [] ->
      exists e' res e'',
        add_parsed_entities parsed (run history) = (Ret tt, e')
        /\ Dict.keys (correlation_map e')
           = with_blank (Dict.keys (correlation_map (run history)))
        /\ old_occurrences e' "" = old_occurrences (run history) "" ++ observations parsed
        /\ correlate e' = (Ret res, e'')
        /\ total_entities res
           = length (entity_keys (correlation_map (run history)))
             + (if decide ("" ∈ Dict.keys (correlation_map (run history))) then 0 else 1)) /\
  (forall parsed,
      Forall (fun p => Forall blank_observation (snd p)) parsed ->
      observations parsed ≠ [] ->
      exists e' res e'',
        add_parsed_entities parsed init = (Ret tt, e')
        /\ Dict.keys (correlation_map e') = [""]
        /\ correlate e' = (Ret res, e'')
        /\ total_entities res = 1).
Proof.
  assert (Hmain : forall history parsed,
      Forall (fun p => Forall blank_observation (snd p)) parsed ->
      observations parsed ≠ [] ->
      exists e' res e'',
        add_parsed_entities parsed (run history) = (Ret tt, e')
        /\ Dict.keys (correlation_map e')
           = with_blank (Dict.keys (correlation_map (run history)))
        /\ old_occurrences e' "" = old_occurrences (run history) "" ++ observations parsed
        /\ correlate e' = (Ret res, e'')
        /\ total_entities res
           = length (entity_keys (correlation_map (run history)))
             + (if decide ("" ∈ Dict.keys (correlation_map (run history))) then 0 else 1)).
  { intros history parsed Hp Hne.
    destruct (add_blank_batch parsed (run history) (wf_run history) Hp)
      as (e' & E' & W' & K' & O').
    destruct (correlate_spec e' W') as (res & e'' & E'' & C'').
    exists e', res, e''. destruct (observations parsed) eqn:Eo; [easy|].
    repeat split; try easy.
    rewrite (cor_total _ _ _ C''). unfold entity_keys at 1. rewrite K'.
    apply entity_keys_with_blank. }
  split; [exact StrFacts.normalize_all_space|]. split; [exact Hmain|].
  intros parsed Hp Hne.
  destruct (Hmain [] parsed Hp Hne) as (e' & res & e'' & E' & K' & _ & E'' & T).
  exists e', res, e''. now repeat split.
Qed.

Lemma whitespace_values_share_the_empty_key_witness :
  exists e' res e'',
    add_parsed_entities [("source1", [obs "NOTE" "   "]); ("source2", [obs "NOTE" ""])] init
      = (Ret tt, e')
    /\ Dict.keys (correlation_map e') = [""]
    /\ correlate e' = (Ret res, e'')
    /\ total_entities res = 1.
Proof.
  apply (proj2 (proj2 whitespace_values_share_the_empty_key)
           [("source1", [obs "NOTE" "   "]); ("source2", [obs "NOTE" ""])]).
  - repeat constructor; simpl.
    + exists "   ", "NOTE". now repeat split.
    + exists "", "NOTE". now repeat split.
  - discriminate.
Defined.

(** ** The type of a record *)

(** A relation between the state before and the state after that every
    step of a computation keeps, when it is a preorder. *)
Section Preserves.
Variable R : Engine -> Engine -> Prop.
Hypothesis R_refl : forall e, R e e.
Hypothesis R_trans : forall e1 e2 e3, R e1 e2 -> R e2 e3 -> R e1 e3.

Lemma preserves_ret {A} (a : A) : preserves R (ret a).
Proof. intros e. apply R_refl. Qed.

Lemma preserves_raise {A} x : preserves R (@raise A x).
Proof. intros e. apply R_refl. Qed.

Lemma preserves_bind {A B} (c : M A) (k : A -> M B) :
  preserves R c -> (forall a, preserves R (k a)) -> preserves R (bind c k).
Proof.
  intros Hc Hk e. unfold bind. specialize (Hc e).
  destruct (c e) as [[a|x] e1]; simpl in *; [|easy].
  exact (R_trans _ _ _ Hc (Hk a e1)).
Qed.

Lemma preserves_for_each {B} (l : list B) (body : B -> M unit) :
  (forall x, preserves R (body x)) -> preserves R (for_each l body).
Proof.
  intros Hb. induction l as [|x l IH]; simpl; [apply preserves_ret|].
  apply preserves_bind; auto.
Qed.

Lemma preserves_reading {A B} (g : Engine -> B) (c : B -> M A) :
  (forall b, preserves R (c b)) -> preserves R (fun e => c (g e) e).
Proof. intros H e. apply H. Qed.
End Preserves.

Lemma keeps_types_refl e : keeps_types e e.
Proof. intros k d t H1 H2. now exists d. Qed.

Lemma keeps_types_trans e1 e2 e3 :
  keeps_types e1 e2 -> keeps_types e2 e3 -> keeps_types e1 e3.
Proof.
  intros H12 H23 k d t H1 H2.
  destruct (H12 k d t H1 H2) as (d' & H1' & H2'). now apply (H23 k d').
Qed.

Lemma keeps_types_set e k new l :
  (forall d t, Dict.get k (correlation_map e) = Some d -> entry_type d = Some t ->
               entry_type new = Some t) ->
  keeps_types e {| correlation_map := Dict.set k new (correlation_map e);
                   relationships := l |}.
Proof.
  intros H k0 d t H1 H2. simpl. rewrite get_set.
  destruct (decide (k0 = k)) as [->|]; [|now exists d].
  exists new. split; [easy|]. now apply (H d).
Qed.

Lemma keeps_types_same_map e e' :
  correlation_map e' = correlation_map e -> keeps_types e e'.
Proof. intros H k d t H1 H2. exists d. now rewrite H. Qed.

Lemma keeps_types_getitem k : preserves keeps_types (getitem k).
Proof.
  intros e. unfold getitem, Dict.getitem.
  destruct (Dict.get k (correlation_map e)) eqn:E; simpl.
  - now apply keeps_types_same_map.
  - apply keeps_types_set. congruence.
Qed.

Lemma keeps_types_update_entity k field f :
  (forall r, type (f r) = type r) -> preserves keeps_types (update_entity k field f).
Proof.
  intros Hf e. unfold update_entity, bind, getitem, Dict.getitem.
  destruct (Dict.get k (correlation_map e)) as [[r|c]|] eqn:E; simpl.
  - apply keeps_types_set. intros d t Hd. rewrite E in Hd. injection Hd as <-.
    simpl. now rewrite Hf.
  - now apply keeps_types_same_map.
  - rewrite set_set. apply keeps_types_set. congruence.
Qed.

Lemma keeps_types_add_entity source o : preserves keeps_types (add_entity source o).
Proof.
  intros e.
  destruct (obs_value o) as [v|] eqn:Hv;
    [|rewrite add_entity_no_value by easy; apply keeps_types_refl].
  destruct (obs_type o) as [t|] eqn:Ht;
    [|rewrite (add_entity_no_type _ _ v) by easy; apply keeps_types_refl].
  rewrite (add_entity_eq _ _ v t) by easy. unfold item.
  destruct (Dict.get (_normalize_key v) (correlation_map e)) as [[r|c]|] eqn:E; simpl;
    apply keeps_types_set; try congruence.
  - intros d t0 Hd. rewrite E in Hd. injection Hd as <-. simpl. now intros ->.
  - intros d t0 Hd. rewrite E in Hd. now injection Hd as <-.
Qed.

Lemma keeps_types_add_raw_item it : preserves keeps_types (add_raw_item it).
Proof.
  intros e. destruct it as [source content].
  unfold add_raw_item, bind, has_key, setitem, getitem, Dict.getitem, Dict.mem.
  destruct (Dict.get "raw_data" (correlation_map e)) as [[r|c]|] eqn:E; simpl.
  - rewrite E. simpl. now apply keeps_types_same_map.
  - rewrite E. simpl. apply keeps_types_set.
    intros d t Hd. rewrite E in Hd. now injection Hd as <-.
  - rewrite get_set_eq. simpl. rewrite set_set. apply keeps_types_set. congruence.
Qed.

Lemma keeps_types_link_pair k1 k2 : preserves keeps_types (link_pair k1 k2).
Proof.
  unfold link_pair.
  apply preserves_bind; [exact keeps_types_trans|apply keeps_types_getitem|]. intros d1.
  apply preserves_bind; [exact keeps_types_trans|apply keeps_types_getitem|]. intros d2.
  destruct (decide _); [apply preserves_ret, keeps_types_refl|].
  apply preserves_bind;
    [exact keeps_types_trans|now apply keeps_types_update_entity|]. intros _.
  apply preserves_bind;
    [exact keeps_types_trans|now apply keeps_types_update_entity|]. intros _.
  intros e. now apply keeps_types_same_map.
Qed.

Lemma keeps_types_link_all ks : preserves keeps_types (link_all ks).
Proof.
  induction ks as [|k1 rest IH]; simpl; [apply preserves_ret, keeps_types_refl|].
  apply preserves_bind; [exact keeps_types_trans| |easy].
  apply preserves_for_each;
    [exact keeps_types_refl|exact keeps_types_trans|apply keeps_types_link_pair].
Qed.

Lemma keeps_types_count_linked ks : preserves keeps_types (count_linked ks).
Proof.
  induction ks as [|k rest IH]; simpl; [apply preserves_ret, keeps_types_refl|].
  apply preserves_bind; [exact keeps_types_trans|apply keeps_types_getitem|].
  intros [r|c]; [|apply preserves_raise, keeps_types_refl].
  apply preserves_bind; [exact keeps_types_trans|easy|].
  intros n. apply preserves_ret, keeps_types_refl.
Qed.

Lemma keeps_types_correlate : preserves keeps_types correlate.
Proof.
  unfold correlate.
  apply preserves_bind; [exact keeps_types_trans| |intros _].
  { apply (preserves_reading keeps_types (fun e => entity_keys (correlation_map e))).
    apply keeps_types_link_all. }
  apply preserves_bind; [exact keeps_types_trans| |intros _].
  { apply (preserves_reading keeps_types (fun e => Dict.keys (correlation_map e))
             (fun ks => for_each ks _)).
    intros ks. apply preserves_for_each;
      [exact keeps_types_refl|exact keeps_types_trans|].
    intros k. destruct (decide _); [apply preserves_ret, keeps_types_refl|].
    now apply keeps_types_update_entity. }
  intros e. unfold compile_result.
  match goal with |- context [bind ?c ?k] => assert (H : preserves keeps_types (bind c k)) end.
  { apply preserves_bind; [exact keeps_types_trans|apply keeps_types_count_linked|].
    intros n e'. apply keeps_types_refl. }
  apply H.
Qed.

Lemma keeps_types_exec c e : keeps_types e (exec c e).
Proof.
  destruct c; simpl.
  - apply (preserves_for_each keeps_types keeps_types_refl keeps_types_trans).
    apply keeps_types_add_raw_item.
  - apply (preserves_for_each keeps_types keeps_types_refl keeps_types_trans).
    intros [source entities].
    apply (preserves_for_each keeps_types keeps_types_refl keeps_types_trans).
    apply keeps_types_add_entity.
  - apply keeps_types_correlate.
  - apply keeps_types_refl.
Qed.

Lemma keeps_types_steps later e :
  keeps_types e (fold_left (fun e c => exec c e) later e).
Proof.
  revert e. induction later as [|c later IH]; intros e; simpl; [apply keeps_types_refl|].
  exact (keeps_types_trans _ _ _ (keeps_types_exec c e) (IH _)).
Qed.

Lemma recorded_type_kept e e' k t :
  keeps_types e e' -> recorded_type e k = Some t -> recorded_type e' k = Some t.
Proof.
  intros H. unfold recorded_type.
  destruct (Dict.get k (correlation_map e)) as [d|] eqn:E; [|easy].
  intros Ht. destruct (H k d t E Ht) as (d' & -> & Ht'). exact Ht'.
Qed.

Lemma first_type_is_recorded e source o v t :
  obs_value o = Some v -> obs_type o = Some t ->
  recorded_type e (_normalize_key v) = None ->
  exists e', add_entity source o e = (Ret tt, e') /\
             recorded_type e' (_normalize_key v) = Some t.
Proof.
  intros Hv Ht Hnone.
  assert (Hr : exists r, item (correlation_map e) (_normalize_key v) = Entity r
                         /\ type r = None).
  { unfold recorded_type, item in *.
    destruct (Dict.get (_normalize_key v) (correlation_map e)) as [[r|c]|]; simpl in *;
      try easy; eauto. }
  destruct Hr as (r & Hr & Hty).
  rewrite (add_entity_record _ _ v t r) by easy.
  eexists. split; [reflexivity|].
  unfold recorded_type. simpl. rewrite get_set_eq. simpl. now rewrite Hty.
Qed.

(** ** Importance *)

(** What [filter_noise] keeps carries the table score as its
    ['importance_score']: this is how a caller hands the table value to the
    engine. *)
Lemma filter_noise_scores entities min_score o :
  o ∈ filter_noise entities min_score ->
  exists o0, o0 ∈ entities /\ o = with_importance_score (score_entity_importance o0) o0.
Proof.
  induction entities as [|o0 entities IH]; simpl; [now intros H%elem_of_nil|].
  destruct (min_score <=? score_entity_importance o0)%float.
  - intros [->|H]%elem_of_cons.
    + exists o0. split; [apply elem_of_cons; now left|easy].
    + destruct (IH H) as (o1 & H1 & H2). exists o1. split; [apply elem_of_cons; now right|easy].
  - intros H. destruct (IH H) as (o1 & H1 & H2).
    exists o1. split; [apply elem_of_cons; now right|easy].
Qed.

(** C3, as the code has it. Ingesting an observation under a key that
    holds an entity record (the default record, of importance 0.0, when the
    key is new) makes the importance the maximum of its previous value and
    of the observation's ['importance_score'], or of 0.5 when the
    observation carries none. The observation's type plays no part. *)
Theorem importance_is_max_of_previous_and_hint (e : Engine) source o v t r :
  obs_value o = Some v -> obs_type o = Some t ->
  item (correlation_map e) (_normalize_key v) = Entity r ->
  exists e' r',
    add_entity source o e = (Ret tt, e')
    /\ record_at e' (_normalize_key v) = Some r'
    /\ importance r' = py_max (importance r) (default 0.5%float (obs_importance_score o)).
Proof.
  intros Hv Ht Hr. rewrite (add_entity_record _ _ v t r) by easy.
  eexists. exists (ingest_record source t o r). split; [reflexivity|]. split; [|easy].
  unfold record_at. simpl. now rewrite get_set_eq.
Qed.

Lemma importance_is_max_of_previous_and_hint_witness :
  exists e' r',
    add_entity "source1" (obs "CTF_FLAG" "CTF{demo}") init = (Ret tt, e')
    /\ record_at e' (_normalize_key "CTF{demo}") = Some r'
    /\ importance r' = py_max (importance default_record)
                              (default 0.5%float (obs_importance_score (obs "CTF_FLAG" "CTF{demo}"))).
Proof.
  apply (importance_is_max_of_previous_and_hint
           init "source1" (obs "CTF_FLAG" "CTF{demo}") "CTF{demo}" "CTF_FLAG" default_record);
    reflexivity.
Defined.

(** C3 fails as stated: a CTF_FLAG observation without a score, ingested
    on a fresh engine, leaves the importance at 0.5, below the 1.0 that
    the table gives its type. *)
Lemma ctf_flag_without_hint_gets_default :
  importance <$>
    record_at (snd (add_parsed_entities [("source1", [obs "CTF_FLAG" "CTF{demo}"])] init))
              "ctf{demo}" = Some 0.5%float
  /\ score_entity_importance (obs "CTF_FLAG" "CTF{demo}") = 1%float
  /\ (0.5 <? 1)%float = true.
Proof. vm_compute. repeat split. Qed.

(** ** Scores *)

Lemma source_boost_nonneg r : nonneg (source_boost r).
Proof.
  unfold source_boost. apply FloatFacts.py_min_nonneg; [|reflexivity].
  eapply FloatFacts.mul_nonneg; [vm_compute; reflexivity|].
  apply FloatFacts.float_of_len_nonneg.
Qed.

Lemma link_boost_nonneg r : nonneg (link_boost r).
Proof.
  unfold link_boost. apply FloatFacts.py_min_nonneg; [|reflexivity].
  eapply FloatFacts.mul_nonneg; [vm_compute; reflexivity|].
  apply FloatFacts.float_of_len_nonneg.
Qed.

Lemma score_bounds r :
  nonneg (importance r) ->
  (0 <=? score_of r)%float = true /\ (score_of r <=? 1)%float = true /\
  score_of r = py_min 1 (importance r + source_boost r + link_boost r)%float.
Proof.
  intros Hi.
  assert (Hsum : nonneg (importance r + source_boost r + link_boost r)%float).
  { apply FloatFacts.add_nonneg; [apply FloatFacts.add_nonneg; [easy|]|].
    - apply source_boost_nonneg.
    - apply link_boost_nonneg. }
  unfold score_of. split; [|split].
  - apply FloatFacts.py_min_nonneg; [easy|reflexivity].
  - apply FloatFacts.py_min_le; [easy|reflexivity].
  - eapply FloatFacts.py_min_swap; [vm_compute; reflexivity|easy].
Qed.

(** After [correlate], on any engine a history of calls can reach, every
    record under a key other than ['raw_data'] has the importance and the
    sources it had and a final score, which is
    [min(importance + source_boost + link_boost, 1.0)], the same float as
    [min(1.0, ...)], with [source_boost = min(len(sources) * 0.1, 0.3)] and
    [link_boost = min(len(linked_entities) * 0.05, 0.2)], all in binary64
    arithmetic; and the score lies between 0 and 1. *)
Lemma final_score_of_every_other_key (history : list call) :
  exists res e',
    correlate (run history) = (Ret res, e') /\
    forall k r, k ≠ "raw_data" -> record_at (run history) k = Some r ->
      exists r' score,
        record_at e' k = Some r' /\
        importance r' = importance r /\ sources r' = sources r /\
        final_score r' = Some score /\
        score = py_min (importance r'
                        + py_min (float_of_len (size (sources r')) * 0.1) 0.3
                        + py_min (float_of_len (size (linked_entities r')) * 0.05) 0.2)%float
                       1%float /\
        score = py_min 1%float
                       (importance r'
                        + py_min (float_of_len (size (sources r')) * 0.1) 0.3
                        + py_min (float_of_len (size (linked_entities r')) * 0.05) 0.2)%float /\
        (0 <=? score)%float = true /\ (score <=? 1)%float = true.
Proof.
  destruct (correlate_spec (run history) (wf_run history)) as (res & e' & E & C).
  exists res, e'. split; [exact E|]. intros k r Hraw Hr.
  assert (Hk : k ∈ entity_keys (correlation_map (run history))).
  { apply list_elem_of_filter. split; [easy|].
    apply record_at_get in Hr. now apply get_Some_keys in Hr. }
  destruct (cor_scored _ _ _ C k Hk) as (r' & Hr' & Hs).
  destruct (cor_fields _ _ _ C k r Hr) as (r'' & Hr'' & _ & Hi & Hso & _).
  assert (r'' = r') by congruence. subst r''.
  pose proof (wf_importance _ (cor_wf _ _ _ C) k r' Hr') as Hn.
  destruct (score_bounds r' Hn) as (B1 & B2 & B3).
  exists r', (score_of r'). repeat split; easy.
Qed.

(** The boosts for the first counts: a tenth for each source up to three,
    a twentieth for each link up to four. *)
Lemma boosts_of_small_counts :
  (fun n => py_min (float_of_len n * 0.1) 0.3)%float <$> [0; 1; 2; 3; 4; 5]%nat
  = [0; 0.1; 0.2; 0.3; 0.3; 0.3]%float
  /\ (fun n => py_min (float_of_len n * 0.05) 0.2)%float <$> [0; 1; 2; 3; 4; 5; 6]%nat
     = [0; 0.05; 0.1; 0.15000000000000002; 0.2; 0.2; 0.2]%float.
Proof. vm_compute. split; reflexivity. Qed.

(** C5 at an entity whose value is the string ['raw_data']: ingested on a
    fresh engine beside another entity of the same source, it has a record
    like any other, but [correlate] leaves that record as it was, without a
    final score, where the formula gives 0.6, and does not count it; the
    other entity gets its final score, 0.6. *)
Theorem raw_data_entity_gets_no_final_score :
  record_at raw_data_beside_email "raw_data"
  = Some {| type := Some "USERNAME"; sources := {["web"]}; linked_entities := ∅;
            importance := 0.5%float;
            occurrences := Some [obs "USERNAME" "raw_data"];
            final_score := None |}
  /\ record_at (snd (correlate raw_data_beside_email)) "raw_data"
     = record_at raw_data_beside_email "raw_data"
  /\ (score_of <$> record_at raw_data_beside_email "raw_data") = Some 0.6%float
  /\ (total_entities <$> returned (fst (correlate raw_data_beside_email))) = Some 1
  /\ record_at (snd (correlate raw_data_beside_email)) "a@b.c"
     = Some {| type := Some "EMAIL"; sources := {["web"]}; linked_entities := ∅;
               importance := 0.5%float;
               occurrences := Some [obs "EMAIL" "a@b.c"];
               final_score := Some 0.6%float |}
  /\ py_min (0.5 + py_min (1 * 0.1) 0.3 + py_min (0 * 0.05) 0.2)%float 1%float = 0.6%float.
Proof. vm_compute. repeat split. Qed.

(** ** Links and relationships *)

Lemma pair_rel_elem e a b rel :
  rel ∈ pair_rel e a b <->
  rel = co_occurrence a b (srcs e a ∩ srcs e b) /\ srcs e a ∩ srcs e b ≠ ∅.
Proof.
  unfold pair_rel. case_decide as H.
  - split; [now intros ?%elem_of_nil|]. now intros [_ ?].
  - rewrite list_elem_of_singleton. tauto.
Qed.

Lemma pass_rels_ext e e' ks :
  (forall k, srcs e' k = srcs e k) -> pass_rels e' ks = pass_rels e ks.
Proof.
  intros H. induction ks as [|k1 rest IH]; simpl; [easy|]. rewrite IH. f_equal.
  apply flat_map_ext. intros k2. unfold pair_rel. now rewrite !H.
Qed.

Lemma pass_rels_elem e ks rel :
  NoDup ks -> rel ∈ pass_rels e ks ->
  exists a b, a ∈ ks /\ b ∈ ks /\ a ≠ b /\
              rel = co_occurrence a b (srcs e a ∩ srcs e b) /\
              srcs e a ∩ srcs e b ≠ ∅.
Proof.
  induction ks as [|k1 rest IH]; simpl; [now intros _ ?%elem_of_nil|].
  intros [Hk1 Hnd]%NoDup_cons [H|H]%elem_of_app.
  - apply list_elem_of_In, in_flat_map in H as (b & Hb%list_elem_of_In & Hrel%list_elem_of_In).
    apply pair_rel_elem in Hrel as [-> Hc].
    exists k1, b. repeat split; try easy.
    + apply elem_of_cons. now left.
    + apply elem_of_cons. now right.
    + intros ->. easy.
  - destruct (IH Hnd H) as (a & b & Ha & Hb & Hab & Hrel & Hc).
    exists a, b. repeat split; try easy; apply elem_of_cons; now right.
Qed.

Lemma pass_rels_complete e ks a b :
  a ∈ ks -> b ∈ ks -> a ≠ b -> srcs e a ∩ srcs e b ≠ ∅ ->
  co_occurrence a b (srcs e a ∩ srcs e b) ∈ pass_rels e ks \/
  co_occurrence b a (srcs e b ∩ srcs e a) ∈ pass_rels e ks.
Proof.
  assert (Hrow : forall k1 rest k2, k2 ∈ rest -> srcs e k1 ∩ srcs e k2 ≠ ∅ ->
            co_occurrence k1 k2 (srcs e k1 ∩ srcs e k2) ∈ flat_map (pair_rel e k1) rest).
  { intros k1 rest k2 Hk2 Hc. apply list_elem_of_In, in_flat_map.
    exists k2. split; [now apply list_elem_of_In|].
    apply list_elem_of_In, pair_rel_elem. now split. }
  induction ks as [|k1 rest IH]; simpl; [now intros ?%elem_of_nil|].
  intros [->|Ha]%elem_of_cons [->|Hb]%elem_of_cons Hab Hc.
  - congruence.
  - left. apply elem_of_app. left. now apply Hrow.
  - right. apply elem_of_app. left. apply Hrow; [easy|]. now rewrite (comm_L (∩)).
  - destruct (IH Ha Hb Hab Hc) as [H|H]; [left|right]; apply elem_of_app; now right.
Qed.

(** After [correlate], on any engine a history of calls can reach: [b] is
    linked from [a] exactly when [a] is linked from [b]; two distinct keys
    other than ['raw_data'] that hold records are linked exactly when the
    records have a common source; links join such keys only; and the
    relationships this pass appends are co-occurrences between two of them
    with a common source, each with the common sources and their number as
    its strength, one for every such pair in one of its two orders. *)
Lemma links_between_the_other_keys (history : list call) :
  exists res e' emitted,
    correlate (run history) = (Ret res, e') /\
    (forall a b, b ∈ links e' a <-> a ∈ links e' b) /\
    (forall a b ra rb,
        record_at (run history) a = Some ra -> record_at (run history) b = Some rb ->
        a ≠ "raw_data" -> b ≠ "raw_data" -> a ≠ b ->
        (b ∈ links e' a <-> sources ra ∩ sources rb ≠ ∅)) /\
    (forall a b, b ∈ links e' a ->
        a ≠ b /\ a ≠ "raw_data" /\ b ≠ "raw_data" /\
        exists ra rb, record_at (run history) a = Some ra /\
                      record_at (run history) b = Some rb /\
                      sources ra ∩ sources rb ≠ ∅) /\
    relationships e' = relationships (run history) ++ emitted /\
    res_relationships res = relationships e' /\
    (forall rel, rel ∈ emitted ->
        exists ra rb,
          record_at (run history) (entity1 rel) = Some ra /\
          record_at (run history) (entity2 rel) = Some rb /\
          entity1 rel ≠ entity2 rel /\
          relationship rel = "co_occurrence" /\
          rel_sources rel = sources ra ∩ sources rb /\
          rel_sources rel ≠ ∅ /\
          strength rel = size (sources ra ∩ sources rb) /\
          entity2 rel ∈ links e' (entity1 rel)) /\
    (forall a b ra rb,
        record_at (run history) a = Some ra -> record_at (run history) b = Some rb ->
        a ≠ "raw_data" -> b ≠ "raw_data" -> a ≠ b ->
        sources ra ∩ sources rb ≠ ∅ ->
        co_occurrence a b (sources ra ∩ sources rb) ∈ emitted \/
        co_occurrence b a (sources rb ∩ sources ra) ∈ emitted).
Proof.
  pose proof (wf_run history) as Hwf. set (e := run history) in *.
  destruct (correlate_spec e Hwf) as (res & e' & E & C).
  pose proof (cor_wf _ _ _ C) as Hwf'.
  assert (EK : entity_keys (correlation_map e') = entity_keys (correlation_map e))
    by (unfold entity_keys; now rewrite (cor_keys _ _ _ C)).
  assert (Hkey : forall k r, record_at e k = Some r -> k ≠ "raw_data" ->
                             k ∈ entity_keys (correlation_map e)).
  { intros k r Hr Hraw. apply list_elem_of_filter. split; [easy|].
    apply record_at_get in Hr. now apply get_Some_keys in Hr. }
  assert (Hsrc : forall k r, record_at e k = Some r -> srcs e k = sources r).
  { intros k r Hr. unfold srcs, item. apply record_at_get in Hr. now rewrite Hr. }
  assert (Hrec : forall k, k ∈ entity_keys (correlation_map e) ->
                           exists r, record_at e k = Some r).
  { intros k [Hraw Hk]%list_elem_of_filter. apply keys_get in Hk as [d Hd].
    destruct (wf_entity _ Hwf k d Hraw Hd) as [r ->]. exists r.
    unfold record_at. now rewrite Hd. }
  assert (Hsound : forall a b, b ∈ links e' a ->
            a ≠ b /\ a ≠ "raw_data" /\ b ≠ "raw_data" /\
            exists ra rb, record_at e a = Some ra /\ record_at e b = Some rb /\
                          sources ra ∩ sources rb ≠ ∅).
  { intros a b H. destruct (wf_links_sound e' a b Hwf' H) as (Hab & Ha & Hb & Hc).
    rewrite EK in Ha, Hb. rewrite !(cor_srcs _ _ _ C) in Hc.
    destruct (Hrec a Ha) as [ra Hra]. destruct (Hrec b Hb) as [rb Hrb].
    rewrite (Hsrc a ra Hra), (Hsrc b rb Hrb) in Hc.
    apply list_elem_of_filter in Ha as [Ha _]. apply list_elem_of_filter in Hb as [Hb _].
    split; [easy|]. split; [easy|]. split; [easy|]. now exists ra, rb. }
  exists res, e', (pass_rels e (entity_keys (correlation_map e))).
  split; [exact E|]. split; [|split; [|split; [|split; [|split; [|split]]]]].
  - intros a b. split; now apply wf_links_sym.
  - intros a b ra rb Hra Hrb Ha Hb Hab. split.
    + intros H. destruct (Hsound a b H) as (_ & _ & _ & ra' & rb' & Hra' & Hrb' & Hc).
      congruence.
    + intros Hc. apply (cor_complete _ _ _ C); eauto.
      now rewrite (Hsrc a ra Hra), (Hsrc b rb Hrb).
  - exact Hsound.
  - exact (cor_relationships _ _ _ C).
  - exact (cor_res_relationships _ _ _ C).
  - intros rel Hrel.
    destruct (pass_rels_elem e _ rel (NoDup_entity_keys e Hwf) Hrel)
      as (a & b & Ha & Hb & Hab & -> & Hc).
    destruct (Hrec a Ha) as [ra Hra]. destruct (Hrec b Hb) as [rb Hrb].
    exists ra, rb. simpl. rewrite <- (Hsrc a ra Hra), <- (Hsrc b rb Hrb).
    repeat split; try easy. now apply (cor_complete _ _ _ C).
  - intros a b ra rb Hra Hrb Ha Hb Hab Hc.
    rewrite <- (Hsrc a ra Hra), <- (Hsrc b rb Hrb) in *.
    apply pass_rels_complete; eauto.
Qed.

(** C7 at an entity whose value is the string ['raw_data']: ingested on a
    fresh engine beside another entity of the same source, it shares that
    source with it, but [correlate] links neither to the other and returns
    no relationship. With any other value the two are linked both ways and
    one relationship of strength 1 joins them. *)
Theorem raw_data_entity_is_never_linked :
  srcs raw_data_beside_email "raw_data" = {["web"]}
  /\ srcs raw_data_beside_email "a@b.c" = {["web"]}
  /\ links (snd (correlate raw_data_beside_email)) "raw_data" = ∅
  /\ links (snd (correlate raw_data_beside_email)) "a@b.c" = ∅
  /\ (res_relationships <$> returned (fst (correlate raw_data_beside_email))) = Some []
  /\ (linked_count <$> returned (fst (correlate raw_data_beside_email))) = Some 0
  /\ links (snd (correlate admin_beside_email)) "admin" = {["a@b.c"]}
  /\ links (snd (correlate admin_beside_email)) "a@b.c" = {["admin"]}
  /\ (res_relationships <$> returned (fst (correlate admin_beside_email)))
     = Some [{| entity1 := "admin"; entity2 := "a@b.c"; relationship := "co_occurrence";
                rel_sources := {["web"]}; strength := 1 |}]
  /\ (linked_count <$> returned (fst (correlate admin_beside_email))) = Some 2.
Proof. vm_compute. repeat split. Qed.

(** ** Calling [correlate] again *)

Lemma links_same_map e e' k :
  correlation_map e' = correlation_map e -> links e' k = links e k.
Proof. intros H. unfold links, record_at. now rewrite H. Qed.

(** A second [correlate] with nothing ingested in between finds the map as
    the first one left it and leaves it so, and returns the same counts and
    key lists; but it appends the relationships of the pass to the list
    once more. *)
Lemma correlate_again history :
  exists r1 e1 r2 e2,
    correlate (run history) = (Ret r1, e1) /\ correlate e1 = (Ret r2, e2) /\
    correlation_map e2 = correlation_map e1 /\
    res_relationships r2 =
      res_relationships r1 ++ pass_rels e1 (entity_keys (correlation_map e1)) /\
    r2 = seen_from e2 r1.
Proof.
  pose proof (wf_run history) as Hwf. set (e0 := run history) in *.
  destruct (correlate_spec e0 Hwf) as (r1 & e1 & E1 & C1).
  pose proof (cor_wf _ _ _ C1) as W1.
  destruct (correlate_spec e1 W1) as (r2 & e2 & E2 & C2).
  pose proof (cor_wf _ _ _ C2) as W2.
  exists r1, e1, r2, e2. split; [exact E1|]. split; [exact E2|].
  assert (EK1 : entity_keys (correlation_map e1) = entity_keys (correlation_map e0))
    by (unfold entity_keys; now rewrite (cor_keys _ _ _ C1)).
  assert (EK2 : entity_keys (correlation_map e2) = entity_keys (correlation_map e1))
    by (unfold entity_keys; now rewrite (cor_keys _ _ _ C2)).
  assert (Hmap : correlation_map e2 = correlation_map e1).
  { apply ext; [exact (wf_nodup _ W2)|exact (cor_keys _ _ _ C2)|].
    intros k. destruct (decide (k = "raw_data")) as [->|Hraw];
      [exact (cor_raw_data _ _ _ C2)|].
    destruct (Dict.get k (correlation_map e1)) as [d|] eqn:G1.
    - assert (Hk : k ∈ entity_keys (correlation_map e1)).
      { apply list_elem_of_filter. split; [easy|]. now apply get_Some_keys in G1. }
      destruct (cor_scored _ _ _ C1 k) as (ra & Ha & Sa); [now rewrite <- EK1|].
      destruct (cor_fields _ _ _ C2 k ra Ha) as (rb & Hb & T & I & S & O).
      destruct (cor_scored _ _ _ C2 k Hk) as (rb' & Hb' & Sb).
      assert (rb' = rb) by congruence. subst rb'.
      assert (L : linked_entities rb = linked_entities ra).
      { rewrite <- (links_record _ _ _ Ha), <- (links_record _ _ _ Hb).
        apply set_eq. intros b. split; [|apply (cor_mono _ _ _ C2)].
        intros H. destruct (wf_links_sound e2 k b W2 H) as (Hne & Hk2 & Hb2 & Hc).
        rewrite EK2, EK1 in Hk2, Hb2.
        rewrite !(cor_srcs _ _ _ C2), !(cor_srcs _ _ _ C1) in Hc.
        now apply (cor_complete _ _ _ C1). }
      apply record_at_get in Ha, Hb. rewrite Hb. rewrite Ha in G1. rewrite <- G1.
      do 2 f_equal. unfold score_of, source_boost, link_boost in Sa, Sb.
      destruct ra, rb. simpl in *. subst. congruence.
    - apply get_None in G1. apply get_None. now rewrite (cor_keys _ _ _ C2). }
  split; [exact Hmap|]. split.
  - rewrite (cor_res_relationships _ _ _ C2), (cor_relationships _ _ _ C2).
    now rewrite (cor_res_relationships _ _ _ C1).
  - assert (HL : forall k, links e2 k = links e1 k)
      by (intros k; now apply links_same_map).
    pose proof (cor_total _ _ _ C1) as T1. pose proof (cor_total _ _ _ C2) as T2.
    pose proof (cor_linked_count _ _ _ C1) as N1.
    pose proof (cor_linked_count _ _ _ C2) as N2.
    pose proof (cor_high_value _ _ _ C1) as V1. pose proof (cor_high_value _ _ _ C2) as V2.
    pose proof (cor_high_value_count _ _ _ C1) as VC1.
    pose proof (cor_high_value_count _ _ _ C2) as VC2.
    pose proof (cor_ctf_flags _ _ _ C1) as F1. pose proof (cor_ctf_flags _ _ _ C2) as F2.
    pose proof (cor_api_keys _ _ _ C1) as A1. pose proof (cor_api_keys _ _ _ C2) as A2.
    pose proof (cor_credentials _ _ _ C1) as K1. pose proof (cor_credentials _ _ _ C2) as K2.
    pose proof (cor_res_relationships _ _ _ C2) as R2.
    rewrite Hmap, EK1 in *.
    assert (N2' : linked_count r2 = linked_count r1).
    { rewrite N2, N1. f_equal. apply list_filter_iff. intros k. now rewrite HL. }
    unfold seen_from. destruct r1, r2. simpl in *. subst. now rewrite N2'.
Qed.

(** C1 at two entities that share a source: the first [correlate] returns
    one relationship, the second, with nothing ingested in between, returns
    two, the same one twice; the counts and key lists are the same. The
    first result holds the engine's own list, so read after the second call
    it shows the two relationships as well. *)
Theorem correlate_twice_doubles_relationships :
  length <$> (res_relationships <$> returned (fst first_pass)) = Some 1
  /\ length <$> (res_relationships <$> returned (fst second_pass)) = Some 2
  /\ (res_relationships <$> returned (fst second_pass))
     = ((fun l => l ++ l) <$> (res_relationships <$> returned (fst first_pass)))
  /\ returned (fst second_pass)
     = (seen_from (snd second_pass) <$> returned (fst first_pass))
  /\ correlation_map (snd second_pass) = correlation_map (snd first_pass).
Proof. vm_compute. repeat split. Qed.

(** ** The key ['raw_data'] *)

(** C2 at the key ['raw_data']: once a raw text is stored, looking up
    the value "raw_data" returns the corpus value; ingesting an entity whose
    value normalizes to "raw_data" raises [KeyError] after it has added the
    entity's source to the corpus value; and in the other order, storing a
    raw text raises [KeyError] because the key holds an entity record, which
    [correlate] does not count. *)
Theorem raw_data_key_is_shared_with_the_corpus :
  get_entity_details "RAW_DATA " corpus_only
  = (Ret (Some (Corpus {| corpus_sources := ∅;
                          data := [("nmap", "22/tcp open ssh")] |})), corpus_only)
  /\ add_parsed_entities [("web", [obs "USERNAME" "Raw_Data"])] corpus_only
     = (Raise (KeyError "importance"),
        {| correlation_map :=
             [("raw_data", Corpus {| corpus_sources := {["web"]};
                                     data := [("nmap", "22/tcp open ssh")] |})];
           relationships := [] |})
  /\ add_raw_data [("nmap", "22/tcp open ssh")] raw_data_entity_only
     = (Raise (KeyError "data"), raw_data_entity_only)
  /\ Dict.keys (correlation_map raw_data_entity_only) = ["raw_data"]
  /\ total_entities <$> returned (fst (correlate raw_data_entity_only)) = Some 0.
Proof. vm_compute. repeat split. Qed.

(* ===================================================================== *)
(** * Part IV: further properties of the code                             *)
(* ===================================================================== *)

(** ** Ingestion as aggregation *)

Lemma for_each_fmap {B C} (f : B -> C) (l : list B) (body : C -> M unit) e :
  for_each (f <$> l) body e = for_each l (fun x => body (f x)) e.
Proof.
  revert e. induction l as [|x l IH]; intros e; simpl; [easy|].
  unfold bind. destruct (body (f x) e) as [[[]|x0] e1]; [apply IH|easy].
Qed.

Lemma add_parsed_entities_tagged parsed e :
  add_parsed_entities parsed e
  = for_each (tagged parsed) (fun p => add_entity (fst p) (snd p)) e.
Proof.
  unfold add_parsed_entities, tagged.
  revert e. induction parsed as [|[source l] parsed IH]; intros e; simpl; [easy|].
  rewrite for_each_app. unfold bind.
  change (map (pair source) l) with (pair source <$> l). rewrite for_each_fmap. simpl.
  destruct (for_each l (add_entity source) e) as [[[]|x] e1]; [apply IH|easy].
Qed.

Lemma filed_under_cons k p l :
  filed_under k (p :: l)
  = if decide (obs_key (snd p) = Some k) then p :: filed_under k l else filed_under k l.
Proof. unfold filed_under. now rewrite filter_cons. Qed.

Lemma ingest_tagged l e :
  wf e ->
  Forall (fun p => well_formed (snd p)) l ->
  Forall (fun p => obs_key (snd p) ≠ Some "raw_data") l ->
  exists e',
    for_each l (fun p => add_entity (fst p) (snd p)) e = (Ret tt, e')
    /\ wf e' /\ relationships e' = relationships e
    /\ forall k,
         Dict.get k (correlation_map e') =
         match filed_under k l with
         | [] => Dict.get k (correlation_map e)
         | new =>
             match item (correlation_map e) k with
             | Entity r0 => Some (Entity (ingest_all new r0))
             | Corpus c => Some (Corpus c)
             end
         end.
Proof.
  revert e. induction l as [|[source o] l IH]; intros e Hwf Hwell Hraw.
  - exists e. split; [easy|]. split; [easy|]. split; [easy|]. easy.
  - apply Forall_cons in Hwell as [[[v Hv] [t Ht]] Hwell]. simpl in Hv, Ht.
    apply Forall_cons in Hraw as [Hk0 Hraw]. simpl in Hk0.
    unfold obs_key in Hk0. rewrite Hv in Hk0. simpl in Hk0.
    assert (Hk0' : _normalize_key v ≠ "raw_data") by congruence.
    destruct (item_entity e _ Hwf Hk0') as [r0 Hr0].
    pose proof (wf_add_entity source o e Hwf) as W1.
    rewrite (add_entity_record _ _ v t r0) in W1 by easy. simpl in W1.
    destruct (IH _ W1 Hwell Hraw) as (e' & E' & W' & R' & G').
    assert (Hkey : obs_key o = Some (_normalize_key v))
      by (unfold obs_key; now rewrite Hv).
    exists e'. split.
    { change (for_each ((source, o) :: l) (fun p => add_entity p.1 p.2) e)
        with (bind (add_entity source o)
                   (fun _ => for_each l (fun p => add_entity p.1 p.2)) e).
      unfold bind. now rewrite (add_entity_record _ _ v t r0). }
    split; [easy|]. split; [easy|].
    intros k. rewrite G', filed_under_cons. cbn [fst snd]. rewrite Hkey.
    unfold item. cbn [correlation_map with_map]. rewrite !get_set.
    destruct (decide (Some (_normalize_key v) = Some k)) as [Heq|Hne].
    + injection Heq as <-. rewrite decide_True by easy.
      unfold item in Hr0. cbn [default].
      destruct (filed_under (_normalize_key v) l) as [|q new].
      * destruct (Dict.get (_normalize_key v) (correlation_map e)); simpl in Hr0;
          [subst; unfold ingest_all; simpl; now rewrite Ht|].
        injection Hr0 as <-. unfold ingest_all. simpl. now rewrite Ht.
      * destruct (Dict.get (_normalize_key v) (correlation_map e)); simpl in Hr0;
          [subst; unfold ingest_all; simpl; now rewrite Ht|].
        injection Hr0 as <-. unfold ingest_all. simpl. now rewrite Ht.
    + rewrite decide_False by congruence. reflexivity.
Qed.

Lemma ingest_all_sources l r :
  sources (ingest_all l r) = sources r ∪ list_to_set (l.*1).
Proof.
  unfold ingest_all. revert r. induction l as [|p l IH]; intros r; simpl.
  - set_solver.
  - rewrite IH. simpl. set_solver.
Qed.

Lemma ingest_all_occurrences_default l r :
  default [] (occurrences (ingest_all l r)) = default [] (occurrences r) ++ l.*2.
Proof.
  unfold ingest_all. revert r. induction l as [|p l IH]; intros r; simpl.
  - now rewrite app_nil_r.
  - rewrite IH. simpl. now rewrite <- app_assoc.
Qed.

Lemma ingest_all_occurrences_some l r :
  is_Some (occurrences r) -> is_Some (occurrences (ingest_all l r)).
Proof.
  unfold ingest_all. revert r. induction l as [|p l IH]; intros r H; simpl; [easy|].
  apply IH. simpl. eauto.
Qed.

Lemma ingest_all_occurrences p l r :
  occurrences (ingest_all (p :: l) r)
  = Some (default [] (occurrences r) ++ (p :: l).*2).
Proof.
  pose proof (ingest_all_occurrences_default (p :: l) r) as H.
  destruct (ingest_all_occurrences_some l
              (ingest_record p.1 (default "" (obs_type p.2)) p.2 r)) as [x Hx];
    [simpl; eauto|].
  change (occurrences (ingest_all (p :: l) r) = Some x) in Hx.
  rewrite Hx in *. simpl in H. now rewrite H.
Qed.

Lemma ingest_all_type p l r :
  type (ingest_all (p :: l) r)
  = match type r with Some t => Some t | None => Some (default "" (obs_type p.2)) end.
Proof.
  unfold ingest_all. simpl.
  set (r1 := ingest_record _ _ _ r).
  assert (H : exists t, type r1 = Some t /\
            match type r with Some t0 => Some t0
                           | None => Some (default "" (obs_type p.2)) end = Some t).
  { subst r1. simpl. destruct (type r); eauto. }
  clearbody r1. destruct H as (t & H & ->).
  revert r1 H. induction l as [|q l IH]; intros r1 H; simpl; [easy|].
  apply IH. simpl. now rewrite H.
Qed.

Lemma ingest_all_kept l r :
  linked_entities (ingest_all l r) = linked_entities r
  /\ final_score (ingest_all l r) = final_score r.
Proof.
  unfold ingest_all. revert r. induction l as [|p l IH]; intros r; simpl; [easy|].
  destruct (IH (ingest_record p.1 (default "" (obs_type p.2)) p.2 r)) as [H1 H2].
  now rewrite H1, H2.
Qed.

(** X1. Ingesting a batch of well-formed observations, none of whose values
    normalizes to ['raw_data'], returns on every reachable engine, and what
    a lookup then returns for a value is the aggregate of the batch: for a
    value the batch does not mention, what the lookup returned before; for
    one it mentions, an entity record whose sources are the previous ones
    plus the sources of the observations with that key, whose occurrences
    are the previous ones followed by those observations in batch order,
    whose type is the previous one or else that of the first of them, and
    whose links and final score are untouched. *)
Theorem ingest_then_lookup history parsed v :
  Forall (fun p => well_formed (snd p)) (tagged parsed) ->
  Forall (fun p => obs_key (snd p) ≠ Some "raw_data") (tagged parsed) ->
  exists e',
    add_parsed_entities parsed (run history) = (Ret tt, e') /\
    match filed_under (_normalize_key v) (tagged parsed) with
    | [] => fst (get_entity_details v e') = fst (get_entity_details v (run history))
    | first :: others =>
        exists r0 r',
          item (correlation_map (run history)) (_normalize_key v) = Entity r0
          /\ get_entity_details v e' = (Ret (Some (Entity r')), e')
          /\ sources r' = sources r0 ∪ list_to_set ((first :: others).*1)
          /\ occurrences r'
             = Some (default [] (occurrences r0) ++ (first :: others).*2)
          /\ type r' = match type r0 with
                       | Some t => Some t
                       | None => obs_type (snd first)
                       end
          /\ linked_entities r' = linked_entities r0
          /\ final_score r' = final_score r0
    end.
Proof.
  intros Hwell Hraw. rewrite add_parsed_entities_tagged.
  destruct (ingest_tagged _ _ (wf_run history) Hwell Hraw) as (e' & E' & W' & R' & G').
  exists e'. split; [exact E'|].
  specialize (G' (_normalize_key v)).
  destruct (filed_under (_normalize_key v) (tagged parsed)) as [|first others] eqn:F.
  - unfold get_entity_details. simpl. now rewrite G'.
  - assert (Hin : first ∈ filed_under (_normalize_key v) (tagged parsed))
      by (rewrite F; apply elem_of_cons; now left).
    apply list_elem_of_filter in Hin as [Hkey Hin].
    assert (Hne : _normalize_key v ≠ "raw_data").
    { rewrite Forall_forall in Hraw. specialize (Hraw first Hin). congruence. }
    destruct (item_entity _ _ (wf_run history) Hne) as [r0 Hr0].
    rewrite Hr0 in G'. exists r0, (ingest_all (first :: others) r0).
    split; [easy|]. split; [unfold get_entity_details; now rewrite G'|].
    split; [apply ingest_all_sources|]. split; [apply ingest_all_occurrences|].
    split; [|apply ingest_all_kept].
    rewrite ingest_all_type. destruct (type r0); [easy|].
    rewrite Forall_forall in Hwell. destruct (Hwell first Hin) as [_ [t Ht]].
    now rewrite Ht.
Qed.

Lemma ingest_then_lookup_witness :
  exists e',
    add_parsed_entities
      [("source1", [obs "EMAIL" "Admin@Example.com"]);
       ("source2", [obs "PERSON" " admin@example.COM"])] (run []) = (Ret tt, e') /\
    match filed_under (_normalize_key "ADMIN@example.com")
            (tagged [("source1", [obs "EMAIL" "Admin@Example.com"]);
                     ("source2", [obs "PERSON" " admin@example.COM"])]) with
    | [] => fst (get_entity_details "ADMIN@example.com" e')
            = fst (get_entity_details "ADMIN@example.com" (run []))
    | first :: others =>
        exists r0 r',
          item (correlation_map (run [])) (_normalize_key "ADMIN@example.com") = Entity r0
          /\ get_entity_details "ADMIN@example.com" e' = (Ret (Some (Entity r')), e')
          /\ sources r' = sources r0 ∪ list_to_set ((first :: others).*1)
          /\ occurrences r'
             = Some (default [] (occurrences r0) ++ (first :: others).*2)
          /\ type r' = match type r0 with
                       | Some t => Some t
                       | None => obs_type (snd first)
                       end
          /\ linked_entities r' = linked_entities r0
          /\ final_score r' = final_score r0
    end.
Proof.
  apply (ingest_then_lookup []
           [("source1", [obs "EMAIL" "Admin@Example.com"]);
            ("source2", [obs "PERSON" " admin@example.COM"])] "ADMIN@example.com").
  - repeat constructor; simpl; eauto.
  - repeat constructor; simpl; discriminate.
Defined.

Lemma filed_under_nonempty k l :
  filed_under k l ≠ [] <-> k ∈ omap obs_key (l.*2).
Proof.
  rewrite list_elem_of_omap. split.
  - intros H. destruct (filed_under k l) as [|p l'] eqn:E; [easy|].
    assert (Hp : p ∈ filed_under k l) by (rewrite E; apply elem_of_cons; now left).
    apply list_elem_of_filter in Hp as [Hk Hp].
    exists p.2. split; [now apply list_elem_of_fmap_2|easy].
  - intros (o & [p [-> Hp]]%list_elem_of_fmap & Hk) E.
    assert (H : p ∈ filed_under k l) by now apply list_elem_of_filter.
    rewrite E in H. now apply elem_of_nil in H.
Qed.



(** ** Storing raw texts *)

Lemma add_raw_item_eq source content e :
  add_raw_item (source, content) e =
  match Dict.get "raw_data" (correlation_map e) with
  | Some (Entity _) => (Raise (KeyError "data"), e)
  | Some (Corpus c) =>
      (Ret tt, with_map e (Dict.set "raw_data" (Corpus (store_content source content c))
                                    (correlation_map e)))
  | None =>
      (Ret tt, with_map e (Dict.set "raw_data"
                                    (Corpus (store_content source content empty_corpus))
                                    (correlation_map e)))
  end.
Proof.
  unfold add_raw_item, bind, has_key, setitem, getitem, Dict.getitem, Dict.mem.
  destruct (Dict.get "raw_data" (correlation_map e)) as [[r|c]|] eqn:E; simpl.
  - rewrite E. now destruct e.
  - now rewrite E.
  - rewrite get_set_eq. simpl. now rewrite set_set.
Qed.

(** The contents stored by a list of (source, content) pairs over [d]. *)
Lemma get_stored source raw (d : list (string * string)) :
  Dict.get source (fold_left (fun d p => Dict.set (fst p) (snd p) d) raw d)
  = match Dict.get source (reverse raw) with
    | Some content => Some content
    | None => Dict.get source d
    end.
Proof.
  revert d. induction raw as [|[s c] raw IH] using rev_ind; intros d; [easy|].
  rewrite fold_left_app, reverse_app. simpl. rewrite get_set.
  destruct (decide (source = s)); [easy|]. apply IH.
Qed.

Lemma add_raw_data_cons s x raw e :
  add_raw_data ((s, x) :: raw) e =
  match add_raw_item (s, x) e with
  | (Ret _, e1) => add_raw_data raw e1
  | (Raise y, e1) => (Raise y, e1)
  end.
Proof. reflexivity. Qed.

Lemma add_raw_data_corpus raw e c :
  Dict.get "raw_data" (correlation_map e) = Some (Corpus c) ->
  add_raw_data raw e
  = (Ret tt,
     with_map e
       (Dict.set "raw_data"
          (Corpus {| corpus_sources := corpus_sources c;
                     data := fold_left (fun d p => Dict.set (fst p) (snd p) d) raw (data c) |})
          (correlation_map e))).
Proof.
  revert e c. induction raw as [|[s x] raw IH]; intros e c Hc.
  - unfold add_raw_data. simpl. unfold ret. f_equal. destruct c. unfold with_map. simpl.
    rewrite (set_same _ _ _ Hc). now destruct e.
  - rewrite add_raw_data_cons, add_raw_item_eq, Hc.
    rewrite (IH _ (store_content s x c)) by (simpl; apply get_set_eq).
    unfold with_map. simpl. now rewrite set_set.
Qed.

(** X3. [add_raw_data] touches nothing but the value under ['raw_data']:
    every other key, and the relationship list, is as before, whether the
    call returns or raises. With no text to store it does nothing. If the
    key holds an entity record it raises [KeyError] and changes nothing.
    Otherwise it returns, the key holds a corpus value whose ['sources']
    is what it was (empty for a new one), and whose ['data'] maps each
    source to the last content given for it, or to what it held before. *)
Theorem add_raw_data_stores_and_frames (e : Engine) (raw : list (string * string)) :
  (forall k, k ≠ "raw_data" ->
     Dict.get k (correlation_map (snd (add_raw_data raw e)))
     = Dict.get k (correlation_map e)) /\
  relationships (snd (add_raw_data raw e)) = relationships e /\
  match raw, Dict.get "raw_data" (correlation_map e) with
  | [], _ => add_raw_data raw e = (Ret tt, e)
  | _ :: _, Some (Entity _) => add_raw_data raw e = (Raise (KeyError "data"), e)
  | _ :: _, old =>
      exists e' c',
        add_raw_data raw e = (Ret tt, e')
        /\ Dict.get "raw_data" (correlation_map e') = Some (Corpus c')
        /\ corpus_sources c'
           = match old with Some (Corpus c) => corpus_sources c | _ => ∅ end
        /\ forall source,
             Dict.get source (data c')
             = match Dict.get source (reverse raw) with
               | Some content => Some content
               | None => match old with
                         | Some (Corpus c) => Dict.get source (data c)
                         | _ => None
                         end
               end
  end.
Proof.
  destruct raw as [|[s x] raw]; [now repeat split|].
  destruct (Dict.get "raw_data" (correlation_map e)) as [[r|c]|] eqn:E.
  - assert (H : add_raw_data ((s, x) :: raw) e = (Raise (KeyError "data"), e)).
    { now rewrite add_raw_data_cons, add_raw_item_eq, E. }
    rewrite H. now repeat split.
  - rewrite (add_raw_data_corpus _ _ c E). simpl. split; [|split; [easy|]].
    + intros k Hk. now rewrite get_set_ne.
    + eexists. eexists. split; [reflexivity|]. simpl. rewrite get_set_eq.
      split; [reflexivity|]. split; [reflexivity|]. simpl.
      intros source. apply (get_stored source ((s, x) :: raw)).
  - assert (H : add_raw_data ((s, x) :: raw) e
                = add_raw_data raw
                    (with_map e (Dict.set "raw_data"
                                   (Corpus (store_content s x empty_corpus))
                                   (correlation_map e)))).
    { now rewrite add_raw_data_cons, add_raw_item_eq, E. }
    rewrite H. rewrite (add_raw_data_corpus _ _ (store_content s x empty_corpus))
      by (simpl; apply get_set_eq).
    simpl. rewrite set_set. split; [|split; [easy|]].
    + intros k Hk. now rewrite get_set_ne.
    + eexists. eexists. split; [reflexivity|]. simpl. rewrite get_set_eq.
      split; [reflexivity|]. split; [reflexivity|]. simpl.
      intros source.
      apply (get_stored source ((s, x) :: raw) []).
Qed.

(** ** What no call takes away *)

Section Extends.
Variable P : Entry -> Entry -> Prop.
Hypothesis P_refl : forall d, P d d.
Hypothesis P_trans : forall d1 d2 d3, P d1 d2 -> P d2 d3 -> P d1 d3.
Hypothesis P_claim_type : forall t d, P d (claim_type t d).
Hypothesis P_add_source : forall s d, P d (add_source s d).
Hypothesis P_record_occurrence :
  forall o r, P (Entity r) (Entity (record_occurrence o r)).
Hypothesis P_add_linked : forall k r, P (Entity r) (Entity (add_linked k r)).
Hypothesis P_set_final_score : forall r, P (Entity r) (Entity (set_final_score r)).
Hypothesis P_store_content :
  forall s x c, P (Corpus c) (Corpus (store_content s x c)).

Lemma extends_refl e : extends P e e.
Proof. split; [easy|]. intros k d H. now exists d. Qed.

Lemma extends_trans e1 e2 e3 : extends P e1 e2 -> extends P e2 e3 -> extends P e1 e3.
Proof.
  intros [K12 H12] [K23 H23]. split; [now transitivity (Dict.keys (correlation_map e2))|].
  intros k d H. destruct (H12 k d H) as (d2 & H2 & P2).
  destruct (H23 k d2 H2) as (d3 & H3 & P3). exists d3. split; [easy|]. now apply (P_trans d d2).
Qed.

Lemma extends_set e k new l :
  (forall d, Dict.get k (correlation_map e) = Some d -> P d new) ->
  extends P e {| correlation_map := Dict.set k new (correlation_map e);
                 relationships := l |}.
Proof.
  intros H. split; simpl.
  - rewrite keys_set. destruct (Dict.mem k (correlation_map e)); [easy|].
    now apply prefix_app_r.
  - intros k0 d Hd. rewrite get_set.
    destruct (decide (k0 = k)) as [->|]; [|now exists d].
    exists new. split; [easy|]. now apply H.
Qed.

Lemma extends_same_map e e' :
  correlation_map e' = correlation_map e -> extends P e e'.
Proof. intros H. split; rewrite H; [easy|]. intros k d Hd. now exists d. Qed.

Lemma extends_getitem k : preserves (extends P) (getitem k).
Proof.
  intros e. unfold getitem, Dict.getitem.
  destruct (Dict.get k (correlation_map e)) eqn:E; simpl.
  - now apply extends_same_map.
  - apply extends_set. congruence.
Qed.

Lemma extends_update_entity k field f :
  (forall r, P (Entity r) (Entity (f r))) -> preserves (extends P) (update_entity k field f).
Proof.
  intros Hf e. unfold update_entity, bind, getitem, Dict.getitem.
  destruct (Dict.get k (correlation_map e)) as [[r|c]|] eqn:E; simpl.
  - apply extends_set. intros d Hd. rewrite E in Hd. injection Hd as <-. apply Hf.
  - now apply extends_same_map.
  - rewrite set_set. apply extends_set. congruence.
Qed.

Lemma extends_add_entity source o : preserves (extends P) (add_entity source o).
Proof.
  intros e.
  destruct (obs_value o) as [v|] eqn:Hv;
    [|rewrite add_entity_no_value by easy; apply extends_refl].
  destruct (obs_type o) as [t|] eqn:Ht;
    [|rewrite (add_entity_no_type _ _ v) by easy; apply extends_refl].
  rewrite (add_entity_eq _ _ v t) by easy. unfold item.
  destruct (Dict.get (_normalize_key v) (correlation_map e)) as [[r|c]|] eqn:E; simpl;
    apply extends_set; try congruence.
  - intros d Hd. rewrite E in Hd. injection Hd as <-.
    apply (P_trans _ (claim_type t (Entity r))); [apply P_claim_type|].
    apply (P_trans _ (add_source source (claim_type t (Entity r))));
      [apply P_add_source|]. apply P_record_occurrence.
  - intros d Hd. rewrite E in Hd. injection Hd as <-.
    apply (P_add_source source (Corpus c)).
Qed.

Lemma extends_add_raw_item it : preserves (extends P) (add_raw_item it).
Proof.
  intros e. destruct it as [source content]. rewrite add_raw_item_eq.
  destruct (Dict.get "raw_data" (correlation_map e)) as [[r|c]|] eqn:E; simpl.
  - apply extends_refl.
  - apply extends_set. intros d Hd. rewrite E in Hd. injection Hd as <-.
    apply P_store_content.
  - apply extends_set. congruence.
Qed.

Lemma extends_link_pair k1 k2 : preserves (extends P) (link_pair k1 k2).
Proof.
  unfold link_pair.
  apply preserves_bind; [exact extends_trans|apply extends_getitem|]. intros d1.
  apply preserves_bind; [exact extends_trans|apply extends_getitem|]. intros d2.
  destruct (decide _); [apply preserves_ret, extends_refl|].
  apply preserves_bind;
    [exact extends_trans|apply extends_update_entity, P_add_linked|]. intros _.
  apply preserves_bind;
    [exact extends_trans|apply extends_update_entity, P_add_linked|]. intros _.
  intros e. now apply extends_same_map.
Qed.

Lemma extends_link_all ks : preserves (extends P) (link_all ks).
Proof.
  induction ks as [|k1 rest IH]; simpl; [apply preserves_ret, extends_refl|].
  apply preserves_bind; [exact extends_trans| |easy].
  apply preserves_for_each;
    [exact extends_refl|exact extends_trans|apply extends_link_pair].
Qed.

Lemma extends_count_linked ks : preserves (extends P) (count_linked ks).
Proof.
  induction ks as [|k rest IH]; simpl; [apply preserves_ret, extends_refl|].
  apply preserves_bind; [exact extends_trans|apply extends_getitem|].
  intros [r|c]; [|apply preserves_raise, extends_refl].
  apply preserves_bind; [exact extends_trans|easy|].
  intros n. apply preserves_ret, extends_refl.
Qed.

Lemma extends_correlate : preserves (extends P) correlate.
Proof.
  unfold correlate.
  apply preserves_bind; [exact extends_trans| |intros _].
  { apply (preserves_reading (extends P) (fun e => entity_keys (correlation_map e))).
    apply extends_link_all. }
  apply preserves_bind; [exact extends_trans| |intros _].
  { apply (preserves_reading (extends P) (fun e => Dict.keys (correlation_map e))
             (fun ks => for_each ks _)).
    intros ks. apply preserves_for_each; [exact extends_refl|exact extends_trans|].
    intros k. destruct (decide _); [apply preserves_ret, extends_refl|].
    apply extends_update_entity, P_set_final_score. }
  intros e. unfold compile_result.
  match goal with |- context [bind ?c ?k] => assert (H : preserves (extends P) (bind c k)) end.
  { apply preserves_bind; [exact extends_trans|apply extends_count_linked|].
    intros n e'. apply extends_refl. }
  apply H.
Qed.

Lemma extends_exec c e : extends P e (exec c e).
Proof.
  destruct c; simpl.
  - apply (preserves_for_each (extends P) extends_refl extends_trans).
    apply extends_add_raw_item.
  - apply (preserves_for_each (extends P) extends_refl extends_trans).
    intros [source entities].
    apply (preserves_for_each (extends P) extends_refl extends_trans).
    apply extends_add_entity.
  - apply extends_correlate.
  - apply extends_refl.
Qed.

Lemma extends_steps later e :
  extends P e (fold_left (fun e c => exec c e) later e).
Proof.
  revert e. induction later as [|c later IH]; intros e; simpl; [apply extends_refl|].
  exact (extends_trans _ _ _ (extends_exec c e) (IH _)).
Qed.
End Extends.

Lemma record_grows_refl r : record_grows r r.
Proof. repeat split; try easy. now left. Qed.

Lemma record_grows_trans r1 r2 r3 :
  record_grows r1 r2 -> record_grows r2 r3 -> record_grows r1 r3.
Proof.
  intros (S1 & L1 & O1 & I1) (S2 & L2 & O2 & I2). repeat split.
  - set_solver.
  - set_solver.
  - now transitivity (default [] (occurrences r2)).
  - destruct I1 as [E1|I1], I2 as [E2|I2].
    + left. congruence.
    + right. now rewrite <- E1.
    + right. now rewrite E2.
    + right. exact (FloatFacts.ltb_trans _ _ _ I1 I2).
Qed.

Lemma entry_grows_refl d : entry_grows d d.
Proof. destruct d; simpl; [apply record_grows_refl|easy]. Qed.

Lemma entry_grows_trans d1 d2 d3 :
  entry_grows d1 d2 -> entry_grows d2 d3 -> entry_grows d1 d3.
Proof.
  destruct d1, d2, d3; simpl; try easy.
  - apply record_grows_trans.
  - intros [S1 K1] [S2 K2]. split; [set_solver|]. now transitivity (Dict.keys (data c0)).
Qed.

Lemma entry_grows_steps later e :
  extends entry_grows e (fold_left (fun e c => exec c e) later e).
Proof.
  apply extends_steps.
  - exact entry_grows_refl.
  - exact entry_grows_trans.
  - intros t [r|c]; simpl; [|easy]. repeat split; try easy. now left.
  - intros s [r|c]; simpl.
    + repeat split; try easy; [set_solver|now left].
    + split; [set_solver|easy].
  - intros o r. simpl. repeat split; try easy.
    + now apply prefix_app_r.
    + cbn [record_occurrence importance]. unfold py_max.
      destruct (importance r <? _)%float eqn:E; [now right|now left].
  - intros k r. simpl. repeat split; try easy; [set_solver|now left].
  - intros r. simpl. repeat split; try easy. now left.
  - intros s x c. simpl. split; [easy|]. rewrite keys_set.
    destruct (Dict.mem s (data c)); [easy|]. now apply prefix_app_r.
Qed.

(** X4. No call removes or reorders a key: after any sequence of calls,
    returning or raising, on any state, the keys the map had come first
    and in the same order. *)
Theorem keys_keep_their_order (e : Engine) (later : list call) :
  Dict.keys (correlation_map e)
  `prefix_of` Dict.keys (correlation_map (fold_left (fun e c => exec c e) later e)).
Proof. exact (proj1 (entry_grows_steps later e)). Qed.

(** X5. No call takes anything away from a value of the map: after any
    sequence of calls, returning or raising, on any state, an entity record
    is still an entity record with at least the sources and links it had,
    its occurrences extended at the end only, and an importance that is the
    same float or a greater one; the corpus value is still a corpus value
    with at least its sources and stored texts. *)
Theorem values_only_grow (e : Engine) (later : list call) k d :
  Dict.get k (correlation_map e) = Some d ->
  exists d',
    Dict.get k (correlation_map (fold_left (fun e c => exec c e) later e)) = Some d'
    /\ entry_grows d d'.
Proof. exact (proj2 (entry_grows_steps later e) k d). Qed.

Lemma values_only_grow_witness :
  exists d',
    Dict.get "admin@example.com"
      (correlation_map
         (fold_left (fun e c => exec c e)
            [AddParsedEntities [("source2", [obs_scored "EMAIL" "Admin@Example.com" 0.8])];
             Correlate]
            (run [AddParsedEntities [("source1", [obs "EMAIL" "admin@example.com"])]])))
    = Some d'
    /\ entry_grows (Entity (ingest_record "source1" "EMAIL"
                              (obs "EMAIL" "admin@example.com") default_record)) d'.
Proof.
  apply (values_only_grow
           (run [AddParsedEntities [("source1", [obs "EMAIL" "admin@example.com"])]])
           [AddParsedEntities [("source2", [obs_scored "EMAIL" "Admin@Example.com" 0.8])];
            Correlate]
           "admin@example.com").
  reflexivity.
Defined.

(** ** The summary [correlate] returns *)

Lemma length_filter_le {A} (P : A -> Prop) `{forall x, Decision (P x)} (l : list A) :
  length (filter P l) <= length l.
Proof.
  induction l as [|x l IH]; [easy|]. rewrite filter_cons.
  destruct (decide (P x)); simpl; lia.
Qed.

Lemma length_not_one {A} (l : list A) :
  (forall a, a ∈ l -> exists b, b ∈ l /\ b ≠ a) -> length l ≠ 1.
Proof.
  destruct l as [|a [|b l]]; simpl; try easy.
  intros H _. destruct (H a) as (b & Hb & Hne); [left|]. now apply list_elem_of_singleton in Hb.
Qed.

Lemma NoDup_filters_app {A} (P Q : A -> Prop)
    `{forall x, Decision (P x)} `{forall x, Decision (Q x)} (l : list A) :
  NoDup l -> (forall x, P x -> Q x -> False) -> NoDup (filter P l ++ filter Q l).
Proof.
  intros Hl HPQ. apply NoDup_app. split; [now apply NoDup_filter|].
  split; [|now apply NoDup_filter].
  intros x [HP _]%list_elem_of_filter [HQ _]%list_elem_of_filter. exact (HPQ x HP HQ).
Qed.

(** X6. The summary of [correlate], on every history of calls, is
    consistent: the linked entities are among the entities counted and are
    never exactly one (a link has two ends); the high-value count is the
    length of the high-value list, at most the total; and the lists of CTF
    flags, API keys and credentials hold identity keys, none twice and none
    in two lists, so that their lengths add up to the total at most. *)
Theorem correlate_summary_is_consistent (history : list call) :
  exists res e',
    correlate (run history) = (Ret res, e') /\
    linked_count res <= total_entities res /\
    linked_count res ≠ 1 /\
    high_value_count res = length (high_value_entities res) /\
    high_value_count res <= total_entities res /\
    NoDup (ctf_flags res ++ api_keys res ++ credentials res) /\
    (forall k, k ∈ ctf_flags res ++ api_keys res ++ credentials res ->
               k ∈ entity_keys (correlation_map (run history))) /\
    length (ctf_flags res) + length (api_keys res) + length (credentials res)
      <= total_entities res.
Proof.
  destruct (correlate_spec (run history) (wf_run history)) as (res & e' & E & C).
  exists res, e'. split; [easy|].
  pose proof (NoDup_entity_keys _ (wf_run history)) as ND.
  assert (Hnd : NoDup (ctf_flags res ++ api_keys res ++ credentials res)).
  { rewrite (cor_ctf_flags _ _ _ C), (cor_api_keys _ _ _ C), (cor_credentials _ _ _ C).
    apply NoDup_app. split; [now apply NoDup_filter|]. split.
    - intros x [HP _]%list_elem_of_filter [[HQ _]%list_elem_of_filter|[HQ _]%list_elem_of_filter]%elem_of_app;
        congruence.
    - apply NoDup_filters_app; [easy|]. congruence. }
  assert (Hin : forall k, k ∈ ctf_flags res ++ api_keys res ++ credentials res ->
                          k ∈ entity_keys (correlation_map (run history))).
  { intros k. rewrite (cor_ctf_flags _ _ _ C), (cor_api_keys _ _ _ C), (cor_credentials _ _ _ C).
    rewrite !elem_of_app, !list_elem_of_filter. tauto. }
  split; [|split; [|split; [|split; [|split; [|split]]]]].
  - rewrite (cor_linked_count _ _ _ C), (cor_total _ _ _ C). apply length_filter_le.
  - rewrite (cor_linked_count _ _ _ C). apply length_not_one.
    intros a [Ha Hk]%list_elem_of_filter.
    destruct (size_pos_elem_of (links e' a)) as [b Hb]; [lia|].
    destruct (wf_links_sound e' a b (cor_wf _ _ _ C) Hb) as (Hne & _ & Hbk & _).
    exists b. split; [|easy]. apply list_elem_of_filter. split.
    + apply wf_links_sym in Hb; [|exact (cor_wf _ _ _ C)].
      assert (links e' b ≠ ∅) by set_solver.
      destruct (decide (size (links e' b) = 0)) as [Z|]; [|lia].
      now apply size_empty_inv, leibniz_equiv in Z.
    + unfold entity_keys in *. now rewrite (cor_keys _ _ _ C) in Hbk.
  - apply (cor_high_value_count _ _ _ C).
  - rewrite (cor_high_value_count _ _ _ C), (cor_high_value _ _ _ C), (cor_total _ _ _ C).
    apply length_filter_le.
  - exact Hnd.
  - exact Hin.
  - rewrite (cor_total _ _ _ C), <- !length_app, <- app_assoc.
    apply submseteq_length, NoDup_submseteq; [exact Hnd|exact Hin].
Qed.

(** ** Relationships and links *)

Lemma links_item e k : links e k = entry_links (item (correlation_map e) k).
Proof.
  unfold links, record_at, item.
  now destruct (Dict.get k (correlation_map e)) as [[r|c]|].
Qed.

Lemma same_links_refl e : same_links e e.
Proof. split; [easy|]. intros k. now split. Qed.

Lemma same_links_trans e1 e2 e3 :
  same_links e1 e2 -> same_links e2 e3 -> same_links e1 e3.
Proof.
  intros [R12 H12] [R23 H23]. split; [congruence|]. intros k.
  destruct (H12 k) as [L1 S1], (H23 k) as [L2 S2]. split; [congruence|set_solver].
Qed.

Lemma same_links_set e k new :
  entry_links new = entry_links (item (correlation_map e) k) ->
  entry_sources (item (correlation_map e) k) ⊆ entry_sources new ->
  same_links e (with_map e (Dict.set k new (correlation_map e))).
Proof.
  intros HL HS. split; [easy|]. intros k0. rewrite !links_item. unfold srcs, item. simpl.
  rewrite get_set. destruct (decide (k0 = k)) as [->|]; [|easy]. now split.
Qed.

Lemma same_links_add_entity source o : preserves same_links (add_entity source o).
Proof.
  intros e.
  destruct (obs_value o) as [v|] eqn:Hv;
    [|rewrite add_entity_no_value by easy; apply same_links_refl].
  destruct (obs_type o) as [t|] eqn:Ht;
    [|rewrite (add_entity_no_type _ _ v) by easy; apply same_links_refl].
  rewrite (add_entity_eq _ _ v t) by easy.
  destruct (item (correlation_map e) (_normalize_key v)) as [r|c] eqn:E; simpl;
    apply same_links_set; rewrite E; simpl; set_solver.
Qed.

Lemma same_links_add_raw_item it : preserves same_links (add_raw_item it).
Proof.
  intros e. destruct it as [source content]. rewrite add_raw_item_eq.
  destruct (Dict.get "raw_data" (correlation_map e)) as [[r|c]|] eqn:E; simpl.
  - apply same_links_refl.
  - apply same_links_set; unfold item; rewrite E; simpl; set_solver.
  - apply same_links_set; unfold item; rewrite E; simpl; set_solver.
Qed.

Lemma rels_ok_same_links e e' : rels_ok e -> same_links e e' -> rels_ok e'.
Proof.
  intros [H1 H2] [HR HL]. split.
  - intros rel Hrel. rewrite HR in Hrel.
    destruct (H1 rel Hrel) as (A & B & C & D & E). repeat split; try easy.
    + pose proof (proj2 (HL (entity1 rel))). pose proof (proj2 (HL (entity2 rel))).
      set_solver.
    + now rewrite (proj1 (HL (entity1 rel))).
  - intros a b Hb. rewrite (proj1 (HL a)) in Hb. rewrite HR. now apply H2.
Qed.

Lemma rels_ok_correlate e : wf e -> rels_ok e -> rels_ok (snd (correlate e)).
Proof.
  intros Hwf [H1 H2]. destruct (correlate_spec e Hwf) as (res & e' & E & C).
  rewrite E. simpl. split.
  - intros rel Hrel. rewrite (cor_relationships _ _ _ C) in Hrel.
    apply elem_of_app in Hrel as [Hrel|Hrel].
    + destruct (H1 rel Hrel) as (A & B & C0 & D & E0). repeat split; try easy.
      * now rewrite !(cor_srcs _ _ _ C).
      * now apply (cor_mono _ _ _ C).
    + apply pass_rels_elem in Hrel as (a & b & Ha & Hb & Hab & -> & Hc);
        [|now apply NoDup_entity_keys].
      repeat split; simpl; try easy.
      * now rewrite !(cor_srcs _ _ _ C).
      * now apply (cor_complete _ _ _ C).
  - intros a b Hb.
    destruct (wf_links_sound e' a b (cor_wf _ _ _ C) Hb) as (Hne & Ha & Hbk & Hc).
    unfold entity_keys in Ha, Hbk. rewrite (cor_keys _ _ _ C) in Ha, Hbk.
    rewrite !(cor_srcs _ _ _ C) in Hc.
    destruct (pass_rels_complete e _ a b Ha Hbk Hne Hc) as [H|H].
    + eexists. split; [rewrite (cor_relationships _ _ _ C); apply elem_of_app; right; exact H|].
      left. now split.
    + eexists. split; [rewrite (cor_relationships _ _ _ C); apply elem_of_app; right; exact H|].
      right. now split.
Qed.

Lemma rels_ok_exec c e : wf e -> rels_ok e -> rels_ok (exec c e).
Proof.
  intros Hwf Hok. destruct c; simpl.
  - apply (rels_ok_same_links e); [easy|].
    apply (preserves_for_each same_links same_links_refl same_links_trans).
    apply same_links_add_raw_item.
  - apply (rels_ok_same_links e); [easy|].
    apply (preserves_for_each same_links same_links_refl same_links_trans).
    intros [source entities].
    apply (preserves_for_each same_links same_links_refl same_links_trans).
    apply same_links_add_entity.
  - now apply rels_ok_correlate.
  - easy.
Qed.

Lemma rels_ok_steps history e :
  wf e -> rels_ok e -> rels_ok (fold_left (fun e c => exec c e) history e).
Proof.
  revert e. induction history as [|c history IH]; intros e Hwf Hok; simpl; [easy|].
  apply IH; [now apply wf_exec|now apply rels_ok_exec].
Qed.

Lemma rels_ok_run history : rels_ok (run history).
Proof.
  apply rels_ok_steps; [apply wf_init|]. split.
  - now intros rel ?%elem_of_nil.
  - intros a b Hb. now rewrite links_item in Hb.
Qed.

(** X7. The relationship list and the links of the map bear each other
    out, on every history of calls: each relationship is a co-occurrence of
    two distinct identity keys that are linked to each other, its strength
    is the number of its sources, at least one, and all of them are sources
    of both keys; and each link has a relationship joining its two ends.
    So the list is empty exactly when nothing is linked. *)
Theorem relationships_and_links_agree (history : list call) :
  (forall rel, rel ∈ relationships (run history) ->
     relationship rel = "co_occurrence" /\
     strength rel = size (rel_sources rel) /\ 1 <= strength rel /\
     entity1 rel ≠ entity2 rel /\
     entity1 rel ∈ entity_keys (correlation_map (run history)) /\
     entity2 rel ∈ entity_keys (correlation_map (run history)) /\
     rel_sources rel ⊆ srcs (run history) (entity1 rel) ∩ srcs (run history) (entity2 rel) /\
     entity2 rel ∈ links (run history) (entity1 rel) /\ entity1 rel ∈ links (run history) (entity2 rel)) /\
  (forall a b, b ∈ links (run history) a ->
     exists rel, rel ∈ relationships (run history) /\
       ((entity1 rel = a /\ entity2 rel = b) \/ (entity1 rel = b /\ entity2 rel = a))) /\
  (relationships (run history) = [] <-> forall k, links (run history) k = ∅).
Proof.
  destruct (rels_ok_run history) as [H1 H2]. pose proof (wf_run history) as Hwf.
  set (e := run history) in *.
  split; [|split; [exact H2|]].
  - intros rel Hrel. destruct (H1 rel Hrel) as (A & B & C & D & E).
    destruct (wf_links_sound e _ _ Hwf E) as (Hne & Ha & Hb & _).
    repeat split; try easy.
    + rewrite B. destruct (decide (size (rel_sources rel) = 0)) as [Z|]; [|lia].
      now apply size_empty_inv, leibniz_equiv in Z.
    + now apply wf_links_sym.
  - split.
    + intros Hnil k. apply set_eq. intros b. split; [|set_solver].
      intros Hb. destruct (H2 k b Hb) as (rel & Hrel & _). rewrite Hnil in Hrel.
      now apply elem_of_nil in Hrel.
    + intros Hno. destruct (relationships e) as [|rel l] eqn:E; [easy|].
      destruct (H1 rel) as (_ & _ & _ & _ & Hl); [now left|].
      rewrite Hno in Hl. set_solver.
Qed.

(** ** The entity extractor *)

Lemma unique_fold seen acc l :
  fold_left keep_unseen l (seen, acc)
  = (seen ∪ list_to_set (ent_key <$> l), acc ++ unique_from seen l).
Proof.
  revert seen acc. induction l as [|ent l IH]; intros seen acc; simpl.
  - f_equal; [set_solver|now rewrite app_nil_r].
  - unfold keep_unseen at 2. simpl. case_decide as H.
    + rewrite IH. f_equal. set_solver.
    + rewrite IH, <- app_assoc. simpl. f_equal. set_solver.
Qed.

Lemma unique_eq l : unique l = unique_from ∅ l.
Proof. unfold unique. now rewrite unique_fold. Qed.

Lemma unique_from_sublist seen l : unique_from seen l `sublist_of` l.
Proof.
  revert seen. induction l as [|ent l IH]; intros seen; simpl; [easy|].
  case_decide; [apply sublist_cons, IH|apply sublist_skip, IH].
Qed.

Lemma unique_from_unseen seen l ent :
  ent ∈ unique_from seen l -> ent_key ent ∉ seen.
Proof.
  revert seen. induction l as [|x l IH]; intros seen; simpl; [now intros ?%elem_of_nil|].
  case_decide as H; [apply IH|].
  intros [->|Hin]%elem_of_cons; [easy|]. apply IH in Hin. set_solver.
Qed.

Lemma unique_from_NoDup seen l : NoDup (ent_key <$> unique_from seen l).
Proof.
  revert seen. induction l as [|x l IH]; intros seen; [constructor|].
  cbn [unique_from]. case_decide as H; [apply IH|].
  rewrite fmap_cons. apply NoDup_cons. split; [|apply IH].
  intros [ent [Hk Hin]]%list_elem_of_fmap. apply unique_from_unseen in Hin.
  rewrite <- Hk in Hin. apply Hin, elem_of_union_r, elem_of_singleton. reflexivity.
Qed.

Lemma unique_from_complete seen l ent :
  ent ∈ l -> ent_key ent ∉ seen ->
  exists ent', ent' ∈ unique_from seen l /\ ent_key ent' = ent_key ent.
Proof.
  revert seen. induction l as [|x l IH]; intros seen; simpl; [now intros ?%elem_of_nil|].
  intros [->|Hin]%elem_of_cons Hk.
  - rewrite decide_False by easy. exists x. split; [now left|easy].
  - case_decide as H; [now apply IH|].
    destruct (decide (ent_key ent = ent_key x)) as [E|E].
    + exists x. split; [now left|easy].
    + destruct (IH (seen ∪ {[ent_key x]}) Hin) as (ent' & H1 & H2); [set_solver|].
      exists ent'. split; [now right|easy].
Qed.

Lemma first_with_its_key_cons x ent l :
  ent_key x ≠ ent_key ent -> first_with_its_key ent l -> first_with_its_key ent (x :: l).
Proof.
  intros Hne (i & Hi & Hfirst). exists (S i). split; [easy|].
  intros [|j] ent' Hj; simpl; [intros [= <-]; easy|]. apply Hfirst. lia.
Qed.

Lemma unique_from_first seen l ent :
  ent ∈ unique_from seen l -> first_with_its_key ent l.
Proof.
  revert seen. induction l as [|x l IH]; intros seen; simpl; [now intros ?%elem_of_nil|].
  case_decide as H.
  - intros Hin. apply first_with_its_key_cons; [|now apply (IH seen)].
    apply unique_from_unseen in Hin. congruence.
  - intros [->|Hin]%elem_of_cons.
    + exists 0. split; [easy|]. intros j ent' Hj. lia.
    + apply first_with_its_key_cons; [|now apply (IH (seen ∪ {[ent_key x]}))].
      apply unique_from_unseen in Hin. intros E. rewrite E in Hin.
      apply Hin, elem_of_union_r, elem_of_singleton. reflexivity.
Qed.

Lemma collected_described lib text source ent :
  ent ∈ collected lib text source -> fully_described source ent.
Proof.
  unfold collected, fully_described.
  intros [H|[H|H]%elem_of_app]%elem_of_app.
  - apply list_elem_of_fmap in H as (s & -> & _). simpl.
    repeat split; try easy. set_solver.
  - apply list_elem_of_fmap in H as (s & -> & _). simpl.
    repeat split; try easy. set_solver.
  - apply list_elem_of_fmap in H as (o & -> & Ho). unfold _extract_regex_entities in Ho.
    apply list_elem_of_In, in_flat_map in Ho as (t & _ & Ho%list_elem_of_In).
    apply list_elem_of_fmap in Ho as (m & -> & _). simpl.
    repeat split; try easy. set_solver.
Qed.

Lemma extract_entities_blank lib text source :
  Str.strip text = "" -> extract_entities lib text source = [].
Proof.
  intros H. unfold extract_entities. rewrite H. simpl. now rewrite orb_true_r.
Qed.

Lemma extract_entities_not_blank lib text source :
  Str.strip text ≠ "" ->
  extract_entities lib text source = unique_from ∅ (collected lib (truncated text) source).
Proof.
  intros H. unfold extract_entities. rewrite unique_eq.
  destruct text as [|c text]; [easy|]. rewrite bool_decide_false by easy.
  destruct (Str.strip (String c text)); [easy|]. reflexivity.
Qed.

(** X8. [extract_entities] returns nothing for an empty or blank text,
    whatever the libraries would answer. Otherwise it returns, in the order
    collected (spaCy entities, pattern matches, regex matches in table
    order), the first dictionary of each (type, value) pair and no other:
    no pair occurs twice, every pair collected occurs, and each dictionary
    carries type, value, start, end, the given source, one of the three
    method names, and no importance score. *)
Theorem extract_entities_keeps_first_of_each lib text source :
  (Str.strip text = "" -> extract_entities lib text source = []) /\
  NoDup (ent_key <$> extract_entities lib text source) /\
  extract_entities lib text source `sublist_of` collected lib (truncated text) source /\
  (forall ent, ent ∈ extract_entities lib text source ->
     fully_described source ent /\
     first_with_its_key ent (collected lib (truncated text) source)) /\
  (Str.strip text ≠ "" ->
   forall ent, ent ∈ collected lib (truncated text) source ->
     exists ent', ent' ∈ extract_entities lib text source /\ ent_key ent' = ent_key ent).
Proof.
  split; [apply extract_entities_blank|].
  destruct (decide (Str.strip text = "")) as [B|B].
  - rewrite (extract_entities_blank _ _ _ B). split; [constructor|].
    split; [apply sublist_nil_l|]. split; [now intros ent ?%elem_of_nil|easy].
  - rewrite (extract_entities_not_blank _ _ _ B).
    split; [apply unique_from_NoDup|]. split; [apply unique_from_sublist|]. split.
    + intros ent Hin. split; [|now apply (unique_from_first ∅)].
      apply (collected_described lib (truncated text)).
      exact (elem_of_sublist _ _ _ Hin (unique_from_sublist _ _)).
    + intros _ ent Hin. apply unique_from_complete; [easy|set_solver].
Qed.

Lemma length_substring_le m s : String.length (substring 0 m s) <= m.
Proof.
  revert s. induction m as [|m IH]; intros s; [now destruct s|].
  destruct s as [|c s]; simpl; [lia|]. specialize (IH s). lia.
Qed.

Lemma length_truncated text :
  (N.of_nat (String.length (truncated text)) <= max_length)%N.
Proof.
  unfold truncated. generalize max_length. intros n.
  destruct (N.ltb_spec n (N.of_nat (String.length text))) as [H|H]; [|easy].
  pose proof (length_substring_le (N.to_nat n) text). lia.
Qed.

(** X9. [extract_entities] never hands the libraries more than the first
    1,000,000 characters of the text: with libraries that answer alike on
    every text of at most that length, it returns the same list. *)
Theorem extract_entities_reads_a_bounded_text lib1 lib2 text source :
  agree_up_to_max_length lib1 lib2 ->
  extract_entities lib1 text source = extract_entities lib2 text source.
Proof.
  intros H. unfold extract_entities.
  destruct (bool_decide (text = "") || (String.length (Str.strip text) =? 0)%nat);
    [easy|].
  f_equal. unfold collected, _extract_regex_entities.
  destruct (H (truncated text) (length_truncated text)) as (H1 & H2 & H3).
  rewrite H1, H2. do 3 f_equal. apply flat_map_ext. intros name. now rewrite H3.
Qed.

Lemma extract_entities_reads_a_bounded_text_witness :
  extract_entities one_entity_libraries "ACME runs the CTF" "web"
  = extract_entities short_text_libraries "ACME runs the CTF" "web".
Proof.
  apply extract_entities_reads_a_bounded_text.
  intros text Hlen. simpl.
  destruct (N.ltb_spec max_length (N.of_nat (String.length text))); [lia|easy].
Defined.

(** ** Relationships between the entities of one source *)

Lemma get_elem_of {V} k (v : V) d : Dict.get k d = Some v -> (k, v) ∈ d.
Proof.
  induction d as [|[k' v'] d IH]; simpl; [easy|].
  case_decide as E; [intros [= ->]; subst; now left|]. intros H. right. now apply IH.
Qed.

Lemma elem_of_get {V} k (v : V) d :
  NoDup (Dict.keys d) -> (k, v) ∈ d -> Dict.get k d = Some v.
Proof.
  induction d as [|[k' v'] d IH]; simpl; [now intros _ ?%elem_of_nil|].
  intros [Hk Hd]%NoDup_cons [[= -> ->]|Hin]%elem_of_cons.
  - now rewrite decide_True.
  - rewrite decide_False; [now apply IH|]. intros ->. apply Hk.
    unfold Dict.keys. apply list_elem_of_fmap. now exists (k', v).
Qed.

Lemma get_group_step s by_source ent :
  Dict.get s (group_step by_source ent)
  = if decide (s = source_of ent)
    then Some (default [] (Dict.get s by_source) ++ [ent])
    else Dict.get s by_source.
Proof.
  unfold group_step. fold (source_of ent). rewrite get_set.
  case_decide as E; [subst s|].
  - unfold Dict.mem. destruct (Dict.get (source_of ent) by_source) eqn:G; [now rewrite G|].
    now rewrite get_set_eq.
  - unfold Dict.mem. destruct (Dict.get (source_of ent) by_source) eqn:G; [easy|].
    now rewrite get_set_ne.
Qed.

Lemma NoDup_group_step by_source ent :
  NoDup (Dict.keys by_source) -> NoDup (Dict.keys (group_step by_source ent)).
Proof.
  intros H. unfold group_step. apply NoDup_keys_set.
  destruct (Dict.mem _ by_source); [easy|]. now apply NoDup_keys_set.
Qed.

Lemma get_groups s entities by_source :
  Dict.get s (fold_left group_step entities by_source)
  = match Dict.get s by_source, filter (fun ent => source_of ent = s) entities with
    | None, [] => None
    | old, new => Some (default [] old ++ new)
    end.
Proof.
  revert by_source. induction entities as [|ent entities IH]; intros by_source.
  - simpl. destruct (Dict.get s by_source); [now rewrite app_nil_r|easy].
  - cbn [fold_left]. rewrite IH, get_group_step, filter_cons.
    destruct (decide (s = source_of ent)) as [->|E].
    + rewrite decide_True by easy.
      destruct (Dict.get (source_of ent) by_source) as [old|]; simpl; [|easy].
      now rewrite <- app_assoc.
    + rewrite decide_False by congruence. reflexivity.
Qed.

Lemma NoDup_groups entities by_source :
  NoDup (Dict.keys by_source) ->
  NoDup (Dict.keys (fold_left group_step entities by_source)).
Proof.
  revert by_source. induction entities as [|ent entities IH]; intros by_source H; [easy|].
  simpl. now apply IH, NoDup_group_step.
Qed.

Lemma pair_sublist_cons {A} (a b x : A) l :
  [a; b] `sublist_of` x :: l <-> (a = x /\ b ∈ l) \/ [a; b] `sublist_of` l.
Proof.
  rewrite sublist_cons_r. split.
  - intros [H|(l' & [= -> <-] & H)]; [now right|]. left. split; [easy|].
    now apply singleton_sublist_l.
  - intros [[-> H]|H]; [|now left]. right. exists [b]. split; [easy|].
    now apply singleton_sublist_l.
Qed.

Lemma pair_sublist_filter {A} (P : A -> Prop) `{forall x, Decision (P x)} (a b : A) l :
  [a; b] `sublist_of` filter P l <-> P a /\ P b /\ [a; b] `sublist_of` l.
Proof.
  induction l as [|x l IH]; [rewrite filter_nil; split; [intros H0|intros (_ & _ & H0)];
                             now apply sublist_nil_r in H0|].
  rewrite filter_cons. destruct (decide (P x)) as [Hx|Hx].
  - rewrite !pair_sublist_cons, IH, list_elem_of_filter. split.
    + intros [(-> & Hb & Hin)|(Ha & Hb & Hs)]; [|tauto]. split; [easy|]. split; [easy|].
      now left.
    + intros (Ha & Hb & [[-> Hin]|Hs]); [left|right]; tauto.
  - rewrite pair_sublist_cons, IH. split; [tauto|].
    intros (Ha & Hb & [[-> Hin]|Hs]); [easy|tauto].
Qed.

Lemma pairs_within_spec l a b r :
  (a, b, r) ∈ pairs_within l <->
  r = "co_occurrence" /\ close a b = true /\ [a; b] `sublist_of` l.
Proof.
  induction l as [|x l IH]; simpl.
  - split; [now intros ?%elem_of_nil|]. intros (_ & _ & H). now apply sublist_nil_r in H.
  - rewrite elem_of_app, IH, pair_sublist_cons, list_elem_of_fmap. split.
    + intros [(ent2 & [= -> -> ->] & [Hc Hin]%list_elem_of_filter)|(Hr & Hc & Hs)];
        [|tauto].
      split; [easy|]. split; [easy|]. now left.
    + intros (-> & Hc & [[-> Hin]|Hs]); [left|right; tauto].
      exists b. split; [easy|]. now apply list_elem_of_filter.
Qed.

(** X10. [extract_relationships] returns exactly the pairs of entities of
    the list that have the same source (['unknown'] for an entity without
    one), whose start offsets (0 when absent) differ by less than 1000, and
    of which the first stands before the second in the list, each with the
    type ['co_occurrence']. *)
Theorem extract_relationships_pairs_close_entities_of_a_source entities a b r :
  (a, b, r) ∈ extract_relationships entities <->
  r = "co_occurrence" /\ source_of a = source_of b /\ close a b = true /\
  [a; b] `sublist_of` entities.
Proof.
  unfold extract_relationships, group_by_source.
  assert (Hgroup : forall s l,
            (s, l) ∈ fold_left group_step entities [] ->
            l = filter (fun ent => source_of ent = s) entities).
  { intros s l Hin. apply elem_of_get in Hin; [|apply NoDup_groups; constructor].
    rewrite get_groups in Hin. simpl in Hin.
    destruct (filter _ entities); [easy|]. now injection Hin as <-. }
  split.
  - intros (p & Hp%list_elem_of_In & Hin%list_elem_of_In)%list_elem_of_In%in_flat_map.
    destruct p as [s l]. simpl in Hin. rewrite (Hgroup s l Hp) in Hin.
    apply pairs_within_spec in Hin as (-> & Hc & Hs).
    apply pair_sublist_filter in Hs as (Ha & Hb & Hs).
    split; [easy|]. split; [congruence|]. now split.
  - intros (-> & Hsrc & Hc & Hs).
    apply list_elem_of_In, in_flat_map.
    exists (source_of a, filter (fun ent => source_of ent = source_of a) entities).
    split.
    + apply list_elem_of_In, get_elem_of. rewrite get_groups. simpl.
      destruct (filter _ entities) eqn:F; [|easy].
      assert (Ha : a ∈ filter (fun ent => source_of ent = source_of a) entities).
      { apply list_elem_of_filter. split; [easy|].
        apply (elem_of_sublist [a; b]); [now left|easy]. }
      rewrite F in Ha. now apply elem_of_nil in Ha.
    + apply list_elem_of_In. simpl. apply pairs_within_spec.
      split; [easy|]. split; [easy|]. apply pair_sublist_filter. now repeat split.
Qed.

(** ** The order of floats *)

Lemma SFleb_trans x y z : SFleb x y = true -> SFleb y z = true -> SFleb x z = true.
Proof.
  unfold SFleb.
  destruct x as [sx|sx| |sx mx ex], y as [sy|sy| |sy my ey], z as [sz|sz| |sz mz ez];
    simpl; try easy;
    try (destruct sx; easy); try (destruct sy; easy); try (destruct sz; easy);
    try (destruct sx, sy; easy); try (destruct sy, sz; easy); try (destruct sx, sz; easy);
    try (destruct sx, sy, sz; easy).
  change (PosDef.Pos.compare_cont Eq mx my) with (Pos.compare mx my).
  change (PosDef.Pos.compare_cont Eq my mz) with (Pos.compare my mz).
  change (PosDef.Pos.compare_cont Eq mx mz) with (Pos.compare mx mz).
  destruct sx, sy, sz; try easy;
    destruct (Z.compare_spec ex ey), (Z.compare_spec ey ez), (Z.compare_spec ex ez);
    try easy; try lia;
    destruct (Pos.compare_spec mx my), (Pos.compare_spec my mz), (Pos.compare_spec mx mz);
    cbn [CompOpp]; try easy; try lia.
Qed.

Lemma leb_trans x y z :
  (x <=? y)%float = true -> (y <=? z)%float = true -> (x <=? z)%float = true.
Proof. rewrite !FloatAxioms.leb_spec. apply SFleb_trans. Qed.

Lemma ltb_leb x y : (x <? y)%float = true -> (x <=? y)%float = true.
Proof.
  rewrite FloatAxioms.ltb_spec, FloatAxioms.leb_spec. unfold SFltb, SFleb.
  now destruct (SFcompare (Prim2SF x) (Prim2SF y)) as [[]|].
Qed.

Lemma leb_refl x : nonneg x -> (x <=? x)%float = true.
Proof.
  intros H. rewrite FloatFacts.nonneg_spec in H. rewrite FloatAxioms.leb_spec.
  unfold SFleb. destruct (Prim2SF x) as [s|s| |s m e]; simpl in *;
    try easy; subst; try easy.
  now rewrite Z.compare_refl, Pos.compare_cont_refl.
Qed.

Lemma py_max_ge_l a b : nonneg a -> (a <=? py_max a b)%float = true.
Proof.
  intros Ha. unfold py_max. destruct (a <? b)%float eqn:E; [now apply ltb_leb|].
  now apply leb_refl.
Qed.

Lemma py_max_ge_r a b : nonneg a -> nonneg b -> (b <=? py_max a b)%float = true.
Proof.
  intros Ha Hb. unfold py_max. destruct (a <? b)%float eqn:E; [now apply leb_refl|].
  rewrite FloatAxioms.ltb_spec in E. rewrite FloatAxioms.leb_spec.
  rewrite FloatFacts.nonneg_spec in Ha, Hb. now apply FloatFacts.SFleb_total.
Qed.

(** ** Scores and the noise filter *)

Lemma score_entity_importance_values entity :
  score_entity_importance entity ∈ [1.0; 0.8; 0.6; 0.75; 0.5]%float.
Proof.
  unfold score_entity_importance.
  repeat (match goal with |- context [if ?b then _ else _] => destruct b end;
          [set_solver|]).
  set_solver.
Qed.

Lemma score_entity_importance_range entity :
  (0.5 <=? score_entity_importance entity)%float = true /\
  (score_entity_importance entity <=? 1.0)%float = true.
Proof.
  pose proof (score_entity_importance_values entity) as H.
  repeat (apply elem_of_cons in H as [->|H]; [now vm_compute|]).
  now apply elem_of_nil in H.
Qed.

Lemma filter_noise_filter entities min_score :
  filter_noise entities min_score
  = scored_by_table
      <$> filter (fun entity => (min_score <=? score_entity_importance entity)%float = true)
                 entities.
Proof.
  induction entities as [|entity entities IH]; [easy|].
  cbn [filter_noise]. rewrite filter_cons.
  destruct (min_score <=? score_entity_importance entity)%float eqn:E.
  - rewrite decide_True by easy. rewrite fmap_cons. now f_equal.
  - rewrite decide_False by congruence. exact IH.
Qed.

(** X11. [filter_noise] returns, in their order and each with the score of
    [score_entity_importance] as ['importance_score'], the entities whose
    score is at least the threshold. No score is below 0.5, so a threshold
    of at most 0.5 (the default is 0.3) removes nothing; no score is above
    1.0, so a threshold that is not at most 1.0 (a greater one, or NaN)
    removes everything. *)
Theorem filter_noise_keeps_scores_above_threshold entities min_score :
  filter_noise entities min_score
  = scored_by_table
      <$> filter (fun entity => (min_score <=? score_entity_importance entity)%float = true)
                 entities /\
  ((min_score <=? 0.5)%float = true ->
   filter_noise entities min_score = scored_by_table <$> entities) /\
  ((min_score <=? 1.0)%float = false -> filter_noise entities min_score = []).
Proof.
  split; [apply filter_noise_filter|]. rewrite filter_noise_filter. split.
  - intros H. f_equal. induction entities as [|entity entities IH]; [easy|].
    rewrite filter_cons, decide_True; [now f_equal|].
    exact (leb_trans _ _ _ H (proj1 (score_entity_importance_range entity))).
  - intros H. induction entities as [|entity entities IH]; [easy|].
    rewrite filter_cons, decide_False; [exact IH|].
    intros H'. rewrite (leb_trans _ _ _ H' (proj2 (score_entity_importance_range entity))) in H.
    easy.
Qed.

Lemma nonneg_score entity : nonneg (score_entity_importance entity).
Proof.
  unfold nonneg. apply (leb_trans _ 0.5%float); [now vm_compute|].
  apply score_entity_importance_range.
Qed.

Lemma nonneg_item_importance e k r :
  wf e -> item (correlation_map e) k = Entity r -> nonneg (importance r).
Proof.
  intros Hwf. unfold item.
  destruct (Dict.get k (correlation_map e)) as [d|] eqn:E; simpl.
  - intros ->. apply (wf_importance _ Hwf k). now apply record_at_get.
  - intros [= <-]. now vm_compute.
Qed.

Lemma ingest_all_importance l r :
  nonneg (importance r) -> Forall (fun p => nonneg (hint p.2)) l ->
  nonneg (importance (ingest_all l r)) /\
  (importance r <=? importance (ingest_all l r))%float = true /\
  forall p, p ∈ l -> (hint p.2 <=? importance (ingest_all l r))%float = true.
Proof.
  unfold ingest_all. revert r. induction l as [|q l IH]; intros r Hr Hl; simpl.
  - split; [easy|]. split; [now apply leb_refl|]. now intros p ?%elem_of_nil.
  - apply Forall_cons in Hl as [Hq Hl].
    set (r1 := ingest_record q.1 (default "" (obs_type q.2)) q.2 r).
    assert (H1 : nonneg (importance r1)) by now apply FloatFacts.py_max_nonneg.
    destruct (IH r1 H1 Hl) as (N & Hmono & Hall).
    split; [easy|]. split.
    + apply (leb_trans _ (importance r1)); [|easy]. now apply py_max_ge_l.
    + intros p [->|Hp]%elem_of_cons; [|now apply Hall].
      apply (leb_trans _ (importance r1)); [|easy]. now apply py_max_ge_r.
Qed.

(** X12. Entities that went through [filter_noise] enter the engine with
    the score of the table: when the kept ones are ingested from a source,
    on any reachable engine, the call returns, and the record of each of
    them has that source and an importance of at least its score (1.0 for a
    CTF flag, an API key or a credential). The entities are required to
    have a type and a value, none normalizing to ['raw_data']. *)
Theorem filtered_entities_enter_with_their_score
    history source entities min_score o v :
  Forall well_formed entities ->
  Forall (fun o => obs_key o ≠ Some "raw_data") entities ->
  o ∈ entities -> obs_value o = Some v ->
  (min_score <=? score_entity_importance o)%float = true ->
  exists e' r,
    add_parsed_entities [(source, filter_noise entities min_score)] (run history)
    = (Ret tt, e') /\
    record_at e' (_normalize_key v) = Some r /\
    source ∈ sources r /\
    (score_entity_importance o <=? importance r)%float = true.
Proof.
  intros Hwell Hraw Ho Hv Hmin. rewrite add_parsed_entities_tagged.
  set (l := tagged [(source, filter_noise entities min_score)]).
  assert (Hl : forall p, p ∈ l ->
            exists o', o' ∈ entities /\ p = (source, scored_by_table o')).
  { intros p Hp. unfold l, tagged in Hp. simpl in Hp. rewrite app_nil_r in Hp.
    apply list_elem_of_fmap in Hp as (o1 & -> & Ho1).
    rewrite filter_noise_filter in Ho1.
    apply list_elem_of_fmap in Ho1 as (o' & -> & [_ Ho']%list_elem_of_filter).
    now exists o'. }
  assert (Hp : (source, scored_by_table o) ∈ l).
  { unfold l, tagged. simpl. rewrite app_nil_r. apply list_elem_of_fmap.
    exists (scored_by_table o). split; [easy|]. rewrite filter_noise_filter.
    apply list_elem_of_fmap. exists o. split; [easy|]. now apply list_elem_of_filter. }
  rewrite Forall_forall in Hwell, Hraw.
  destruct (ingest_tagged l (run history) (wf_run history)) as (e' & E' & W' & R' & G').
  { apply Forall_forall. intros p (o' & Ho' & ->)%Hl. exact (Hwell o' Ho'). }
  { apply Forall_forall. intros p (o' & Ho' & ->)%Hl. exact (Hraw o' Ho'). }
  set (k := _normalize_key v).
  assert (Hk : obs_key o = Some k) by (unfold obs_key; now rewrite Hv).
  assert (Hne : k ≠ "raw_data") by (specialize (Hraw o Ho); congruence).
  destruct (item_entity (run history) k (wf_run history) Hne) as [r0 Hr0].
  assert (Hnew : (source, scored_by_table o) ∈ filed_under k l)
    by now apply list_elem_of_filter.
  specialize (G' k). rewrite Hr0 in G'.
  destruct (ingest_all_importance (filed_under k l) r0) as (_ & _ & Hall).
  { exact (nonneg_item_importance _ _ _ (wf_run history) Hr0). }
  { apply Forall_forall. intros p [_ (o' & _ & ->)%Hl]%list_elem_of_filter.
    apply nonneg_score. }
  exists e', (ingest_all (filed_under k l) r0). split; [exact E'|]. split.
  { apply record_at_get. rewrite G'. destruct (filed_under k l); [|easy].
    now apply elem_of_nil in Hnew. }
  split.
  - rewrite ingest_all_sources, elem_of_union, elem_of_list_to_set. right.
    apply list_elem_of_fmap. now exists (source, scored_by_table o).
  - exact (Hall _ Hnew).
Qed.

Lemma filtered_entities_enter_with_their_score_witness :
  exists e' r,
    add_parsed_entities
      [("web", filter_noise [obs "CTF_FLAG" "CTF{demo}"; obs "PORT" "port 80"] 0.3)]
      (run [AddParsedEntities [("dns", [obs "CTF_FLAG" "ctf{demo}"])]])
    = (Ret tt, e') /\
    record_at e' (_normalize_key "CTF{demo}") = Some r /\
    "web" ∈ sources r /\
    (score_entity_importance (obs "CTF_FLAG" "CTF{demo}") <=? importance r)%float = true.
Proof.
  apply (filtered_entities_enter_with_their_score
           [AddParsedEntities [("dns", [obs "CTF_FLAG" "ctf{demo}"])]]
           "web" [obs "CTF_FLAG" "CTF{demo}"; obs "PORT" "port 80"] 0.3
           (obs "CTF_FLAG" "CTF{demo}") "CTF{demo}").
  - repeat constructor; simpl; eauto.
  - repeat constructor; now vm_compute.
  - now left.
  - reflexivity.
  - now vm_compute.
Defined.

(** ** Sorting by decreasing key *)

Lemma insert_desc_perm {A} (key : A -> nat) x l : insert_desc key x l ≡ₚ x :: l.
Proof.
  induction l as [|y r IH]; simpl; [easy|].
  destruct (key x <? key y)%nat; [|easy]. rewrite IH. apply Permutation_swap.
Qed.

Lemma sorted_desc_perm {A} (key : A -> nat) l : sorted_desc key l ≡ₚ l.
Proof.
  induction l as [|x l IH]; simpl; [easy|]. now rewrite insert_desc_perm, IH.
Qed.

Lemma insert_desc_descending {A} (key : A -> nat) x l :
  descending key l -> descending key (insert_desc key x l).
Proof.
  induction l as [|y r IH]; simpl; [easy|]. intros [Hy Hr].
  destruct (Nat.ltb_spec (key x) (key y)) as [L|L]; simpl.
  - split; [|now apply IH]. rewrite insert_desc_perm. constructor; [lia|easy].
  - split; [|easy]. constructor; [easy|].
    eapply Forall_impl; [exact Hy|]. simpl. intros z Hz. lia.
Qed.

Lemma sorted_desc_descending {A} (key : A -> nat) l : descending key (sorted_desc key l).
Proof. induction l as [|x l IH]; simpl; [easy|]. now apply insert_desc_descending. Qed.

Lemma insert_desc_with_key {A} (key : A -> nat) n x l :
  with_key key n (insert_desc key x l) = with_key key n (x :: l).
Proof.
  unfold with_key. induction l as [|y r IH]; simpl; [easy|].
  destruct (Nat.ltb_spec (key x) (key y)) as [L|L]; [|easy].
  rewrite (filter_cons _ y), IH, !(filter_cons _ x), (filter_cons _ y).
  destruct (decide (key y = n)), (decide (key x = n)); try easy. lia.
Qed.

Lemma sorted_desc_with_key {A} (key : A -> nat) n l :
  with_key key n (sorted_desc key l) = with_key key n l.
Proof.
  induction l as [|x l IH]; simpl; [easy|]. rewrite insert_desc_with_key.
  unfold with_key in *. now rewrite !(filter_cons _ x), IH.
Qed.

(** X13. The relationships section of the report says that there is no
    relationship exactly when the list is empty. Otherwise it gives the
    number of relationships and a table of the ten strongest (all of them
    when there are fewer): the rows shown together with the ones omitted are
    the relationships sorted by strength, strongest first, so no omitted
    one is stronger than one shown; relationships of equal strength keep
    the order of the list. *)
Theorem display_relationships_shows_the_strongest (correlation : CorrelationResult) :
  match _display_relationships correlation with
  | NoRelationshipsIdentified => res_relationships correlation = []
  | RelationshipsTable found rows =>
      found = length (res_relationships correlation) /\ 0 < found /\
      exists shown omitted,
        rows = relationship_row <$> shown /\
        length shown = min 10 found /\
        shown ++ omitted ≡ₚ res_relationships correlation /\
        descending strength (shown ++ omitted) /\
        forall n, with_key strength n (shown ++ omitted)
                  = with_key strength n (res_relationships correlation)
  end.
Proof.
  unfold _display_relationships.
  destruct (res_relationships correlation) as [|rel rels] eqn:E; [easy|].
  split; [easy|]. split; [simpl; lia|].
  exists (take 10 (sorted_desc strength (rel :: rels))),
         (drop 10 (sorted_desc strength (rel :: rels))).
  split; [easy|]. split.
  - rewrite length_take, (Permutation_length (sorted_desc_perm strength (rel :: rels))).
    reflexivity.
  - rewrite take_drop. split; [apply sorted_desc_perm|].
    split; [apply sorted_desc_descending|]. intros n. apply sorted_desc_with_key.
Qed.

(** ** The entity breakdown *)

Lemma sum_list_perm (l1 l2 : list nat) : l1 ≡ₚ l2 -> sum_list l1 = sum_list l2.
Proof. induction 1; simpl; lia. Qed.

Lemma sum_list_set t n (d : list (string * nat)) :
  sum_list ((Dict.set t n d).*2) + default 0 (Dict.get t d) = sum_list (d.*2) + n.
Proof.
  induction d as [|[k v] d IH]; simpl; [lia|].
  case_decide as E; simpl; unfold fmap in *; lia.
Qed.

Lemma descending_fmap {A B} (f : A -> B) (key : A -> nat) (key' : B -> nat) l :
  (forall x, key' (f x) = key x) -> descending key l -> descending key' (f <$> l).
Proof.
  intros Hk. induction l as [|x l IH]; simpl; [easy|]. intros [Hx Hl].
  split; [|now apply IH]. apply Forall_fmap. eapply Forall_impl; [exact Hx|].
  simpl. intros z Hz. now rewrite !Hk.
Qed.

Lemma count_of_type_cons t entity entities :
  count_of_type t (entity :: entities)
  = (if decide (obs_type entity = Some t) then 1 else 0) + count_of_type t entities.
Proof. unfold count_of_type. rewrite filter_cons. now case_decide. Qed.

Lemma count_types_typed entities counts :
  Forall (fun entity => is_Some (obs_type entity)) entities ->
  NoDup (Dict.keys counts) ->
  exists counts',
    count_types entities counts = Ret counts' /\
    NoDup (Dict.keys counts') /\
    sum_list (counts'.*2) = sum_list (counts.*2) + length entities /\
    forall t, Dict.get t counts'
              = match Dict.get t counts, count_of_type t entities with
                | None, 0 => None
                | old, n => Some (default 0 old + n)
                end.
Proof.
  revert counts. induction entities as [|entity entities IH]; intros counts Hty Hnd.
  - exists counts. split; [easy|]. split; [easy|]. split; [simpl; lia|].
    intros t. unfold count_of_type. simpl. destruct (Dict.get t counts); simpl; [|easy].
    f_equal. lia.
  - apply Forall_cons in Hty as [[t0 Ht0] Hty]. cbn [count_types]. rewrite Ht0.
    set (counts1 := Dict.set t0 (default 0 (Dict.get t0 counts) + 1) counts).
    destruct (IH counts1 Hty) as (counts' & E & Hnd' & Hsum & Hget);
      [now apply NoDup_keys_set|].
    exists counts'. split; [easy|]. split; [easy|]. split.
    + rewrite Hsum. pose proof (sum_list_set t0 (default 0 (Dict.get t0 counts) + 1) counts).
      fold counts1 in H. simpl. lia.
    + intros t. rewrite Hget, count_of_type_cons, Ht0. unfold counts1. rewrite get_set.
      destruct (decide (t = t0)) as [->|Hne].
      * rewrite decide_True by easy. simpl.
        destruct (Dict.get t0 counts); simpl; f_equal; lia.
      * rewrite decide_False by congruence. reflexivity.
Qed.

Lemma count_types_untyped entities counts entity :
  entity ∈ entities -> obs_type entity = None ->
  count_types entities counts = Raise (KeyError "type").
Proof.
  revert counts. induction entities as [|x entities IH]; intros counts;
    [now intros ?%elem_of_nil|].
  intros [->|Hin]%elem_of_cons Hno; simpl.
  - now rewrite Hno.
  - destruct (obs_type x); [now apply IH|easy].
Qed.

Lemma count_types_raises entities counts x :
  count_types entities counts = Raise x ->
  x = KeyError "type" /\ exists entity, entity ∈ entities /\ obs_type entity = None.
Proof.
  revert counts. induction entities as [|entity entities IH]; intros counts; simpl; [easy|].
  destruct (obs_type entity) eqn:E.
  - intros (-> & entity' & Hin & Hno)%IH. split; [easy|]. exists entity'.
    split; [now right|easy].
  - intros [= <-]. split; [easy|]. exists entity. split; [now left|easy].
Qed.

Lemma count_types_returns entities counts counts' :
  count_types entities counts = Ret counts' ->
  Forall (fun entity => is_Some (obs_type entity)) entities.
Proof.
  intros H. apply Forall_forall. intros entity Hin.
  destruct (obs_type entity) eqn:E; [easy|].
  rewrite (count_types_untyped _ _ _ Hin E) in H. easy.
Qed.

(** X14. The entity breakdown of the report raises [KeyError('type')]
    exactly when some entity has no type. Otherwise it prints nothing when
    there is no entity, and else one row for each type that occurs, with the
    number of entities of that type and the priority of the type, ordered
    by decreasing count; the counts add up to the number of entities. *)
Theorem display_entity_breakdown_counts_each_type
    (entities : list (string * list Observation)) :
  match _display_entity_breakdown entities with
  | Raise x =>
      x = KeyError "type" /\
      exists entity, entity ∈ concat (entities.*2) /\ obs_type entity = None
  | Ret None => concat (entities.*2) = []
  | Ret (Some rows) =>
      Forall (fun entity => is_Some (obs_type entity)) (concat (entities.*2)) /\
      NoDup (rows.*1.*1) /\
      (forall t c p, (t, c, p) ∈ rows <->
         c = count_of_type t (concat (entities.*2)) /\ 0 < c /\ p = priority_of t) /\
      descending (fun row => row.1.2) rows /\
      sum_list (rows.*1.*2) = length (concat (entities.*2))
  end.
Proof.
  unfold _display_entity_breakdown. set (all := concat (entities.*2)).
  destruct (count_types all []) as [counts|x] eqn:E;
    [|now apply (count_types_raises all [])].
  pose proof (count_types_returns _ _ _ E) as Hty.
  destruct (count_types_typed all [] Hty) as (counts' & E' & Hnd & Hsum & Hget);
    [constructor|].
  rewrite E in E'. injection E' as <-. simpl in Hsum, Hget.
  destruct counts as [|entry counts0] eqn:Ec.
  { simpl in Hsum. destruct all; [easy|simpl in Hsum; lia]. }
  rewrite <- Ec in *. clear Ec entry counts0.
  set (rows := (fun p : string * nat => (p.1, p.2, priority_of p.1))
                 <$> sorted_desc snd counts).
  assert (H1 : rows.*1 = sorted_desc snd counts).
  { unfold rows. rewrite <- list_fmap_compose. rewrite <- (list_fmap_id (sorted_desc _ _)) at 2.
    apply list_fmap_ext. now intros i [t c]. }
  split; [easy|]. split; [|split; [|split]].
  - rewrite H1, (sorted_desc_perm snd counts). exact Hnd.
  - intros t c p. unfold rows. rewrite list_elem_of_fmap. split.
    + intros ([t' c'] & [= -> -> ->] & Hin). simpl.
      rewrite (sorted_desc_perm snd counts) in Hin.
      apply elem_of_get in Hin; [|easy]. rewrite Hget in Hin.
      destruct (count_of_type t' all); [easy|]. injection Hin as <-.
      split; [easy|]. split; [lia|easy].
    + intros (-> & Hpos & ->). exists (t, count_of_type t all). split; [easy|].
      rewrite (sorted_desc_perm snd counts). apply get_elem_of. rewrite Hget.
      destruct (count_of_type t all); [lia|easy].
  - apply (descending_fmap _ snd); [easy|]. apply sorted_desc_descending.
  - rewrite H1, (sum_list_perm _ (counts.*2)); [exact Hsum|].
    now rewrite (sorted_desc_perm snd counts).
Qed.

Ltac float_discriminate H :=
  apply (f_equal Prim2SF) in H; vm_compute in H; discriminate H.

Lemma high_types_agree t :
  bool_decide (t ∈ ["IP_ADDRESS"; "URL"; "EMAIL"; "FILE_PATH"])
  = bool_decide (t ∈ ["IP_ADDRESS"; "URL"; "FILE_PATH"; "EMAIL"]).
Proof. apply bool_decide_ext. set_solver. Qed.

(** X15. The priority column of the report and the parser's score agree on
    every type: CRITICAL exactly for the types scored 1.0, HIGH exactly for
    those scored 0.8, and MEDIUM for the rest, scored 0.75, 0.6 or 0.5. *)
Theorem report_priority_agrees_with_the_score (entity : Observation) :
  (priority_of (default "" (obs_type entity)) = CRITICAL
   <-> score_entity_importance entity = 1.0%float) /\
  (priority_of (default "" (obs_type entity)) = HIGH
   <-> score_entity_importance entity = 0.8%float) /\
  (priority_of (default "" (obs_type entity)) = MEDIUM
   <-> score_entity_importance entity ∈ [0.75; 0.6; 0.5]%float).
Proof.
  unfold priority_of, score_entity_importance. rewrite high_types_agree.
  set (t := default "" (obs_type entity)).
  destruct (bool_decide (t ∈ ["CTF_FLAG"; "API_KEY"; "CREDENTIAL"])).
  { repeat split; try easy; intros H; try float_discriminate H.
    repeat (apply elem_of_cons in H as [H|H]; [float_discriminate H|]).
    now apply elem_of_nil in H. }
  destruct (bool_decide (t ∈ ["IP_ADDRESS"; "URL"; "FILE_PATH"; "EMAIL"])).
  { repeat split; try easy; intros H; try float_discriminate H.
    repeat (apply elem_of_cons in H as [H|H]; [float_discriminate H|]).
    now apply elem_of_nil in H. }
  destruct (bool_decide (t ∈ ["PERSON"; "ORG"; "GPE"])).
  { repeat split; try easy; try (intros H; float_discriminate H). intros _. set_solver. }
  destruct (contains "HASH" t).
  { repeat split; try easy; try (intros H; float_discriminate H). intros _. set_solver. }
  repeat split; try easy; try (intros H; float_discriminate H). intros _. set_solver.
Qed.

(** ** The analysis that [main] runs *)

Lemma set_absent {V} k (v : V) d : Dict.get k d = None -> Dict.set k v d = d ++ [(k, v)].
Proof.
  induction d as [|[k' v'] d IH]; simpl; [easy|].
  case_decide as E; [easy|]. intros H. now rewrite IH.
Qed.

Lemma get_app_None {V} k (d1 d2 : list (string * V)) :
  Dict.get k (d1 ++ d2) = None <-> Dict.get k d1 = None /\ Dict.get k d2 = None.
Proof.
  induction d1 as [|[k' v'] d1 IH]; simpl; [tauto|].
  case_decide as E; [split; [easy|now intros [? _]]|exact IH].
Qed.

Lemma parse_all_fmap lib raw_data :
  NoDup (Dict.keys raw_data) ->
  parse_all lib raw_data = (fun p => (p.1, extract_entities lib p.2 p.1)) <$> raw_data.
Proof.
  unfold parse_all.
  assert (H : forall acc : list (string * list Observation),
            (forall k, k ∈ Dict.keys raw_data -> Dict.get k acc = None) ->
            NoDup (Dict.keys raw_data) ->
            fold_left (fun parsed_entities p =>
                         Dict.set p.1 (extract_entities lib p.2 p.1) parsed_entities)
                      raw_data acc
            = acc ++ ((fun p => (p.1, extract_entities lib p.2 p.1)) <$> raw_data)).
  { induction raw_data as [|[s c] raw IH]; intros acc Hacc Hnd; simpl.
    - now rewrite app_nil_r.
    - simpl in Hnd. apply NoDup_cons in Hnd as [Hs Hnd].
      rewrite set_absent by (apply Hacc; now left).
      rewrite IH; [now rewrite <- app_assoc| |easy].
      intros k Hk. apply get_app_None. split; [apply Hacc; now right|].
      simpl. rewrite decide_False; [easy|]. intros ->. easy. }
  intros Hnd. now rewrite H.
Qed.

Lemma tagged_elem s ent parsed :
  (s, ent) ∈ tagged parsed <-> exists l, (s, l) ∈ parsed /\ ent ∈ l.
Proof.
  unfold tagged. rewrite list_elem_of_In, in_flat_map. split.
  - intros ([s' l] & Hp%list_elem_of_In & Hin%list_elem_of_In). simpl in Hin.
    apply list_elem_of_fmap in Hin as (ent' & [= -> ->] & Hent). now exists l.
  - intros (l & Hp & Hent). exists (s, l). split; [now apply list_elem_of_In|].
    apply list_elem_of_In. simpl. apply list_elem_of_fmap. now exists ent.
Qed.

Lemma add_raw_data_init raw_data :
  exists e1,
    add_raw_data raw_data init = (Ret tt, e1) /\ wf e1 /\ relationships e1 = [] /\
    forall k, record_at e1 k = None /\
              (k ≠ "raw_data" -> Dict.get k (correlation_map e1) = None).
Proof.
  pose proof (wf_add_raw_data raw_data init wf_init) as Hwf.
  destruct raw_data as [|[s x] raw].
  - exists init. split; [easy|]. split; [exact wf_init|]. split; [easy|]. now intros k.
  - rewrite add_raw_data_cons, add_raw_item_eq in *. cbn [init correlation_map Dict.get] in *.
    set (e0 := with_map init _) in *.
    assert (Hc : Dict.get "raw_data" (correlation_map e0)
                 = Some (Corpus (store_content s x empty_corpus)))
      by (unfold e0; cbn [with_map correlation_map]; apply get_set_eq).
    rewrite (add_raw_data_corpus raw e0 _ Hc) in Hwf |- *.
    eexists. split; [reflexivity|]. split; [exact Hwf|]. split; [easy|].
    intros k. unfold record_at. cbn [with_map correlation_map]. rewrite !get_set.
    destruct (decide (k = "raw_data")); [easy|]. simpl. rewrite decide_False by easy.
    easy.
Qed.

Lemma ingest_all_unhinted l r :
  Forall (fun p => obs_importance_score p.2 = None) l ->
  importance r = 0.5%float -> importance (ingest_all l r) = 0.5%float.
Proof.
  unfold ingest_all. revert r. induction l as [|p l IH]; intros r Hl Hr; [easy|].
  apply Forall_cons in Hl as [Hp Hl]. simpl. apply IH; [easy|].
  simpl. now rewrite Hp, Hr.
Qed.

Lemma ingest_all_unhinted_default p l :
  Forall (fun p => obs_importance_score p.2 = None) (p :: l) ->
  importance (ingest_all (p :: l) default_record) = 0.5%float.
Proof.
  intros [Hp Hl]%Forall_cons. unfold ingest_all. simpl.
  apply (ingest_all_unhinted l); [easy|]. simpl. now rewrite Hp.
Qed.

Lemma analyse_eq lib skip_ai raw_data :
  analyse lib skip_ai raw_data
  = (add_raw_data raw_data ;;
     add_parsed_entities (if skip_ai then [] else parse_all lib raw_data) ;;
     correlate)%py.
Proof. unfold analyse. now destruct (if skip_ai then _ else _). Qed.

Lemma extract_entities_described lib text source ent :
  ent ∈ extract_entities lib text source -> fully_described source ent.
Proof.
  destruct (decide (Str.strip text = "")) as [B|B].
  - rewrite (extract_entities_blank _ _ _ B). now intros ?%elem_of_nil.
  - rewrite (extract_entities_not_blank _ _ _ B). intros Hin.
    apply (collected_described lib (truncated text)).
    exact (elem_of_sublist _ _ _ Hin (unique_from_sublist _ _)).
Qed.

(** X16. The analysis [main] runs on a fresh engine, for any collected
    texts and any answers of the libraries, provided no extracted value
    normalizes to ['raw_data']: it returns; every entity of the map has
    importance exactly 0.5 whatever its type (the scores of
    [score_entity_importance] are never applied), its final score is the
    one computed from that, and its sources are the sources in whose text
    it was found; [total_entities] is the number of distinct normalized
    values found. With [--skip-ai] nothing is extracted: no entity and no
    relationship. *)
Theorem analysis_never_applies_the_type_scores lib (raw_data : list (string * string)) :
  NoDup (Dict.keys raw_data) ->
  (forall source content ent,
     (source, content) ∈ raw_data -> ent ∈ extract_entities lib content source ->
     obs_key ent ≠ Some "raw_data") ->
  (exists res e',
     analyse lib false raw_data init = (Ret res, e') /\
     total_entities res
     = size (list_to_set (omap obs_key ((tagged (parse_all lib raw_data)).*2))
             : gset string) /\
     forall k r, record_at e' k = Some r ->
       importance r = 0.5%float /\ final_score r = Some (score_of r) /\
       forall s, s ∈ sources r <->
         exists content ent, (s, content) ∈ raw_data /\
                             ent ∈ extract_entities lib content s /\
                             obs_key ent = Some k) /\
  (exists res e',
     analyse lib true raw_data init = (Ret res, e') /\
     total_entities res = 0 /\ res_relationships res = []).
Proof.
  intros Hnd Hraw. rewrite !analyse_eq. unfold bind.
  destruct (add_raw_data_init raw_data) as (e1 & E1 & W1 & R1 & G1). rewrite E1.
  split.
  - set (l := tagged (parse_all lib raw_data)).
    assert (Hl : forall s ent, (s, ent) ∈ l <->
              exists content, (s, content) ∈ raw_data /\
                              ent ∈ extract_entities lib content s).
    { intros s ent. unfold l. rewrite tagged_elem, (parse_all_fmap _ _ Hnd). split.
      - intros (l0 & ([s' c] & [= -> ->] & Hin)%list_elem_of_fmap & Hent). now exists c.
      - intros (c & Hin & Hent). exists (extract_entities lib c s). split; [|easy].
        apply list_elem_of_fmap. now exists (s, c). }
    rewrite add_parsed_entities_tagged. fold l.
    destruct (ingest_tagged l e1 W1) as (e2 & E2 & W2 & R2 & G2).
    { apply Forall_forall. intros [s ent] (c & Hin & Hent)%Hl. simpl.
      destruct (extract_entities_described lib c s ent Hent) as (T & V & _).
      now split. }
    { apply Forall_forall. intros [s ent] (c & Hin & Hent)%Hl. simpl.
      exact (Hraw s c ent Hin Hent). }
    rewrite E2. destruct (correlate_spec e2 W2) as (res & e3 & E3 & C3).
    exists res, e3. split; [exact E3|]. split.
    + rewrite (cor_total _ _ _ C3), <- (size_list_to_set (C := gset string));
        [|now apply NoDup_entity_keys].
      f_equal. apply set_eq. intros k.
      rewrite !elem_of_list_to_set, <- filed_under_nonempty.
      unfold entity_keys. rewrite list_elem_of_filter. split.
      * intros [Hne [d Hd]%keys_get]. rewrite G2 in Hd.
        destruct (filed_under k l); [|easy].
        rewrite (proj2 (G1 k) Hne) in Hd. easy.
      * intros Hf.
        assert (Hne : k ≠ "raw_data").
        { destruct (filed_under k l) as [|p l'] eqn:F; [easy|].
          assert (Hp : p ∈ filed_under k l) by (rewrite F; now left).
          apply list_elem_of_filter in Hp as [Hk Hp]. destruct p as [s ent].
          apply Hl in Hp as (c & Hin & Hent). specialize (Hraw s c ent Hin Hent).
          simpl in Hk. congruence. }
        split; [easy|].
        destruct (Dict.get k (correlation_map e2)) as [d|] eqn:Hd;
          [now apply get_Some_keys in Hd|].
        rewrite G2 in Hd. destruct (filed_under k l); [easy|].
        unfold item in Hd. now rewrite (proj2 (G1 k) Hne) in Hd.
    + intros k r3 Hr3.
      assert (Hne : k ≠ "raw_data").
      { intros ->. apply record_at_get in Hr3.
        rewrite (cor_raw_data _ _ _ C3), G2 in Hr3.
        destruct (filed_under "raw_data" l) as [|p l'] eqn:F.
        - apply record_at_get in Hr3. now rewrite (proj1 (G1 _)) in Hr3.
        - assert (Hp : p ∈ filed_under "raw_data" l) by (rewrite F; now left).
          apply list_elem_of_filter in Hp as [Hk Hp]. destruct p as [s ent].
          apply Hl in Hp as (c & Hin & Hent). now specialize (Hraw s c ent Hin Hent). }
      assert (Hk3 : k ∈ entity_keys (correlation_map e2)).
      { unfold entity_keys. apply list_elem_of_filter. split; [easy|].
        rewrite <- (cor_keys _ _ _ C3). apply record_at_get in Hr3.
        now apply get_Some_keys in Hr3. }
      destruct (entity_key_record e2 k W2 Hk3) as [_ [r2 Hr2]].
      destruct (cor_fields _ _ _ C3 k r2 Hr2) as (r3' & Hr3' & _ & Himp & Hsrc & _).
      rewrite Hr3 in Hr3'. injection Hr3' as <-.
      destruct (cor_scored _ _ _ C3 k Hk3) as (r3'' & Hr3'' & Hfs).
      rewrite Hr3 in Hr3''. injection Hr3'' as <-.
      assert (Hnone : Forall (fun p => obs_importance_score p.2 = None) (filed_under k l)).
      { apply Forall_forall. intros [s ent] [_ (c & Hin & Hent)%Hl]%list_elem_of_filter.
        simpl.
        now destruct (extract_entities_described lib c s ent Hent)
          as (_ & _ & _ & _ & _ & _ & ?). }
      assert (Hfrom : forall s, s ∈ (filed_under k l).*1 <->
                exists content ent, (s, content) ∈ raw_data /\
                                    ent ∈ extract_entities lib content s /\
                                    obs_key ent = Some k).
      { intros s. rewrite list_elem_of_fmap. split.
        - intros ([s' ent] & -> & [Hk (c & Hin & Hent)%Hl]%list_elem_of_filter).
          now exists c, ent.
        - intros (c & ent & Hin & Hent & Hk). exists (s, ent). split; [easy|].
          apply list_elem_of_filter. split; [easy|]. apply Hl. now exists c. }
      apply record_at_get in Hr2. rewrite G2 in Hr2.
      destruct (filed_under k l) as [|p l'];
        [now rewrite (proj2 (G1 k) Hne) in Hr2|].
      unfold item in Hr2. rewrite (proj2 (G1 k) Hne) in Hr2. simpl in Hr2.
      injection Hr2 as <-.
      split; [|split; [exact Hfs|]].
      * rewrite Himp. now apply ingest_all_unhinted_default.
      * intros s. rewrite Hsrc, ingest_all_sources, <- Hfrom.
        rewrite elem_of_union, elem_of_list_to_set. simpl. set_solver.
  - change (add_parsed_entities [] e1) with (Ret tt, e1).
    destruct (correlate_spec e1 W1) as (res & e3 & E3 & C3).
    exists res, e3. split; [exact E3|].
    assert (Hk : entity_keys (correlation_map e1) = []).
    { destruct (entity_keys (correlation_map e1)) as [|k ks] eqn:F; [easy|].
      assert (Hin : k ∈ entity_keys (correlation_map e1)) by (rewrite F; now left).
      apply list_elem_of_filter in Hin as [Hne [d Hd]%keys_get].
      now rewrite (proj2 (G1 k) Hne) in Hd. }
    split; [now rewrite (cor_total _ _ _ C3), Hk|].
    now rewrite (cor_res_relationships _ _ _ C3), (cor_relationships _ _ _ C3), Hk, R1.
Qed.

Lemma analysis_never_applies_the_type_scores_witness :
  (exists res e',
     analyse one_entity_libraries false [("web", "ACME runs the CTF")] init
     = (Ret res, e') /\
     total_entities res
     = size (list_to_set
               (omap obs_key
                  ((tagged (parse_all one_entity_libraries
                              [("web", "ACME runs the CTF")])).*2))
             : gset string) /\
     forall k r, record_at e' k = Some r ->
       importance r = 0.5%float /\ final_score r = Some (score_of r) /\
       forall s, s ∈ sources r <->
         exists content ent, (s, content) ∈ [("web", "ACME runs the CTF")] /\
                             ent ∈ extract_entities one_entity_libraries content s /\
                             obs_key ent = Some k) /\
  (exists res e',
     analyse one_entity_libraries true [("web", "ACME runs the CTF")] init
     = (Ret res, e') /\
     total_entities res = 0 /\ res_relationships res = []).
Proof.
  apply (analysis_never_applies_the_type_scores one_entity_libraries
           [("web", "ACME runs the CTF")]).
  - repeat constructor. now intros ?%elem_of_nil.
  - intros source content ent [= -> ->]%list_elem_of_singleton Hent.
    vm_compute in Hent. apply list_elem_of_singleton in Hent as ->. now vm_compute.
Defined.

(** ** The collection *)

Lemma keys_store_if cond key value (results : list (string * string)) :
  Dict.keys (store_if cond key value results)
  = if cond && negb (Dict.mem key results) then Dict.keys results ++ [key]
    else Dict.keys results.
Proof.
  unfold store_if. destruct cond; [|easy]. rewrite keys_set. simpl.
  now destruct (Dict.mem key results).
Qed.












(** ** What the sources table reports *)

Lemma lstrip_space_inv s : Str.all_space (Str.lstrip s) = true -> Str.all_space s = true.
Proof.
  induction s as [|c r IH]; simpl; [easy|].
  destruct (Str.isspace c) eqn:E; [exact IH|]. simpl. now rewrite E.
Qed.

Lemma rstrip_nil_inv s : Str.rstrip s = EmptyString -> Str.all_space s = true.
Proof.
  induction s as [|c r IH]; simpl; [easy|].
  destruct (Str.rstrip r) eqn:E; [|easy].
  destruct (Str.isspace c); [|easy]. intros _. now apply IH.
Qed.

Lemma strip_nil_iff s : Str.strip s = EmptyString <-> Str.all_space s = true.
Proof.
  split.
  - intros H. apply lstrip_space_inv, rstrip_nil_inv, H.
  - intros H. unfold Str.strip. now rewrite (StrFacts.lstrip_all_space s H).
Qed.

Lemma source_status_no_data s : source_status (String.length s) = NO_DATA <-> s = EmptyString.
Proof. destruct s; simpl; split; easy. Qed.

(** X18. What the status column of the sources table means for what the
    collection stores. The output of a command is reported as NO DATA
    exactly when the command timed out, could not be run, or printed
    nothing but whitespace on both streams. The Pastebin source is always
    reported as SUCCESS (it is a fixed sentence), and so is the web content
    when the request failed (it is then the error message). *)
Theorem no_data_means_a_silent_or_failed_command
    (w : World) (command : list string) (timeout : Z) (query url : string) :
  (source_status (String.length (_run_command w command timeout)) = NO_DATA <->
   match subprocess_run w command timeout with
   | Completed stdout stderr _ =>
       Str.all_space (default "" stdout +:+ newline +:+ default "" stderr) = true
   | TimeoutExpired | RunError => True
   end) /\
  source_status (String.length (_search_pastebin query)) = SUCCESS /\
  match requests_get w url user_agent with
  | Response _ text _ =>
      String.length (_fetch_web_content w url) <= N.to_nat 10000
  | RequestError _ =>
      source_status (String.length (_fetch_web_content w url)) = SUCCESS
  end.
Proof.
  split; [|split].
  - rewrite source_status_no_data. unfold _run_command.
    destruct (subprocess_run w command timeout); [apply strip_nil_iff|easy|easy].
  - reflexivity.
  - unfold _fetch_web_content. destruct (requests_get w url user_agent); [|reflexivity].
    apply length_substring_le.
Qed.

(** ** The domain of an email address *)

Lemma contains_char c s :
  contains (String c EmptyString) s
  = match s with
    | EmptyString => false
    | String c' r => bool_decide (c' = c) || contains (String c EmptyString) r
    end.
Proof.
  destruct s as [|c' r]; [reflexivity|]. simpl.
  destruct (Ascii.ascii_dec c c') as [->|E].
  - rewrite bool_decide_true by easy. now destruct r.
  - rewrite bool_decide_false by congruence. reflexivity.
Qed.

Lemma split_cons sep s : exists part parts, split sep s = part :: parts.
Proof.
  induction s as [|c r (part & parts & IH)]; simpl; [now eexists _, _|].
  case_decide; [now eexists _, _|]. rewrite IH. now eexists _, _.
Qed.

Lemma join_cons sep part part' parts :
  join sep (part :: part' :: parts) = part +:+ String sep (join sep (part' :: parts)).
Proof. reflexivity. Qed.

Lemma join_split sep s : join sep (split sep s) = s.
Proof.
  induction s as [|c r IH]; [reflexivity|]. cbn [split].
  destruct (split_cons sep r) as (part & parts & E). rewrite E in *.
  destruct (decide (c = sep)) as [H|H].
  - subst c. rewrite join_cons, IH. reflexivity.
  - destruct parts as [|part' parts].
    + cbn [join] in *. now rewrite IH.
    + rewrite join_cons in *. now rewrite <- IH.
Qed.

Lemma split_parts sep s :
  Forall (fun part => contains (String sep EmptyString) part = false) (split sep s).
Proof.
  induction s as [|c r IH]; cbn [split]; [now repeat constructor|].
  case_decide as H; [constructor; [easy|exact IH]|].
  destruct (split sep r) as [|part parts].
  { constructor; [|constructor]. now rewrite contains_char, bool_decide_false by easy. }
  apply Forall_cons in IH as [Hp Hps]. constructor; [|easy].
  rewrite contains_char, bool_decide_false by easy. exact Hp.
Qed.

Lemma split_without sep s :
  contains (String sep EmptyString) s = false -> split sep s = [s].
Proof.
  induction s as [|c r IH]; [easy|]. rewrite contains_char. cbn [split].
  intros [Hc Hr]%orb_false_elim. apply bool_decide_eq_false in Hc.
  rewrite decide_False by easy. now rewrite (IH Hr).
Qed.

Lemma split_with sep s :
  contains (String sep EmptyString) s = true ->
  exists part part' parts, split sep s = part :: part' :: parts.
Proof.
  induction s as [|c r IH]; [easy|]. rewrite contains_char. cbn [split].
  destruct (split_cons sep r) as (p & ps & E).
  case_decide as H; [intros _; rewrite E; now eexists _, _, _|].
  rewrite bool_decide_false by easy. simpl. intros (p1 & p2 & ps' & E')%IH.
  rewrite E'. now eexists _, _, _.
Qed.


Lemma append_nil_r s : s +:+ "" = s.
Proof.
  induction s as [|c r IH]; [reflexivity|].
  change (String c r +:+ "") with (String c (r +:+ "")). now rewrite IH.
Qed.

Lemma get_after_searches (w : World) email k (results : list (string * string)) :
  Dict.get k
    (Dict.set "pastebin" (_search_pastebin email)
       (Dict.set "github" (_search_github_email w email) results))
  = if decide (k = "pastebin") then Some (_search_pastebin email)
    else if decide (k = "github") then Some (_search_github_email w email)
    else Dict.get k results.
Proof. now rewrite !get_set. Qed.

Lemma email_domain_spec email :
  match email_domain email with
  | None => contains "@" email = false
  | Some domain =>
      exists name rest,
        email = name +:+ "@" +:+ domain +:+ rest /\
        contains "@" name = false /\ contains "@" domain = false /\
        (rest = "" \/ exists rest', rest = "@" +:+ rest')
  end.
Proof.
  unfold email_domain. destruct (contains "@" email) eqn:C; [|easy].
  destruct (split_with "@" email C) as (name & domain & parts & E). rewrite E. simpl.
  pose proof (join_split "@" email) as J. rewrite E in J.
  pose proof (split_parts "@" email) as P. rewrite E in P.
  apply Forall_cons in P as [P1 P]. apply Forall_cons in P as [P2 _].
  rewrite join_cons in J.
  destruct parts as [|part parts].
  - exists name, "". split; [|split; [easy|split; [easy|now left]]].
    rewrite <- J. cbn [join]. now rewrite append_nil_r.
  - exists name, ("@" +:+ join "@" (part :: parts)).
    split; [|split; [easy|split; [easy|right; now eexists]]].
    rewrite <- J, join_cons. reflexivity.
Qed.

(** X19. [collect_email] takes as the domain of the address the text
    between its first and its second ['@'] (up to the end if there is only
    one), and none if the address has no ['@']. It asks [whois] about that
    domain exactly when the domain is not empty and the tool was found, and
    always stores the GitHub and the Pastebin searches for the address. *)
Theorem collect_email_asks_whois_about_the_domain
    (w : World) (self : CollectionEngine) (email : string) :
  match email_domain email with
  | None =>
      contains "@" email = false /\
      Dict.get "whois" (collect_email w self email) = None
  | Some domain =>
      (exists name rest,
         email = name +:+ "@" +:+ domain +:+ rest /\
         contains "@" name = false /\ contains "@" domain = false /\
         (rest = "" \/ exists rest', rest = "@" +:+ rest')) /\
      Dict.get "whois" (collect_email w self email)
      = if bool_decide (domain = "") || negb (has_tool self "whois") then None
        else Some (_run_command w ["whois"; domain] 300)
  end /\
  Dict.get "github" (collect_email w self email) = Some (_search_github_email w email) /\
  Dict.get "pastebin" (collect_email w self email) = Some (_search_pastebin email).
Proof.
  unfold collect_email. rewrite !get_after_searches. simpl.
  split; [|easy]. pose proof (email_domain_spec email) as S.
  destruct (email_domain email) as [domain|]; [|easy].
  split; [exact S|].
  destruct (bool_decide (domain = "")); [easy|]. unfold store_if. simpl.
  destruct (has_tool self "whois"); easy.
Qed.

(** ** What every value of the map satisfies *)

Section Pointwise.
Variable P : string -> Entry -> Entry -> Prop.
Hypothesis P_refl : forall k d, P k d d.
Hypothesis P_trans : forall k d1 d2 d3, P k d1 d2 -> P k d2 d3 -> P k d1 d3.
Hypothesis P_ingest :
  forall source t o v r,
    obs_value o = Some v -> obs_type o = Some t ->
    P (_normalize_key v) (Entity r) (Entity (ingest_record source t o r)).
Hypothesis P_to_corpus : forall k d c, P k d (Corpus c).
Hypothesis P_add_linked : forall k k' r, P k (Entity r) (Entity (add_linked k' r)).
Hypothesis P_set_final_score : forall k r, P k (Entity r) (Entity (set_final_score r)).

Lemma pointwise_refl e : pointwise P e e.
Proof. intros k. apply P_refl. Qed.

Lemma pointwise_trans e1 e2 e3 :
  pointwise P e1 e2 -> pointwise P e2 e3 -> pointwise P e1 e3.
Proof. intros H12 H23 k. exact (P_trans _ _ _ _ (H12 k) (H23 k)). Qed.

Lemma pointwise_set e k new l :
  P k (item (correlation_map e) k) new ->
  pointwise P e {| correlation_map := Dict.set k new (correlation_map e);
                   relationships := l |}.
Proof.
  intros H k0. unfold item at 2. simpl. rewrite get_set.
  destruct (decide (k0 = k)) as [->|]; [exact H|apply P_refl].
Qed.

Lemma pointwise_same_map e e' :
  correlation_map e' = correlation_map e -> pointwise P e e'.
Proof. intros H k. rewrite H. apply P_refl. Qed.

Lemma pointwise_getitem k : preserves (pointwise P) (getitem k).
Proof.
  intros e. unfold getitem, Dict.getitem.
  destruct (Dict.get k (correlation_map e)) eqn:E; simpl.
  - now apply pointwise_same_map.
  - apply pointwise_set. unfold item. rewrite E. apply P_refl.
Qed.

Lemma pointwise_update_entity k field f :
  (forall r, P k (Entity r) (Entity (f r))) ->
  preserves (pointwise P) (update_entity k field f).
Proof.
  intros Hf e. unfold update_entity, bind, getitem, Dict.getitem.
  destruct (Dict.get k (correlation_map e)) as [[r|c]|] eqn:E; simpl.
  - apply pointwise_set. unfold item. rewrite E. apply Hf.
  - now apply pointwise_same_map.
  - rewrite set_set. apply pointwise_set. unfold item. rewrite E. apply Hf.
Qed.

Lemma pointwise_add_entity source o : preserves (pointwise P) (add_entity source o).
Proof.
  intros e.
  destruct (obs_value o) as [v|] eqn:Hv;
    [|rewrite add_entity_no_value by easy; apply pointwise_refl].
  destruct (obs_type o) as [t|] eqn:Ht;
    [|rewrite (add_entity_no_type _ _ v) by easy; apply pointwise_refl].
  destruct (item (correlation_map e) (_normalize_key v)) as [r|c] eqn:E.
  - rewrite (add_entity_record _ _ v t r) by easy. simpl.
    apply pointwise_set. rewrite E. now apply P_ingest.
  - rewrite (add_entity_corpus _ _ v t c) by easy. simpl.
    apply pointwise_set. apply P_to_corpus.
Qed.

Lemma pointwise_add_raw_item it : preserves (pointwise P) (add_raw_item it).
Proof.
  intros e. destruct it as [source content]. rewrite add_raw_item_eq.
  destruct (Dict.get "raw_data" (correlation_map e)) as [[r|c]|] eqn:E; simpl.
  - apply pointwise_refl.
  - apply pointwise_set, P_to_corpus.
  - apply pointwise_set, P_to_corpus.
Qed.

Lemma pointwise_link_pair k1 k2 : preserves (pointwise P) (link_pair k1 k2).
Proof.
  unfold link_pair.
  apply preserves_bind; [exact pointwise_trans|apply pointwise_getitem|]. intros d1.
  apply preserves_bind; [exact pointwise_trans|apply pointwise_getitem|]. intros d2.
  destruct (decide _); [apply preserves_ret, pointwise_refl|].
  apply preserves_bind;
    [exact pointwise_trans|apply pointwise_update_entity; intros r; apply P_add_linked|].
  intros _.
  apply preserves_bind;
    [exact pointwise_trans|apply pointwise_update_entity; intros r; apply P_add_linked|].
  intros _.
  intros e. now apply pointwise_same_map.
Qed.

Lemma pointwise_link_all ks : preserves (pointwise P) (link_all ks).
Proof.
  induction ks as [|k1 rest IH]; simpl; [apply preserves_ret, pointwise_refl|].
  apply preserves_bind; [exact pointwise_trans| |easy].
  apply preserves_for_each;
    [exact pointwise_refl|exact pointwise_trans|apply pointwise_link_pair].
Qed.

Lemma pointwise_count_linked ks : preserves (pointwise P) (count_linked ks).
Proof.
  induction ks as [|k rest IH]; simpl; [apply preserves_ret, pointwise_refl|].
  apply preserves_bind; [exact pointwise_trans|apply pointwise_getitem|].
  intros [r|c]; [|apply preserves_raise, pointwise_refl].
  apply preserves_bind; [exact pointwise_trans|easy|].
  intros n. apply preserves_ret, pointwise_refl.
Qed.

Lemma pointwise_correlate : preserves (pointwise P) correlate.
Proof.
  unfold correlate.
  apply preserves_bind; [exact pointwise_trans| |intros _].
  { apply (preserves_reading (pointwise P) (fun e => entity_keys (correlation_map e))).
    apply pointwise_link_all. }
  apply preserves_bind; [exact pointwise_trans| |intros _].
  { apply (preserves_reading (pointwise P) (fun e => Dict.keys (correlation_map e))
             (fun ks => for_each ks _)).
    intros ks. apply preserves_for_each; [exact pointwise_refl|exact pointwise_trans|].
    intros k. destruct (decide _); [apply preserves_ret, pointwise_refl|].
    apply pointwise_update_entity. intros r. apply P_set_final_score. }
  intros e. unfold compile_result.
  match goal with
  | |- context [bind ?c ?k] => assert (H : preserves (pointwise P) (bind c k))
  end.
  { apply preserves_bind; [exact pointwise_trans|apply pointwise_count_linked|].
    intros n e'. apply pointwise_refl. }
  apply H.
Qed.

Lemma pointwise_exec c e : pointwise P e (exec c e).
Proof.
  destruct c; simpl.
  - apply (preserves_for_each (pointwise P) pointwise_refl pointwise_trans).
    apply pointwise_add_raw_item.
  - apply (preserves_for_each (pointwise P) pointwise_refl pointwise_trans).
    intros [source entities].
    apply (preserves_for_each (pointwise P) pointwise_refl pointwise_trans).
    apply pointwise_add_entity.
  - apply pointwise_correlate.
  - apply pointwise_refl.
Qed.

Lemma pointwise_steps later e :
  pointwise P e (fold_left (fun e c => exec c e) later e).
Proof.
  revert e. induction later as [|c later IH]; intros e; simpl; [apply pointwise_refl|].
  exact (pointwise_trans _ _ _ (pointwise_exec c e) (IH _)).
Qed.
End Pointwise.

Lemma observed_ingest source t o v r :
  obs_value o = Some v -> obs_type o = Some t ->
  observed (_normalize_key v) r ->
  observed (_normalize_key v) (ingest_record source t o r).
Proof.
  intros Hv Ht (Himp & Hall & Hty & Hsize & Hnone).
  unfold observed, occurrences_of in *.
  cbn [ingest_record importance occurrences type sources default].
  change (id (default [] (occurrences r) ++ [o])) with (default [] (occurrences r) ++ [o]).
  remember (default [] (occurrences r)) as occs eqn:Eoccs. clear Eoccs.
  split; [|split; [|split; [|split]]].
  - rewrite Himp, fmap_app, fold_left_app. reflexivity.
  - apply Forall_app. split; [easy|]. constructor; [|constructor].
    unfold obs_key. now rewrite Hv, Ht.
  - destruct occs as [|o0 l].
    + simpl in *. now rewrite Hty, Ht.
    + simpl in *. rewrite Hty.
      apply Forall_cons in Hall as [[_ [t0 Ht0]] _]. now rewrite Ht0.
  - rewrite length_app. simpl.
    pose proof (size_union_alt (sources r) {[source]}) as U.
    assert (size ({[source]} ∖ sources r : gset string) <= 1).
    { transitivity (size ({[source]} : gset string)); [|now rewrite size_singleton].
      apply subseteq_size. set_solver. }
    lia.
  - intros H. exfalso. set_solver.
Qed.

Lemma entry_observed_run history k :
  entry_observed k (item (correlation_map (run history)) k).
Proof.
  assert (H : pointwise (fun k d d' => entry_observed k d -> entry_observed k d')
                        init (run history)).
  { apply pointwise_steps; try easy.
    - intros k0 d1 d2 d3 H12 H23 H1. auto.
    - intros source t o v r Hv Ht. simpl. now apply observed_ingest. }
  apply H. simpl. unfold observed, occurrences_of. simpl. now repeat split.
Qed.

(** X20. On every history of calls, the importance of a record is the
    maximum, taken with Python's [max] from the 0.0 of a new record and in
    the order of arrival, of the importance hints of the observations
    filed in it (0.5 for one that carries none). *)
Theorem importance_is_the_running_maximum (history : list call) k r :
  record_at (run history) k = Some r ->
  importance r = fold_left py_max (hint <$> occurrences_of r) 0%float.
Proof.
  intros Hr%record_at_get. pose proof (entry_observed_run history k) as H.
  unfold item in H. rewrite Hr in H. apply H.
Qed.

Lemma importance_is_the_running_maximum_witness :
  importance
    (ingest_record "source2" "EMAIL" (obs_scored "EMAIL" "Admin@Example.com" 0.8)
       (ingest_record "source1" "EMAIL" (obs "EMAIL" "admin@example.com") default_record))
  = fold_left py_max
      (hint <$> occurrences_of
         (ingest_record "source2" "EMAIL" (obs_scored "EMAIL" "Admin@Example.com" 0.8)
            (ingest_record "source1" "EMAIL" (obs "EMAIL" "admin@example.com")
               default_record)))
      0%float.
Proof.
  apply (importance_is_the_running_maximum
           [AddParsedEntities [("source1", [obs "EMAIL" "admin@example.com"])];
            AddParsedEntities [("source2", [obs_scored "EMAIL" "Admin@Example.com" 0.8])]]
           "admin@example.com").
  reflexivity.
Defined.

(** X21. On every history of calls, the observations filed in the record
    of a key all have a type and a value that normalizes to that key; the
    type of the record is the type of the first of them (no type while
    there is none); the record has at most as many sources as
    observations, and it has a source as soon as it has an observation. *)
Theorem a_record_files_the_observations_of_its_key (history : list call) k r :
  record_at (run history) k = Some r ->
  Forall (fun o => obs_key o = Some k /\ is_Some (obs_type o)) (occurrences_of r) /\
  type r = head (occurrences_of r) ≫= obs_type /\
  size (sources r) <= length (occurrences_of r) /\
  (sources r = ∅ <-> occurrences_of r = []).
Proof.
  intros Hr%record_at_get. pose proof (entry_observed_run history k) as H.
  unfold item in H. rewrite Hr in H. destruct H as (_ & Hall & Hty & Hsize & Hnone).
  split; [easy|]. split; [easy|]. split; [easy|]. split; [easy|].
  intros E. rewrite E in Hsize. simpl in Hsize.
  apply leibniz_equiv, size_empty_inv. lia.
Qed.

Lemma a_record_files_the_observations_of_its_key_witness :
  Forall (fun o => obs_key o = Some "admin@example.com" /\ is_Some (obs_type o))
         (occurrences_of
            (ingest_record "source1" "EMAIL" (obs "EMAIL" " Admin@Example.com")
               default_record)) /\
  type (ingest_record "source1" "EMAIL" (obs "EMAIL" " Admin@Example.com") default_record)
  = head (occurrences_of
            (ingest_record "source1" "EMAIL" (obs "EMAIL" " Admin@Example.com")
               default_record)) ≫= obs_type /\
  size (sources (ingest_record "source1" "EMAIL" (obs "EMAIL" " Admin@Example.com")
                   default_record))
  <= length (occurrences_of
               (ingest_record "source1" "EMAIL" (obs "EMAIL" " Admin@Example.com")
                  default_record)) /\
  (sources (ingest_record "source1" "EMAIL" (obs "EMAIL" " Admin@Example.com")
              default_record) = ∅
   <-> occurrences_of
         (ingest_record "source1" "EMAIL" (obs "EMAIL" " Admin@Example.com")
            default_record) = []).
Proof.
  apply (a_record_files_the_observations_of_its_key
           [AddParsedEntities [("source1", [obs "EMAIL" " Admin@Example.com"])]]
           "admin@example.com").
  reflexivity.
Defined.

(** ** Counting the relationships of a pass *)

Lemma sum_list_fmap_add {A} (f g : A -> nat) l :
  sum_list ((fun a => f a + g a) <$> l) = sum_list (f <$> l) + sum_list (g <$> l).
Proof. induction l as [|a l IH]; simpl; [easy|]. unfold fmap in *. lia. Qed.

Lemma sum_list_indicator {A} (Q : A -> Prop) `{forall a, Decision (Q a)} l :
  sum_list ((fun a => if decide (Q a) then 1 else 0) <$> l) = length (filter Q l).
Proof.
  induction l as [|a l IH]; simpl; [easy|]. rewrite filter_cons.
  unfold fmap in *. destruct (decide (Q a)); simpl; lia.
Qed.

Lemma sum_list_fmap_ext {A} (f g : A -> nat) l :
  (forall a, a ∈ l -> f a = g a) -> sum_list (f <$> l) = sum_list (g <$> l).
Proof.
  induction l as [|a l IH]; intros H; simpl; [easy|].
  rewrite (H a) by now left.
  unfold fmap in *. rewrite IH; [easy|]. intros b Hb. apply H. now right.
Qed.

Lemma length_filter_ext {A} (Q R : A -> Prop)
    `{forall a, Decision (Q a)} `{forall a, Decision (R a)} l :
  (forall a, a ∈ l -> Q a <-> R a) -> length (filter Q l) = length (filter R l).
Proof.
  induction l as [|a l IH]; intros HQR; [easy|]. rewrite !filter_cons.
  assert (IH' : length (filter Q l) = length (filter R l))
    by (apply IH; intros b Hb; apply HQR; now right).
  destruct (decide (Q a)) as [q|q], (decide (R a)) as [r|r]; simpl; try lia;
    exfalso; apply (HQR a) in q || apply (HQR a) in r; try easy; now left.
Qed.

Lemma length_row_rels e k1 rest :
  length (flat_map (pair_rel e k1) rest)
  = length (filter (fun b => srcs e k1 ∩ srcs e b ≠ ∅) rest).
Proof.
  induction rest as [|b rest IH]; [easy|]. simpl. rewrite length_app, IH, filter_cons.
  unfold pair_rel. destruct (decide (srcs e k1 ∩ srcs e b = ∅)) as [E|E].
  - now rewrite decide_False by (intros H; now apply H).
  - now rewrite decide_True.
Qed.

Lemma twice_pass_rels e ks :
  NoDup ks ->
  sum_list ((fun a => length (filter (fun b => b ≠ a /\ srcs e a ∩ srcs e b ≠ ∅) ks))
              <$> ks)
  = 2 * length (pass_rels e ks).
Proof.
  induction ks as [|k1 rest IH]; [easy|]. intros [Hk1 Hnd]%NoDup_cons.
  cbn [pass_rels]. rewrite length_app, length_row_rels, fmap_cons. cbn [sum_list].
  rewrite filter_cons, decide_False by (now intros [? _]).
  rewrite (sum_list_fmap_ext _
             (fun a => (if decide (srcs e a ∩ srcs e k1 ≠ ∅) then 1 else 0)
                       + length (filter (fun b => b ≠ a /\ srcs e a ∩ srcs e b ≠ ∅) rest))).
  2:{ intros a Ha. rewrite filter_cons.
      assert (k1 ≠ a) by (intros ->; easy).
      destruct (decide (srcs e a ∩ srcs e k1 ≠ ∅)) as [S|S].
      - now rewrite decide_True.
      - rewrite decide_False; [easy|]. now intros [_ ?]. }
  rewrite sum_list_fmap_add, sum_list_indicator, (IH Hnd).
  rewrite (length_filter_ext (fun b => b ≠ k1 /\ srcs e k1 ∩ srcs e b ≠ ∅)
                             (fun b => srcs e k1 ∩ srcs e b ≠ ∅) rest).
  2:{ intros b Hb. split; [now intros [_ ?]|]. intros S. split; [|easy]. intros ->. easy. }
  rewrite (length_filter_ext (fun a => srcs e a ∩ srcs e k1 ≠ ∅)
                             (fun b => srcs e k1 ∩ srcs e b ≠ ∅) rest).
  2:{ intros b Hb. now rewrite (comm_L (∩) (srcs e b)). }
  unfold id. lia.
Qed.

(** X22. One pass of [correlate] appends one relationship for each pair of
    linked entities: on every history of calls, twice the number of
    relationships the call appends is the sum, over the entities, of the
    numbers of their links. *)
Theorem a_pass_appends_one_relationship_per_linked_pair (history : list call) :
  exists res e' appended,
    correlate (run history) = (Ret res, e') /\
    res_relationships res = relationships (run history) ++ appended /\
    2 * length appended
    = sum_list ((fun k => size (links e' k)) <$> entity_keys (correlation_map e')).
Proof.
  destruct (correlate_spec (run history) (wf_run history)) as (res & e' & E & C).
  set (e := run history) in *. set (ks := entity_keys (correlation_map e)).
  exists res, e', (pass_rels e ks). split; [exact E|]. split.
  { now rewrite (cor_res_relationships _ _ _ C), (cor_relationships _ _ _ C). }
  assert (Hks : entity_keys (correlation_map e') = ks)
    by (unfold ks, entity_keys; now rewrite (cor_keys _ _ _ C)).
  pose proof (NoDup_entity_keys e (wf_run history)) as Hnd. fold ks in Hnd.
  rewrite Hks, <- (twice_pass_rels e ks Hnd).
  apply sum_list_fmap_ext. intros a Ha.
  rewrite <- (size_list_to_set (C := gset string));
    [|apply NoDup_filter, Hnd].
  f_equal. apply set_eq. intros b.
  rewrite elem_of_list_to_set, list_elem_of_filter. split.
  - intros [[Hne Hc] Hb]. apply (cor_complete _ _ _ C); easy.
  - intros Hb.
    destruct (wf_links_sound e' a b (cor_wf _ _ _ C) Hb) as (Hne & _ & Hbk & Hc).
    rewrite Hks in Hbk. rewrite !(cor_srcs _ _ _ C) in Hc. split; [split|]; easy.
Qed.

(** ** The high-value section of the report *)

Lemma run_snoc history c : run (history ++ [c]) = exec c (run history).
Proof. unfold run. now rewrite fold_left_app. Qed.

Lemma length_append s t : String.length (s +:+ t) = String.length s + String.length t.
Proof.
  induction s as [|c s IH]; [reflexivity|].
  change (String c s +:+ t) with (String c (s +:+ t)). simpl. now rewrite IH.
Qed.

Lemma typed_keys_are_normalized history k t :
  t ≠ "metadata" ->
  entry_type (item (correlation_map (run history)) k) = Some t ->
  _normalize_key k = k.
Proof.
  intros Hmeta Ht. pose proof (entry_observed_run history k) as H.
  destruct (item (correlation_map (run history)) k) as [r|c]; simpl in *; [|congruence].
  destruct H as (_ & Hall & Hty & _). rewrite Ht in Hty.
  destruct (occurrences_of r) as [|o l]; [easy|].
  apply Forall_cons in Hall as [[Hk _] _]. unfold obs_key in Hk.
  destruct (obs_value o) as [v|]; [|easy]. injection Hk as <-.
  apply StrFacts.normalize_idem.
Qed.

Lemma masked_spec cred :
  String.length (masked cred) <= 23 /\
  (String.length cred <= 20 -> masked cred = cred) /\
  (20 < String.length cred -> masked cred = substring 0 20 cred +:+ "***").
Proof.
  unfold masked. destruct (Nat.ltb_spec 20 (String.length cred)) as [L|L].
  - split; [|split; [lia|easy]]. rewrite length_append.
    pose proof (length_substring_le 20 cred). simpl. lia.
  - split; [lia|]. split; [easy|lia].
Qed.

Lemma shown_key_spec key :
  String.length (shown_key key) <= 43 /\
  (String.length key <= 40 -> shown_key key = key) /\
  (40 < String.length key -> shown_key key = substring 0 40 key +:+ "...").
Proof.
  unfold shown_key. destruct (Nat.ltb_spec 40 (String.length key)) as [L|L].
  - split; [|split; [lia|easy]]. rewrite length_append.
    pose proof (length_substring_le 40 key). simpl. lia.
  - split; [lia|]. split; [easy|lia].
Qed.

(** X23. The high-value section of the report, for the result of
    [correlate] on any history of calls, prints nothing exactly when no CTF
    flag, API key or credential was found. What it prints are the keys of
    the map, not the values as they were found: each flag is its own
    normalization, lower case and without surrounding whitespace. An API
    key is cut to its first 40 characters and ['...'], a credential to its
    first 20 and ['***']; one that is not longer than that is printed in
    full. *)
Theorem high_value_section_prints_normalized_keys (history : list call) :
  exists res e',
    correlate (run history) = (Ret res, e') /\
    match _display_high_value_targets res with
    | None => ctf_flags res = [] /\ api_keys res = [] /\ credentials res = []
    | Some (flags, keys, creds) =>
        (ctf_flags res ≠ [] \/ api_keys res ≠ [] \/ credentials res ≠ []) /\
        flags = ctf_flags res /\
        Forall (fun flag => _normalize_key flag = flag) flags /\
        keys = shown_key <$> api_keys res /\
        creds = masked <$> credentials res /\
        Forall (fun key => _normalize_key key = key) (api_keys res) /\
        Forall (fun cred => _normalize_key cred = cred) (credentials res) /\
        Forall (fun row => String.length row <= 43) keys /\
        Forall (fun row => String.length row <= 23) creds /\
        Forall (fun cred => String.length cred <= 20 -> masked cred = cred)
               (credentials res)
    end.
Proof.
  destruct (correlate_spec (run history) (wf_run history)) as (res & e' & E & C).
  exists res, e'. split; [exact E|].
  assert (He' : e' = run (history ++ [Correlate])).
  { rewrite run_snoc. simpl. now rewrite E. }
  assert (Hnorm : forall t, t ≠ "metadata" ->
            Forall (fun k => _normalize_key k = k)
                   (filter (fun k => entry_type (item (correlation_map e') k) = Some t)
                           (entity_keys (correlation_map (run history))))).
  { intros t Ht. apply Forall_forall. intros k [Hk _]%list_elem_of_filter.
    rewrite He' in Hk. exact (typed_keys_are_normalized _ k t Ht Hk). }
  pose proof (Hnorm "CTF_FLAG" ltac:(easy)) as Hf. rewrite <- (cor_ctf_flags _ _ _ C) in Hf.
  pose proof (Hnorm "API_KEY" ltac:(easy)) as Hk. rewrite <- (cor_api_keys _ _ _ C) in Hk.
  pose proof (Hnorm "CREDENTIAL" ltac:(easy)) as Hc.
  rewrite <- (cor_credentials _ _ _ C) in Hc.
  assert (Hrows :
    (ctf_flags res ≠ [] \/ api_keys res ≠ [] \/ credentials res ≠ []) ->
    (ctf_flags res ≠ [] \/ api_keys res ≠ [] \/ credentials res ≠ []) /\
    ctf_flags res = ctf_flags res /\
    Forall (fun flag => _normalize_key flag = flag) (ctf_flags res) /\
    shown_key <$> api_keys res = shown_key <$> api_keys res /\
    masked <$> credentials res = masked <$> credentials res /\
    Forall (fun key => _normalize_key key = key) (api_keys res) /\
    Forall (fun cred => _normalize_key cred = cred) (credentials res) /\
    Forall (fun row => String.length row <= 43) (shown_key <$> api_keys res) /\
    Forall (fun row => String.length row <= 23) (masked <$> credentials res) /\
    Forall (fun cred => String.length cred <= 20 -> masked cred = cred)
           (credentials res)).
  { intros Hne. repeat split; try easy.
    - apply Forall_fmap, Forall_forall. intros key _. apply shown_key_spec.
    - apply Forall_fmap, Forall_forall. intros cred _. apply masked_spec.
    - apply Forall_forall. intros cred _. apply masked_spec. }
  unfold _display_high_value_targets.
  destruct (ctf_flags res) as [|f fs]; [|apply Hrows; now left].
  destruct (api_keys res) as [|k ks]; [|apply Hrows; right; now left].
  destruct (credentials res) as [|c cs]; [easy|apply Hrows; right; now right].
Qed.

(** ** The tools the collection engine finds *)

Lemma get_detected w ts (acc : list (string * string)) tool :
  NoDup ts ->
  Dict.get tool
    (fold_left (fun tool_paths tool =>
                  match which w tool with
                  | Some path =>
                      if bool_decide (path = "") then tool_paths
                      else Dict.set tool path tool_paths
                  | None => tool_paths
                  end) ts acc)
  = if bool_decide (tool ∈ ts)
    then match found_path w tool with Some path => Some path | None => Dict.get tool acc end
    else Dict.get tool acc.
Proof.
  revert acc. induction ts as [|t ts IH]; intros acc Hnd; [easy|].
  apply NoDup_cons in Hnd as [Ht Hnd]. cbn [fold_left]. rewrite (IH _ Hnd).
  destruct (decide (tool = t)) as [->|Hne].
  - rewrite (bool_decide_false (t ∈ ts)) by easy.
    rewrite (bool_decide_true (t ∈ t :: ts)) by now left.
    unfold found_path. destruct (which w t) as [path|]; [|easy].
    destruct (bool_decide (path = "")); [easy|]. apply get_set_eq.
  - assert (Hin : bool_decide (tool ∈ t :: ts) = bool_decide (tool ∈ ts)).
    { apply bool_decide_ext. rewrite elem_of_cons. tauto. }
    rewrite Hin.
    assert (Hacc : Dict.get tool
                     match which w t with
                     | Some path =>
                         if bool_decide (path = "") then acc else Dict.set t path acc
                     | None => acc
                     end = Dict.get tool acc).
    { destruct (which w t) as [path|]; [|easy].
      destruct (bool_decide (path = "")); [easy|]. now apply get_set_ne. }
    now rewrite Hacc.
Qed.

Lemma has_tool_new w tool :
  has_tool (new_collection_engine w) tool
  = bool_decide (tool ∈ tools) && bool_decide (is_Some (found_path w tool)).
Proof.
  unfold has_tool, Dict.mem, new_collection_engine. cbn [tool_paths].
  unfold _detect_tools.
  rewrite get_detected by (unfold tools; repeat constructor; set_solver).
  destruct (bool_decide (tool ∈ tools)); [|easy]. simpl.
  destruct (found_path w tool) as [path|].
  - now rewrite bool_decide_true.
  - rewrite bool_decide_false; [easy|]. now intros [? ?].
Qed.

(** X24. A new collection engine caches, for each of the seven tools,
    the path [shutil.which] gives when it gives a non-empty one, and
    nothing else. So where none of the tools is installed, the collection
    for an IP address is empty and that for a domain holds the web content
    only; and the collection for a file that does not exist is empty
    whatever is installed. *)
Theorem a_new_engine_knows_the_tools_which_finds (w : World) :
  (forall tool,
     Dict.get tool (tool_paths (new_collection_engine w))
     = if bool_decide (tool ∈ tools) then found_path w tool else None) /\
  ((forall tool, tool ∈ tools -> found_path w tool = None) ->
   forall target_value,
     collect w (new_collection_engine w) "ip" target_value = Collected [] /\
     collect w (new_collection_engine w) "domain" target_value
     = Collected [("web_content", _fetch_web_content w ("https://" +:+ target_value))]) /\
  (forall self filename,
     path_exists w filename = false ->
     collect w self "filename" filename = Collected []).
Proof.
  split; [|split].
  - intros tool. unfold new_collection_engine. cbn [tool_paths]. unfold _detect_tools.
    rewrite get_detected by (unfold tools; repeat constructor; set_solver).
    destruct (bool_decide (tool ∈ tools)); [|easy]. now destruct (found_path w tool).
  - intros Hnone target_value.
    assert (Hno : forall tool, has_tool (new_collection_engine w) tool = false).
    { intros tool. rewrite has_tool_new.
      destruct (bool_decide (tool ∈ tools)) eqn:Hin; [|easy].
      apply bool_decide_eq_true in Hin. now rewrite (Hnone tool Hin). }
    unfold collect. simpl. unfold collect_ip, collect_domain, store_if.
    now rewrite !Hno.
  - intros self filename Hex. unfold collect. simpl. unfold collect_filename.
    now rewrite Hex.
Qed.

(* ===================================================================== *)
(** * Part V: the stated properties that rest on the further ones         *)
(* ===================================================================== *)

(** ** Malformed observations *)

(** A loop whose body raises at [x] without touching the state stops
    there, if it gets there. *)
Lemma for_each_stops {B} (l1 l2 : list B) (x : B) (body : B -> M unit) y e :
  (forall e1, body x e1 = (Raise y, e1)) ->
  for_each (l1 ++ x :: l2) body e =
  (match fst (for_each l1 body e) with
   | Ret _ => Raise y
   | Raise y' => Raise y'
   end, snd (for_each l1 body e)).
Proof.
  intros Hx. rewrite for_each_app.
  destruct (for_each l1 body e) as [[[]|y'] e1]; simpl; [|easy].
  unfold bind. now rewrite Hx.
Qed.

Lemma add_entity_malformed source bad e :
  obs_value bad = None \/ obs_type bad = None ->
  add_entity source bad e = (Raise (KeyError (missing_field bad)), e).
Proof.
  intros Hbad. unfold missing_field. destruct (obs_value bad) as [v|] eqn:Hv.
  - destruct Hbad as [|Ht]; [easy|]. now apply (add_entity_no_type _ _ v).
  - now apply add_entity_no_value.
Qed.

Lemma add_parsed_entities_stops e before source pre bad post after :
  obs_value bad = None \/ obs_type bad = None ->
  add_parsed_entities (before ++ (source, pre ++ bad :: post) :: after) e
  = (match fst (add_parsed_entities (before ++ [(source, pre)]) e) with
     | Ret _ => Raise (KeyError (missing_field bad))
     | Raise x => Raise x
     end,
     snd (add_parsed_entities (before ++ [(source, pre)]) e)).
Proof.
  intros Hbad. unfold add_parsed_entities. rewrite !for_each_app.
  destruct (for_each before _ e) as [[[]|x] e0]; [|easy].
  simpl. unfold bind.
  rewrite (for_each_stops pre post bad (add_entity source) (KeyError (missing_field bad)))
    by (intros e1; now apply add_entity_malformed).
  destruct (for_each pre (add_entity source) e0) as [[[]|x] e2]; easy.
Qed.

Lemma add_parsed_entities_returns history parsed :
  Forall (fun p => Forall (fun o => well_formed o /\ obs_key o ≠ Some "raw_data") (snd p))
         parsed ->
  fst (add_parsed_entities parsed (run history)) = Ret tt.
Proof.
  intros Hp. rewrite add_parsed_entities_tagged.
  destruct (ingest_tagged (tagged parsed) (run history) (wf_run history)) as (e' & E' & _).
  - apply Forall_forall. intros [s o] [l [Hl Ho]]%tagged_elem.
    rewrite Forall_forall in Hp. specialize (Hp _ Hl). simpl in Hp.
    rewrite Forall_forall in Hp. now apply Hp.
  - apply Forall_forall. intros [s o] [l [Hl Ho]]%tagged_elem.
    rewrite Forall_forall in Hp. specialize (Hp _ Hl). simpl in Hp.
    rewrite Forall_forall in Hp. now apply Hp.
  - now rewrite E'.
Qed.

(** C4, as the code has it. On any engine, a batch that holds a record
    without ['value'] or ['type'] makes [add_parsed_entities] raise, and
    the state it leaves is the one that the records before the first such
    record leave, those of its source and of the sources before: nothing at
    or after that record is processed. If those records are all ingested,
    the exception is the [KeyError] of the missing key, ['value'] before
    ['type']; if one of them raises, the call has stopped there with that
    exception. On an engine a history of calls can reach, records that have
    both keys and no value that normalizes to ['raw_data'] are all
    ingested, so that the exception is then the one of the missing key. *)
Theorem malformed_observation_stops_the_batch :
  (forall (e : Engine) before source pre bad post after,
      obs_value bad = None \/ obs_type bad = None ->
      add_parsed_entities (before ++ (source, pre ++ bad :: post) :: after) e
      = (match fst (add_parsed_entities (before ++ [(source, pre)]) e) with
         | Ret _ => Raise (KeyError (missing_field bad))
         | Raise x => Raise x
         end,
         snd (add_parsed_entities (before ++ [(source, pre)]) e))) /\
  (forall history parsed,
      Forall (fun p => Forall (fun o => well_formed o /\ obs_key o ≠ Some "raw_data") (snd p))
             parsed ->
      fst (add_parsed_entities parsed (run history)) = Ret tt) /\
  (forall history before source pre bad post after,
      obs_value bad = None \/ obs_type bad = None ->
      Forall (fun p => Forall (fun o => well_formed o /\ obs_key o ≠ Some "raw_data") (snd p))
             (before ++ [(source, pre)]) ->
      add_parsed_entities (before ++ (source, pre ++ bad :: post) :: after) (run history)
      = (Raise (KeyError (missing_field bad)),
         snd (add_parsed_entities (before ++ [(source, pre)]) (run history)))).
Proof.
  split; [exact add_parsed_entities_stops|]. split; [exact add_parsed_entities_returns|].
  intros history before source pre bad post after Hbad Hp.
  rewrite (add_parsed_entities_stops _ _ _ _ _ _ _ Hbad).
  now rewrite (add_parsed_entities_returns history _ Hp).
Qed.

Lemma malformed_observation_stops_the_batch_witness :
  add_parsed_entities
    ([("source0", [obs "PERSON" "alice"])]
       ++ ("source1", [obs "EMAIL" "admin@example.com"] ++ obs_without_type "10.0.0.1"
                        :: [obs "PERSON" "johnny_ctf"])
       :: [("source2", [obs "EMAIL" "admin@example.com"])])
    (run [AddRawData [("nmap", "22/tcp open ssh")]])
  = (Raise (KeyError "type"),
     {| correlation_map :=
          [("raw_data", Corpus {| corpus_sources := ∅;
                                  data := [("nmap", "22/tcp open ssh")] |});
           ("alice",
            Entity {| type := Some "PERSON"; sources := {["source0"]};
                      linked_entities := ∅; importance := 0.5%float;
                      occurrences := Some [obs "PERSON" "alice"];
                      final_score := None |});
           ("admin@example.com",
            Entity {| type := Some "EMAIL"; sources := {["source1"]};
                      linked_entities := ∅; importance := 0.5%float;
                      occurrences := Some [obs "EMAIL" "admin@example.com"];
                      final_score := None |})];
        relationships := [] |}).
Proof.
  etransitivity.
  - apply (proj2 (proj2 malformed_observation_stops_the_batch)
             [AddRawData [("nmap", "22/tcp open ssh")]]
             [("source0", [obs "PERSON" "alice"])] "source1"
             [obs "EMAIL" "admin@example.com"] (obs_without_type "10.0.0.1")
             [obs "PERSON" "johnny_ctf"] [("source2", [obs "EMAIL" "admin@example.com"])]).
    + right. reflexivity.
    + repeat constructor; try (eexists; reflexivity); discriminate.
  - vm_compute. reflexivity.
Defined.

(** C4 fails as stated: the record without a value aborts the whole batch;
    the valid record after it is never ingested (the map stays empty), and
    the call raises. *)
Lemma malformed_record_aborts_the_batch :
  add_parsed_entities
    [("source1", [obs_without_value "EMAIL"; obs "EMAIL" "admin@example.com"]);
     ("source2", [obs "IP_ADDRESS" "10.0.0.1"])] init
  = (Raise (KeyError "value"), init).
Proof. reflexivity. Qed.

(** The exception need not be that of the malformed record: with the
    corpus stored, an earlier record whose value normalizes to ['raw_data']
    has already raised. *)
Lemma earlier_record_raises_first :
  add_parsed_entities
    [("web", [obs "USERNAME" "raw_data"; obs_without_value "EMAIL"])]
    (run [AddRawData [("nmap", "22/tcp open ssh")]])
  = (Raise (KeyError "importance"),
     snd (add_parsed_entities [("web", [obs "USERNAME" "raw_data"])]
            (run [AddRawData [("nmap", "22/tcp open ssh")]]))).
Proof. reflexivity. Qed.

(** ** The type of a record, on every history *)

Lemma filed_add_entity source o e :
  (forall k r, record_at e k = Some r -> occurrences_of r <> []) ->
  forall k r, record_at (snd (add_entity source o e)) k = Some r -> occurrences_of r <> [].
Proof.
  intros H.
  destruct (obs_value o) as [v|] eqn:Hv; [|now rewrite add_entity_no_value].
  destruct (obs_type o) as [t|] eqn:Ht; [|now rewrite (add_entity_no_type _ _ v)].
  rewrite (add_entity_eq _ _ v t) by easy.
  intros k r.
  destruct (add_source source (claim_type t (item (correlation_map e) (_normalize_key v))))
    as [r0|c]; unfold record_at; simpl; rewrite get_set;
    (destruct (decide (k = _normalize_key v)) as [->|Hne]; [|apply H]).
  - intros [= <-]. unfold occurrences_of. simpl. now destruct (default [] (occurrences r0)).
  - easy.
Qed.

Lemma filed_add_raw_item it e :
  (forall k r, record_at e k = Some r -> occurrences_of r <> []) ->
  forall k r, record_at (snd (add_raw_item it e)) k = Some r -> occurrences_of r <> [].
Proof.
  intros H. destruct it as [source content]. rewrite add_raw_item_eq.
  destruct (Dict.get "raw_data" (correlation_map e)) as [[r0|c]|] eqn:E; simpl; [easy| |];
    intros k r; unfold record_at; simpl; rewrite get_set;
    (destruct (decide (k = "raw_data")); [easy|apply H]).
Qed.

(** A record has at least one observation filed in it. *)
Lemma filed_run history k r :
  record_at (run history) k = Some r -> occurrences_of r <> [].
Proof.
  revert k r. induction history as [|c history IH] using rev_ind.
  - intros k r. unfold record_at. now simpl.
  - rewrite run_snoc. destruct c as [raw|parsed| |key]; simpl.
    + apply (for_each_invariant
               (fun e => forall k r, record_at e k = Some r -> occurrences_of r <> [])); [|easy].
      intros it e. apply filed_add_raw_item.
    + apply (for_each_invariant
               (fun e => forall k r, record_at e k = Some r -> occurrences_of r <> [])); [|easy].
      intros [source entities] e He.
      apply (for_each_invariant
               (fun e => forall k r, record_at e k = Some r -> occurrences_of r <> [])); [|easy].
      intros o e0. apply filed_add_entity.
    + destruct (correlate_spec (run history) (wf_run history)) as (res & e' & E & C).
      rewrite E. simpl. intros k r' Hr'.
      assert (Hk : k ∈ Dict.keys (correlation_map (run history))).
      { rewrite <- (cor_keys _ _ _ C). apply record_at_get in Hr'.
        now apply get_Some_keys in Hr'. }
      apply keys_get in Hk as [d Hd].
      destruct d as [r|c].
      * assert (Hr : record_at (run history) k = Some r) by (unfold record_at; now rewrite Hd).
        destruct (cor_fields _ _ _ C k r Hr) as (r'' & Hr'' & _ & _ & _ & Ho).
        assert (r'' = r') by congruence. subst r''.
        unfold occurrences_of. rewrite Ho. now apply (IH k r).
      * destruct (decide (k = "raw_data")) as [->|Hraw].
        -- pose proof (cor_raw_data _ _ _ C) as G. rewrite Hd in G.
           unfold record_at in Hr'. now rewrite G in Hr'.
        -- destruct (wf_entity _ (wf_run history) k _ Hraw Hd) as [r Hr]. easy.
    + easy.
Qed.

(** C8, as the code has it. On every history of calls, a record has a
    first observation filed under its key, and its type is the type of that
    observation, whatever string it is, the empty one included: the code
    asks whether the record's type [is None], not whether it is empty. An
    observation whose key has no type yet gives it its own type, and no
    later observation or call of the engine, whether it returns or raises,
    changes a type once it is there. (An observation has a type when the
    field is present; without it [add_entity] raises before it reaches the
    map.) *)
Theorem type_is_first_writer_wins :
  (forall history k r,
      record_at (run history) k = Some r ->
      exists first others t,
        occurrences_of r = first :: others /\
        obs_type first = Some t /\ type r = Some t /\
        Forall (fun o => obs_key o = Some k) (first :: others)) /\
  (forall e source o v t,
      obs_value o = Some v -> obs_type o = Some t ->
      recorded_type e (_normalize_key v) = None ->
      exists e', add_entity source o e = (Ret tt, e') /\
                 recorded_type e' (_normalize_key v) = Some t) /\
  (forall e source o k t,
      recorded_type e k = Some t ->
      recorded_type (snd (add_entity source o e)) k = Some t) /\
  (forall e c k t,
      recorded_type e k = Some t -> recorded_type (exec c e) k = Some t) /\
  (forall e source o v t later,
      obs_value o = Some v -> obs_type o = Some t ->
      recorded_type e (_normalize_key v) = None ->
      recorded_type (fold_left (fun e c => exec c e) later (snd (add_entity source o e)))
                    (_normalize_key v) = Some t).
Proof.
  split; [|split; [exact first_type_is_recorded|split; [|split]]].
  - intros history k r Hr.
    pose proof (filed_run history k r Hr) as Hne.
    pose proof (entry_observed_run history k) as H.
    apply record_at_get in Hr. unfold item in H. rewrite Hr in H.
    destruct H as (_ & Hall & Hty & _).
    destruct (occurrences_of r) as [|first others]; [easy|].
    pose proof Hall as Hall'.
    apply Forall_cons in Hall as [[_ [t Ht]] _].
    exists first, others, t. split; [easy|]. split; [easy|]. split.
    + rewrite Hty. simpl. exact Ht.
    + eapply Forall_impl; [exact Hall'|]. now intros o [? _].
  - intros e source o k t. apply recorded_type_kept, keeps_types_add_entity.
  - intros e c k t. apply recorded_type_kept, keeps_types_exec.
  - intros e source o v t later Hv Ht Hnone.
    destruct (first_type_is_recorded e source o v t Hv Ht Hnone) as (e' & E & H).
    rewrite E. simpl. exact (recorded_type_kept _ _ _ _ (keeps_types_steps later e') H).
Qed.

Lemma type_is_first_writer_wins_witness :
  recorded_type
    (fold_left (fun e c => exec c e)
       [AddParsedEntities [("source2", [obs "EMAIL" "Admin@Example.com"])]; Correlate]
       (snd (add_entity "source1" (obs "" "admin@example.com") init)))
    "admin@example.com" = Some "".
Proof.
  apply (proj2 (proj2 (proj2 (proj2 type_is_first_writer_wins)))
           init "source1" (obs "" "admin@example.com") "admin@example.com" "");
    reflexivity.
Defined.

(** C8 fails as stated: an observation whose type is the empty string is
    the first writer, and the type EMAIL of the next observation of the
    same key, the first non-empty one, is not recorded. *)
Lemma empty_type_is_recorded_and_kept :
  add_parsed_entities
    [("source1", [obs "" "admin@example.com"]);
     ("source2", [obs "EMAIL" "Admin@Example.com"])] init
  = (Ret tt,
     {| correlation_map :=
          [("admin@example.com",
            Entity {| type := Some "";
                      sources := {["source1"]} ∪ {["source2"]};
                      linked_entities := ∅;
                      importance := 0.5%float;
                      occurrences := Some [obs "" "admin@example.com";
                                           obs "EMAIL" "Admin@Example.com"];
                      final_score := None |})];
        relationships := [] |}).
Proof. vm_compute. reflexivity. Qed.

(** ** Lookup of a value never ingested *)

Lemma keys_add_entity source o e k :
  k ∈ Dict.keys (correlation_map (snd (add_entity source o e))) ->
  k ∈ Dict.keys (correlation_map e) \/ obs_key o = Some k.
Proof.
  destruct (obs_value o) as [v|] eqn:Hv; [|rewrite add_entity_no_value by easy; now left].
  destruct (obs_type o) as [t|] eqn:Ht;
    [|rewrite (add_entity_no_type _ _ v) by easy; now left].
  rewrite (add_entity_eq _ _ v t) by easy. unfold obs_key. rewrite Hv. simpl.
  destruct (add_source source (claim_type t (item (correlation_map e) (_normalize_key v))));
    simpl; rewrite keys_set; destruct (Dict.mem _ _); try (now left);
    intros [H| ->%list_elem_of_singleton]%elem_of_app; auto.
Qed.

Lemma keys_add_entities source entities e k :
  k ∈ Dict.keys (correlation_map (snd (for_each entities (add_entity source) e))) ->
  k ∈ Dict.keys (correlation_map e) \/
  exists entity, entity ∈ entities /\ obs_key entity = Some k.
Proof.
  revert e. induction entities as [|o l IH]; intros e; simpl; [now left|].
  unfold bind. pose proof (keys_add_entity source o e k) as Ho.
  destruct (add_entity source o e) as [[[]|x] e1]; simpl in *.
  - intros [H|(o' & Ho' & Hk)]%IH.
    + destruct (Ho H) as [|Hk]; [now left|]. right. exists o. split; [|easy].
      apply elem_of_cons. now left.
    + right. exists o'. split; [|easy]. apply elem_of_cons. now right.
  - intros H. destruct (Ho H) as [|Hk]; [now left|]. right. exists o. split; [|easy].
    apply elem_of_cons. now left.
Qed.

Lemma keys_add_parsed_entities parsed e k :
  k ∈ Dict.keys (correlation_map (snd (add_parsed_entities parsed e))) ->
  k ∈ Dict.keys (correlation_map e) \/
  exists source entities entity,
    (source, entities) ∈ parsed /\ entity ∈ entities /\ obs_key entity = Some k.
Proof.
  unfold add_parsed_entities.
  revert e. induction parsed as [|[source entities] parsed IH]; intros e; simpl; [now left|].
  unfold bind. pose proof (keys_add_entities source entities e k) as Hl.
  destruct (for_each entities (add_entity source) e) as [[[]|x] e1]; simpl in *.
  - intros [H|(s & l & o & Hs & Ho & Hk)]%IH.
    + destruct (Hl H) as [|(o & Ho & Hk)]; [now left|]. right.
      exists source, entities, o. split; [|easy]. apply elem_of_cons. now left.
    + right. exists s, l, o. split; [|easy]. apply elem_of_cons. now right.
  - intros H. destruct (Hl H) as [|(o & Ho & Hk)]; [now left|]. right.
    exists source, entities, o. split; [|easy]. apply elem_of_cons. now left.
Qed.

Lemma keys_add_raw_data raw e k :
  k ∈ Dict.keys (correlation_map (snd (add_raw_data raw e))) ->
  k ∈ Dict.keys (correlation_map e) \/ k = "raw_data".
Proof.
  unfold add_raw_data.
  apply (for_each_invariant
           (fun e' => k ∈ Dict.keys (correlation_map e') ->
                      k ∈ Dict.keys (correlation_map e) \/ k = "raw_data")); [|now left].
  intros [source content] e0 H0. rewrite add_raw_item_eq.
  destruct (Dict.get "raw_data" (correlation_map e0)) as [[r|c]|]; simpl; [easy|..];
    rewrite keys_set; destruct (Dict.mem _ _); try easy;
    intros [H| ->%list_elem_of_singleton]%elem_of_app; auto.
Qed.

(** A key of the map is ['raw_data'] or the key of an entity dictionary
    that the history handed to [add_parsed_entities]. *)
Lemma keys_are_ingested history k :
  k ∈ Dict.keys (correlation_map (run history)) -> k = "raw_data" \/ ingested k history.
Proof.
  induction history as [|c history IH] using rev_ind.
  - simpl. now intros ?%elem_of_nil.
  - assert (Hold : k ∈ Dict.keys (correlation_map (run history)) ->
                   k = "raw_data" \/ ingested k (history ++ [c])).
    { intros [->|H]%IH; [now left|]. right.
      destruct H as (parsed & s & l & o & Hp & H). exists parsed, s, l, o.
      split; [|easy]. apply elem_of_app. now left. }
    rewrite run_snoc. destruct c as [raw|parsed| |key]; simpl.
    + intros [H| ->]%keys_add_raw_data; [now apply Hold|now left].
    + intros [H|(s & l & o & Hs & Ho & Hk)]%keys_add_parsed_entities; [now apply Hold|].
      right. exists parsed, s, l, o. split; [|easy].
      apply elem_of_app. right. apply list_elem_of_singleton. reflexivity.
    + destruct (correlate_spec (run history) (wf_run history)) as (res & e' & E & C).
      rewrite E. simpl. rewrite (cor_keys _ _ _ C). exact Hold.
    + exact Hold.
Qed.

(** [get_entity_details] on a value whose key the map does not hold
    returns [None], raises nothing and leaves the engine as it was: the
    probed key is not bound to a default record. *)
Lemma lookup_of_unbound_key (e : Engine) (entity_key : string) :
  _normalize_key entity_key ∉ Dict.keys (correlation_map e) ->
  get_entity_details entity_key e = (Ret None, e).
Proof.
  intros H%get_None. unfold get_entity_details. now rewrite H.
Qed.

Lemma lookup_never_ingested history v :
  ~ ingested (_normalize_key v) history -> _normalize_key v <> "raw_data" ->
  get_entity_details v (run history) = (Ret None, run history).
Proof.
  intros Hnever Hraw. apply lookup_of_unbound_key.
  intros [|]%keys_are_ingested; easy.
Qed.

(** C9 at the value ['raw_data']. On every history of calls, the lookup
    of a value that no [add_parsed_entities] call was handed, in any case or
    padding, returns [None], raises nothing and leaves the engine as it was,
    the probed key unbound, unless the value normalizes to ['raw_data']:
    once a raw text is stored, the lookup of that value, which was never
    ingested, returns the corpus value. *)
Theorem lookup_of_a_value_never_ingested :
  (forall history v,
      ~ ingested (_normalize_key v) history -> _normalize_key v ≠ "raw_data" ->
      get_entity_details v (run history) = (Ret None, run history)) /\
  ~ ingested "raw_data" [AddRawData [("nmap", "22/tcp open ssh")]] /\
  get_entity_details "raw_data" (run [AddRawData [("nmap", "22/tcp open ssh")]])
  = (Ret (Some (Corpus {| corpus_sources := ∅; data := [("nmap", "22/tcp open ssh")] |})),
     run [AddRawData [("nmap", "22/tcp open ssh")]]).
Proof.
  split; [exact lookup_never_ingested|]. split; [|reflexivity].
  intros (parsed & s & l & o & Hp & _).
  apply list_elem_of_singleton in Hp. discriminate.
Qed.

Lemma lookup_of_a_value_never_ingested_witness :
  get_entity_details "Nobody@Example.com"
    (run [AddRawData [("nmap", "22/tcp open ssh")];
          AddParsedEntities [("web", [obs "EMAIL" "a@b.c"])]; Correlate])
  = (Ret None,
     run [AddRawData [("nmap", "22/tcp open ssh")];
          AddParsedEntities [("web", [obs "EMAIL" "a@b.c"])]; Correlate]).
Proof.
  apply (proj1 lookup_of_a_value_never_ingested
           [AddRawData [("nmap", "22/tcp open ssh")];
            AddParsedEntities [("web", [obs "EMAIL" "a@b.c"])]; Correlate]
           "Nobody@Example.com").
  - intros (parsed & s & l & o & Hp & Hs & Ho & Hk).
    repeat (apply elem_of_cons in Hp as [Hp|Hp]; [try discriminate Hp|]).
    + injection Hp as ->.
      apply list_elem_of_singleton in Hs. injection Hs as -> ->.
      apply list_elem_of_singleton in Ho. subst o. discriminate Hk.
    + now apply elem_of_nil in Hp.
  - discriminate.
Defined.

(** The contrast: subscripting the map with an unseen key does bind it. *)
Lemma subscript_unseen_binds (e : Engine) (k : string) :
  k ∉ Dict.keys (correlation_map e) ->
  Dict.keys (correlation_map (snd (getitem k e))) = Dict.keys (correlation_map e) ++ [k].
Proof.
  intros H%get_None. rewrite (getitem_absent _ _ H). simpl.
  now apply keys_set_absent.
Qed.
